(** * tgext.rq: the gevent worker ([rq_gevent_worker.py])

    A shallow embedding of [GeventWorker]: the bounded greenlet pool, the
    heartbeat protocol, the warm/cold signal handlers and the dispatch loop
    [_work], followed by the properties of the specification.

    The worker object is a record that is threaded through every method.
    Everything the worker does to a collaborator (Redis, the logger, the
    scheduler, gevent) is appended to [trace], newest event first.

    gevent is cooperative: other greenlets (job executions, their completion
    callbacks, signal handlers) only run while the dispatch loop is parked in
    a blocking call.  A run is therefore driven by a script of [tick]s, one
    per blocking call of the loop: what happened in the other greenlets while
    the loop was parked, and how the call itself came back.  A script that
    runs out models a call that never comes back.

    The calls at which the loop parks are [check_for_suspension],
    [gevent.sleep], [dequeue_any], the hub switch and a [spawn] on a full
    pool.  The Redis round trips of [heartbeat], [set_state],
    [register_birth] and [register_death], and [stop_scheduler], are modelled
    as returning at once: no other greenlet runs inside them. *)

From Stdlib Require Import ZArith List Bool String Lia Arith.

Import ListNotations.

Open Scope string_scope.

Open Scope list_scope.

Open Scope Z_scope.

(** ** Data *)

(** [rq.job.JobStatus]. *)
Inductive JobStatus :=
| QUEUED | FINISHED | FAILED | STARTED | DEFERRED | SCHEDULED | STOPPED
| CANCELED.

(** [rq.worker.WorkerStatus]. *)
Inductive WorkerStatus := WS_STARTED | WS_SUSPENDED | WS_BUSY | WS_IDLE.

Record Job := mkJob {
  job_id : string;
  job_description : string;
  job_status : JobStatus            (* what [job.get_status()] reads *)
}.

Record Queue := mkQueue { queue_name : string }.

Inductive signum := SIGINT | SIGTERM.

(** The two closures of [_install_signal_handlers]. *)
Inductive handler := request_stop_h | request_force_stop_h.

Inductive exn :=
| StopRequested
| DequeueTimeout
| LoopExit
| SystemExit
| KeyboardInterrupt
| SystemError
| OtherError (msg : string).

Inductive level := INFO | WARNING.

(** Calls made on collaborators, in the order they are made. *)
Inductive Event :=
| EvSetupLoghandlers (logging_level : string)
| EvLog (l : level) (msg : string)
| EvSignal (s : signum) (h : handler)         (* gevent.hub.signal(s, h) *)
| EvRegisterBirth                             (* Worker.register_birth *)
| EvRegisterDeath                             (* Worker.register_death *)
| EvHsetPoolSize (size : option Z)            (* hset(key, 'pool_size', _) *)
| EvHsetCurrPoolLen (n : Z)                   (* hset(key, 'curr_pool_len', _) *)
| EvHeartbeat (timeout : Z)                   (* Worker.heartbeat(timeout) *)
| EvSetState (st : WorkerStatus)
| EvSchedulerCreate (logging_level date_format log_format : string)
| EvAcquireLocks
| EvEnqueueScheduledJobs
| EvReleaseLocks
| EvSchedulerStart
| EvStopScheduler
| EvCheckForSuspension (burst : bool)
| EvRunMaintenanceTasks
| EvSleep                                     (* gevent.sleep(0.1) *)
| EvDequeueAny (timeout : option Z)           (* queue_class.dequeue_any *)
| EvHubSwitch                                 (* get_hub().switch() *)
| EvSpawn (j : Job) (q : Queue)               (* gevent_pool.spawn(perform_job, j, q) *)
| EvJobDone (j : Job)                         (* the linked callback is entered *)
| EvEnqueueDependents (q : Queue) (j : Job)   (* q.enqueue_dependents(j) *)
| EvPoolJoin                                  (* gevent_pool.join() *)
| EvPoolKill                                  (* gevent_pool.kill() *)
| EvKillWorker                                (* gevent_worker.kill(StopRequested) *)
.

(** The worker object, with the part of its surroundings that the methods
    read: the watchers registered with the hub and the control transfers that
    other greenlets have scheduled for the greenlet running the loop. *)
Record Worker := mkWorker {
  pool_size : option Z;             (* gevent_pool.size; None is unbounded *)
  pool : list (Job * Queue);        (* greenlets in gevent_pool, oldest first *)
  gevent_worker : bool;             (* gevent_worker is not None *)
  stop_requested : bool;            (* _stop_requested *)
  did_perform_work : bool;
  scheduler : bool;                 (* scheduler is not None *)
  is_horse : bool;
  default_worker_ttl : Z;
  should_run_maintenance_tasks : bool;
  acquires_locks : bool;            (* what scheduler.acquire_locks() obtains *)
  watchers : list (signum * handler);
  join_waiting : bool;              (* request_stop is parked in gevent_pool.join() *)
  interrupt : option exn;           (* thrown into the loop at its blocking call *)
  exiting : bool;                   (* SystemExit reached a main greenlet that is
                                       not the loop: the process is going down *)
  trace : list Event
}.

Definition DEFAULT_LOGGING_DATE_FORMAT := "%H:%M:%S".

Definition DEFAULT_LOGGING_FORMAT := "%(asctime)s %(message)s".

Definition DEFAULT_POOL_SIZE : Z := 20.

(** ** Field updates *)

Definition set_pool (p : list (Job * Queue)) (w : Worker) : Worker :=
  mkWorker (pool_size w) p (gevent_worker w) (stop_requested w)
    (did_perform_work w) (scheduler w) (is_horse w) (default_worker_ttl w)
    (should_run_maintenance_tasks w) (acquires_locks w) (watchers w)
    (join_waiting w) (interrupt w) (exiting w) (trace w).

Definition set_gevent_worker (b : bool) (w : Worker) : Worker :=
  mkWorker (pool_size w) (pool w) b (stop_requested w)
    (did_perform_work w) (scheduler w) (is_horse w) (default_worker_ttl w)
    (should_run_maintenance_tasks w) (acquires_locks w) (watchers w)
    (join_waiting w) (interrupt w) (exiting w) (trace w).

Definition set_stop_requested (b : bool) (w : Worker) : Worker :=
  mkWorker (pool_size w) (pool w) (gevent_worker w) b
    (did_perform_work w) (scheduler w) (is_horse w) (default_worker_ttl w)
    (should_run_maintenance_tasks w) (acquires_locks w) (watchers w)
    (join_waiting w) (interrupt w) (exiting w) (trace w).

Definition set_did_perform_work (b : bool) (w : Worker) : Worker :=
  mkWorker (pool_size w) (pool w) (gevent_worker w) (stop_requested w)
    b (scheduler w) (is_horse w) (default_worker_ttl w)
    (should_run_maintenance_tasks w) (acquires_locks w) (watchers w)
    (join_waiting w) (interrupt w) (exiting w) (trace w).

Definition set_scheduler (b : bool) (w : Worker) : Worker :=
  mkWorker (pool_size w) (pool w) (gevent_worker w) (stop_requested w)
    (did_perform_work w) b (is_horse w) (default_worker_ttl w)
    (should_run_maintenance_tasks w) (acquires_locks w) (watchers w)
    (join_waiting w) (interrupt w) (exiting w) (trace w).

Definition set_maintenance (b : bool) (w : Worker) : Worker :=
  mkWorker (pool_size w) (pool w) (gevent_worker w) (stop_requested w)
    (did_perform_work w) (scheduler w) (is_horse w) (default_worker_ttl w)
    b (acquires_locks w) (watchers w)
    (join_waiting w) (interrupt w) (exiting w) (trace w).

Definition set_watchers (l : list (signum * handler)) (w : Worker) : Worker :=
  mkWorker (pool_size w) (pool w) (gevent_worker w) (stop_requested w)
    (did_perform_work w) (scheduler w) (is_horse w) (default_worker_ttl w)
    (should_run_maintenance_tasks w) (acquires_locks w) l
    (join_waiting w) (interrupt w) (exiting w) (trace w).

Definition set_join_waiting (b : bool) (w : Worker) : Worker :=
  mkWorker (pool_size w) (pool w) (gevent_worker w) (stop_requested w)
    (did_perform_work w) (scheduler w) (is_horse w) (default_worker_ttl w)
    (should_run_maintenance_tasks w) (acquires_locks w) (watchers w)
    b (interrupt w) (exiting w) (trace w).

Definition set_interrupt (i : option exn) (w : Worker) : Worker :=
  mkWorker (pool_size w) (pool w) (gevent_worker w) (stop_requested w)
    (did_perform_work w) (scheduler w) (is_horse w) (default_worker_ttl w)
    (should_run_maintenance_tasks w) (acquires_locks w) (watchers w)
    (join_waiting w) i (exiting w) (trace w).

Definition set_exiting (b : bool) (w : Worker) : Worker :=
  mkWorker (pool_size w) (pool w) (gevent_worker w) (stop_requested w)
    (did_perform_work w) (scheduler w) (is_horse w) (default_worker_ttl w)
    (should_run_maintenance_tasks w) (acquires_locks w) (watchers w)
    (join_waiting w) (interrupt w) b (trace w).

(** Record one call on a collaborator. *)
Definition emit (e : Event) (w : Worker) : Worker :=
  mkWorker (pool_size w) (pool w) (gevent_worker w) (stop_requested w)
    (did_perform_work w) (scheduler w) (is_horse w) (default_worker_ttl w)
    (should_run_maintenance_tasks w) (acquires_locks w) (watchers w)
    (join_waiting w) (interrupt w) (exiting w) (e :: trace w).

(** ** Outcomes of a call *)

(** Why a call did not return. *)
Inductive halt :=
| Raised (e : exn)    (* it raised *)
| Parked              (* it never comes back: the script ran out *)
| Exited              (* the process went down while the greenlet was parked *)
| Unrolled.           (* the unrolling bound of the model was reached *)

Inductive outcome (A : Type) :=
| Ok (a : A)
| Halt (h : halt).

Arguments Ok {A} a.

Arguments Halt {A} h.

Abbreviation Raise e := (Halt (Raised e)).

Abbreviation Blocked := (Halt Parked).

Abbreviation ProcessExit := (Halt Exited).

Abbreviation OutOfFuel := (Halt Unrolled).

(** ** The pool ([gevent.pool.Pool]) *)

Definition pool_len (w : Worker) : Z := Z.of_nat (List.length (pool w)).

(** [Pool.free_count]. *)
Definition free_count (w : Worker) : Z :=
  match pool_size w with
  | None => 1
  | Some c => Z.max 0 (c - pool_len w)
  end.

(** [Pool.full]. *)
Definition full (w : Worker) : bool := free_count w <=? 0.

(** ** GeventWorker.__init__

    [kw] is the [pool_size] entry of [kwargs], when there is one.
    [gevent.pool.Pool] refuses a negative size with [ValueError]. *)
Definition __init__ (kw : option (option Z)) (horse : bool) (ttl : Z)
    (locks : bool) : outcome Worker :=
  let size := match kw with
              | Some v => v
              | None => Some DEFAULT_POOL_SIZE
              end in
  match size with
  | Some c =>
      if c <? 0 then Raise (OtherError "ValueError")
      else Ok (mkWorker size [] false false false false horse ttl false locks
                 [] false None false [])
  | None => Ok (mkWorker size [] false false false false horse ttl false locks
                  [] false None false [])
  end.

(** ** register_birth and heartbeat *)

Definition register_birth (w : Worker) : Worker :=
  emit (EvHsetPoolSize (pool_size w)) (emit EvRegisterBirth w).

Definition heartbeat (timeout : Z) (w : Worker) : Worker :=
  let w := emit (EvHeartbeat timeout) w in
  emit (EvHsetCurrPoolLen (pool_len w)) w.

Definition set_state (st : WorkerStatus) (w : Worker) : Worker :=
  emit (EvSetState st) w.

(** ** What the other greenlets do while the loop is parked *)

Inductive async :=
| Finish (i : nat) (st : JobStatus)   (* the i-th greenlet of the pool ends;
                                         its job's status then reads [st] *)
| Signal (s : signum)                 (* the hub delivers a signal *)
| MaintenanceDue.                     (* the maintenance interval elapsed *)

(** How the blocking call itself comes back. *)
Inductive reply :=
| Ret (r : option (Job * Queue))
| Exc (e : exn).

Record tick := mkTick { asyncs : list async; reply_of : reply }.

Definition script := list tick.

(** ** execute_job.job_done: the callback linked to every admitted greenlet *)

Definition job_done (job : Job) (queue : Queue) (w : Worker) : Worker :=
  let w := emit (EvJobDone job) w in
  let w := set_did_perform_work true w in
  let w := heartbeat 0 w in
  match job_status job with
  | FINISHED => emit (EvEnqueueDependents queue job) w
  | _ => w
  end.

(** An exception is scheduled for the greenlet running the loop. *)
Definition throw (e : exn) (w : Worker) : Worker :=
  match interrupt w with
  | None => set_interrupt (Some e) w
  | Some _ => w
  end.

(** The end of [request_stop], once [gevent_pool.join()] has returned. *)
Definition request_stop_resume (w : Worker) : Worker :=
  if gevent_worker w then throw StopRequested (emit EvKillWorker w) else w.

Definition remove_nth {A : Type} (i : nat) (l : list A) : list A :=
  firstn i l ++ skipn (S i) l.

Definition with_status (st : option JobStatus) (job : Job) : Job :=
  match st with
  | Some s => mkJob (job_id job) (job_description job) s
  | None => job
  end.

(** The i-th greenlet of the pool ends (returned, raised or was killed).  Its
    links run in the order they were attached: the pool's own bookkeeping,
    which frees the slot, then [job_done]. *)
Definition greenlet_exit (i : nat) (st : option JobStatus) (w : Worker)
    : Worker :=
  match nth_error (pool w) i with
  | None => w
  | Some (job, queue) =>
      let w := set_pool (remove_nth i (pool w)) w in
      let w := job_done (with_status st job) queue w in
      match join_waiting w, pool w with
      | true, [] => request_stop_resume (set_join_waiting false w)
      | _, _ => w
      end
  end.

(** [gevent_pool.kill()]: every greenlet of the pool ends, oldest first. *)
Fixpoint kill_all (n : nat) (w : Worker) : Worker :=
  match n with
  | O => w
  | S n' => kill_all n' (greenlet_exit 0 None w)
  end.

(** ** _install_signal_handlers *)

Definition hub_signal (s : signum) (h : handler) (w : Worker) : Worker :=
  emit (EvSignal s h) (set_watchers (watchers w ++ [(s, h)]) w).

Definition request_force_stop (w : Worker) : outcome unit * Worker :=
  let w := emit (EvLog WARNING "Cold shut down.") w in
  let w := emit EvPoolKill w in
  let w := kill_all (List.length (pool w)) w in
  (Raise SystemExit, w).

Definition request_stop (w : Worker) : Worker :=
  if stop_requested w then w
  else
    let w := if scheduler w then emit EvStopScheduler w else w in
    let w := hub_signal SIGINT request_force_stop_h w in
    let w := hub_signal SIGTERM request_force_stop_h w in
    let w := emit (EvLog WARNING "Warm shut down requested.") w in
    let w := emit (EvLog WARNING
      "Stopping after all greenlets are finished. Press Ctrl+C again for a cold shutdown.") w in
    let w := set_stop_requested true w in
    let w := emit EvPoolJoin w in
    match pool w with
    | [] => request_stop_resume w
    | _ :: _ => set_join_waiting true w
    end.

Definition _install_signal_handlers (w : Worker) : Worker :=
  hub_signal SIGTERM request_stop_h (hub_signal SIGINT request_stop_h w).

(** ** The hub *)

(** [Hub.handle_system_error]: a [SystemExit] that escapes a greenlet is
    raised again in the main greenlet.  With [gevent_worker] unset the main
    greenlet is the one running the loop; otherwise it is parked in
    [work]'s [join] and unwinds from there, and the loop is not resumed. *)
Definition handle_system_error (e : exn) (w : Worker) : Worker :=
  if gevent_worker w then set_exiting true w
  else set_interrupt (Some e) w.

(** One watcher fires: the handler runs in a greenlet of its own. *)
Definition run_handler (h : handler) (w : Worker) : Worker :=
  match h with
  | request_stop_h => request_stop w
  | request_force_stop_h =>
      match request_force_stop w with
      | (Raise e, w') => handle_system_error e w'
      | (_, w') => w'
      end
  end.

Definition signum_eqb (a b : signum) : bool :=
  match a, b with
  | SIGINT, SIGINT | SIGTERM, SIGTERM => true
  | _, _ => false
  end.

(** A watcher fires when the signal is its own. *)
Definition fire (s : signum) (w : Worker) (sh : signum * handler) : Worker :=
  if signum_eqb s (fst sh) then run_handler (snd sh) w else w.

(** Every watcher that was registered for the signal when it arrives fires,
    in registration order. *)
Definition deliver_signal (s : signum) (w : Worker) : Worker :=
  fold_left (fire s) (watchers w) w.

Definition deliver (w : Worker) (a : async) : Worker :=
  match a with
  | Finish i st => greenlet_exit i (Some st) w
  | Signal s => deliver_signal s w
  | MaintenanceDue => set_maintenance true w
  end.

(** The loop parks in a blocking call and is resumed: the other greenlets
    have run, and the call returns or raises. *)
Definition resume (w : Worker) (t : tick)
    : outcome (option (Job * Queue)) * Worker :=
  let w1 := fold_left deliver (asyncs t) w in
  if exiting w1 then (ProcessExit, w1)
  else
    match interrupt w1 with
    | Some e => (Raise e, set_interrupt None w1)
    | None =>
        (match reply_of t with Ret r => Ok r | Exc e => Raise e end, w1)
    end.

(** ** The blocking parts of the pool *)

(** [Pool.spawn]: the greenlet is added once the pool's semaphore can be
    acquired; the caller is parked while the pool is full. *)
Fixpoint pool_spawn (job : Job) (queue : Queue) (w : Worker) (s : script)
    {struct s} : outcome unit * Worker * script :=
  if full w then
    match s with
    | [] => (Blocked, w, [])
    | t :: s' =>
        match resume w t with
        | (Ok _, w1) => pool_spawn job queue w1 s'
        | (Halt h, w1) => (Halt h, w1, s')
        end
    end
  else (Ok tt, emit (EvSpawn job queue) (set_pool (pool w ++ [(job, queue)]) w), s).

(** ** execute_job *)

Definition execute_job (job : Job) (queue : Queue) (w : Worker) (s : script)
    : outcome unit * Worker * script :=
  pool_spawn job queue w s.

(** ** dequeue_job_and_maintain_ttl *)

(** [while self.gevent_pool.full(): gevent.sleep(0.1); ...]. *)
Fixpoint wait_while_full (w : Worker) (s : script) {struct s}
    : outcome unit * Worker * script :=
  if full w then
    match s with
    | [] => (Blocked, emit EvSleep w, [])
    | t :: s' =>
        match resume (emit EvSleep w) t with
        | (Ok _, w1) =>
            if stop_requested w1 then (Raise StopRequested, w1, s')
            else wait_while_full w1 s'
        | (Halt h, w1) => (Halt h, w1, s')
        end
    end
  else (Ok tt, w, s).

(** The [while True] of [dequeue_job_and_maintain_ttl]; [Ok r] is its
    [break] with [result = r]. *)
Fixpoint dequeue_loop (fuel : nat) (timeout : option Z) (w : Worker)
    (s : script) {struct fuel}
    : outcome (option (Job * Queue)) * Worker * script :=
  match fuel with
  | O => (OutOfFuel, w, s)
  | S fuel' =>
      if stop_requested w then (Raise StopRequested, w, s)
      else
        let w := heartbeat 0 w in
        let w := if full w
                 then emit (EvLog WARNING
                        "RQ GEVENT worker greenlet pool empty current size %s")
                        (set_state WS_BUSY w)
                 else w in
        match wait_while_full w s with
        | (Ok _, w1, []) => (Blocked, emit (EvDequeueAny timeout) w1, [])
        | (Ok _, w1, t :: s2) =>
            match resume (emit (EvDequeueAny timeout) w1) t with
            | (Ok r, w2) =>
                let w3 := set_state WS_IDLE w2 in
                (Ok r,
                 match r with
                 | Some _ => emit (EvLog INFO "%s: %s (%s)") w3
                 | None => w3
                 end, s2)
            | (Raise DequeueTimeout, w2) => dequeue_loop fuel' timeout w2 s2
            | (Halt h, w2) => (Halt h, w2, s2)
            end
        | (Halt h, w1, s1) => (Halt h, w1, s1)
        end
  end.

Definition dequeue_job_and_maintain_ttl (timeout : option Z) (w : Worker)
    (s : script) : outcome (option (Job * Queue)) * Worker * script :=
  if stop_requested w then (Raise StopRequested, w, s)
  else
    match dequeue_loop (S (List.length s)) timeout w s with
    | (Ok result, w', s') => (Ok result, heartbeat 0 w', s')
    | (Halt h, w', s') => (Halt h, w', s')
    end.

(** ** _work *)

(** [timeout = None if burst else max(1, self.default_worker_ttl - 60)]. *)
Definition dequeue_timeout (burst : bool) (ttl : Z) : option Z :=
  if burst then None else Some (Z.max 1 (ttl - 60)).

(** [Worker.check_for_suspension(burst)], a blocking call of the base class. *)
Definition check_for_suspension (burst : bool) (w : Worker) (s : script)
    : outcome unit * Worker * script :=
  match s with
  | [] => (Blocked, emit (EvCheckForSuspension burst) w, [])
  | t :: s' =>
      match resume (emit (EvCheckForSuspension burst) w) t with
      | (Ok _, w1) => (Ok tt, w1, s')
      | (Halt h, w1) => (Halt h, w1, s')
      end
  end.

Definition run_maintenance_tasks (w : Worker) : Worker :=
  set_maintenance false (emit EvRunMaintenanceTasks w).

(** [try: get_hub().switch() except LoopExit: pass]. *)
Definition hub_switch (w : Worker) (s : script)
    : outcome unit * Worker * script :=
  match s with
  | [] => (Blocked, emit EvHubSwitch w, [])
  | t :: s' =>
      match resume (emit EvHubSwitch w) t with
      | (Ok _, w1) => (Ok tt, w1, s')
      | (Raise LoopExit, w1) => (Ok tt, w1, s')
      | (Halt h, w1) => (Halt h, w1, s')
      end
  end.

(** Lines 140-149: the dequeue of one iteration, with the retry of burst
    mode. *)
Definition dequeue_with_retry (burst : bool) (timeout : option Z)
    (w : Worker) (s : script)
    : outcome (option (Job * Queue)) * Worker * script :=
  match dequeue_job_and_maintain_ttl timeout w s with
  | (Ok None, w1, s1) =>
      if burst then
        let w2 := emit (EvLog INFO "RQ worker {0!r} done, quitting") w1 in
        match hub_switch w2 s1 with
        | (Ok _, w3, s3) => dequeue_job_and_maintain_ttl timeout w3 s3
        | (Halt h, w3, s3) => (Halt h, w3, s3)
        end
      else (Ok None, w1, s1)
  | r => r
  end.

(** The body of the inner [try]; [Ok None] is a [break], [Ok (Some _)] falls
    through to [execute_job]. *)
Definition iteration (burst : bool) (w : Worker) (s : script)
    : outcome (option (Job * Queue)) * Worker * script :=
  match check_for_suspension burst w s with
  | (Ok _, w1, s1) =>
      let w2 := if should_run_maintenance_tasks w1
                then run_maintenance_tasks w1 else w1 in
      if stop_requested w2
      then (Ok None, emit (EvLog INFO "Stopping on request.") w2, s1)
      else
        dequeue_with_retry burst
          (dequeue_timeout burst (default_worker_ttl w2)) w2 s1
  | (Halt h, w1, s1) => (Halt h, w1, s1)
  end.

(** [except StopRequested: break]. *)
Definition guarded_iteration (burst : bool) (w : Worker) (s : script)
    : outcome (option (Job * Queue)) * Worker * script :=
  match iteration burst w s with
  | (Raise StopRequested, w1, s1) => (Ok None, w1, s1)
  | r => r
  end.

(** The [while True] of [_work]; [Ok tt] is the loop left by a [break]. *)
Fixpoint work_loop (fuel : nat) (burst : bool) (w : Worker) (s : script)
    {struct fuel} : outcome unit * Worker * script :=
  match fuel with
  | O => (OutOfFuel, w, s)
  | S fuel' =>
      match guarded_iteration burst w s with
      | (Ok None, w1, s1) => (Ok tt, w1, s1)
      | (Ok (Some (job, queue)), w1, s1) =>
          match execute_job job queue w1 s1 with
          | (Ok _, w2, s2) => work_loop fuel' burst w2 s2
          | (Halt h, w2, s2) => (Halt h, w2, s2)
          end
      | (Halt h, w1, s1) => (Halt h, w1, s1)
      end
  end.

(** The [finally] clause. *)
Definition cleanup (w : Worker) : Worker :=
  if is_horse w then w
  else
    let w := if scheduler w then emit EvStopScheduler w else w in
    emit EvRegisterDeath w.

(** [if with_scheduler: ...]. *)
Definition start_scheduler (burst : bool)
    (logging_level date_format log_format : string) (w : Worker) : Worker :=
  let w := set_scheduler true
             (emit (EvSchedulerCreate logging_level date_format log_format) w) in
  let w := emit EvAcquireLocks w in
  if acquires_locks w then
    if burst
    then emit EvReleaseLocks (emit EvEnqueueScheduledJobs w)
    else emit EvSchedulerStart w
  else w.

(** What precedes the outer [try]. *)
Definition startup (burst : bool) (logging_level date_format log_format : string)
    (with_scheduler : bool) (w : Worker) : Worker :=
  let w := emit (EvSetupLoghandlers logging_level) w in
  let w := _install_signal_handlers w in
  let w := set_did_perform_work false w in
  let w := register_birth w in
  let w := emit (EvLog INFO
    "RQ GEVENT worker (Greenlet pool size={0}) {1!r} started, version {2}") w in
  let w := set_state WS_STARTED w in
  if with_scheduler
  then start_scheduler burst logging_level date_format log_format w
  else w.

Definition _work (burst : bool) (logging_level date_format log_format : string)
    (max_jobs : option Z) (with_scheduler : bool) (w : Worker) (s : script)
    : outcome bool * Worker * script :=
  let w := startup burst logging_level date_format log_format with_scheduler w in
  match work_loop (S (List.length s)) burst w s with
  | (Ok _, w1, s1) =>
      let w2 := cleanup w1 in (Ok (did_perform_work w2), w2, s1)
  | (Raise e, w1, s1) => (Raise e, cleanup w1, s1)
  | (Halt h, w1, s1) => (Halt h, w1, s1)
  end.

(** ** work *)

(** The value of [work]: a bool from [_work], or the [value] of a greenlet
    that died, which is [None].  An exception of the hub's [SYSTEM_ERROR]
    (KeyboardInterrupt, SystemExit, SystemError) that kills the loop greenlet
    is raised again in the main greenlet, which is parked in [join]. *)
Definition work (burst : bool) (logging_level date_format log_format : string)
    (max_jobs : option Z) (with_scheduler : bool) (w : Worker) (s : script)
    : outcome (option bool) * Worker * script :=
  if burst then
    match _work burst logging_level DEFAULT_LOGGING_DATE_FORMAT
            DEFAULT_LOGGING_FORMAT None with_scheduler w s with
    | (Ok b, w1, s1) => (Ok (Some b), w1, s1)
    | (Halt h, w1, s1) => (Halt h, w1, s1)
    end
  else
    let w := set_gevent_worker true w in
    match _work burst "INFO" DEFAULT_LOGGING_DATE_FORMAT
            DEFAULT_LOGGING_FORMAT None with_scheduler w s with
    | (Ok b, w1, s1) => (Ok (Some b), w1, s1)
    | (Raise SystemExit, w1, s1) => (Raise SystemExit, w1, s1)
    | (Raise KeyboardInterrupt, w1, s1) => (Raise KeyboardInterrupt, w1, s1)
    | (Raise SystemError, w1, s1) => (Raise SystemError, w1, s1)
    | (Raise _, w1, s1) => (Ok None, w1, s1)
    | (ProcessExit, w1, s1) => (Raise SystemExit, w1, s1)
    | (Halt h, w1, s1) => (Halt h, w1, s1)
    end.

(** * Primitive transitions

    Every method above is a composition of a few primitive changes of the
    worker.  [inner] collects those made by the greenlets that run while the
    loop is parked and by the calls of the loop that admit and dequeue
    nothing; [step] adds the admission of a job and the call of
    [dequeue_any].  Invariants are established once on these relations. *)

Definition WARM_MSG := "Warm shut down requested.".

Definition WARM_MSG2 :=
  "Stopping after all greenlets are finished. Press Ctrl+C again for a cold shutdown.".

(** Events that neither admit, complete nor dequeue a job, nor mark the warm
    shutdown or the deregistration. *)
Definition noise (e : Event) : bool :=
  match e with
  | EvSpawn _ _ | EvJobDone _ | EvDequeueAny _ | EvRegisterDeath
  | EvEnqueueDependents _ _ => false
  | EvLog WARNING m => negb (String.eqb m WARM_MSG)
  | _ => true
  end.

(** A change of the control fields only: the fields that the loop, a
    completion or the warm handler write are the same in both states,
    watchers are only added and [exiting] is never taken back. *)
Record same_core (w w' : Worker) : Prop := {
  sc_size : pool_size w' = pool_size w;
  sc_pool : pool w' = pool w;
  sc_gw : gevent_worker w' = gevent_worker w;
  sc_stop : stop_requested w' = stop_requested w;
  sc_did : did_perform_work w' = did_perform_work w;
  sc_sched : scheduler w' = scheduler w;
  sc_horse : is_horse w' = is_horse w;
  sc_ttl : default_worker_ttl w' = default_worker_ttl w;
  sc_locks : acquires_locks w' = acquires_locks w;
  sc_trace : trace w' = trace w;
  sc_exiting : exiting w = true -> exiting w' = true;
  sc_watchers : incl (watchers w) (watchers w')
}.

Inductive inner : Worker -> Worker -> Prop :=
| inner_noise w e :
    noise e = true -> inner w (emit e w)
| inner_ctl w w' :
    same_core w w' -> inner w w'
| inner_exit w i st job queue :
    nth_error (pool w) i = Some (job, queue) ->
    inner w (job_done (with_status st job) queue
               (set_pool (remove_nth i (pool w)) w))
| inner_warm w :
    stop_requested w = false ->
    inner w (set_stop_requested true
               (emit (EvLog WARNING WARM_MSG2) (emit (EvLog WARNING WARM_MSG) w))).

(** Looking for a job: [dequeue_any] is only called while no stop has been
    requested. *)
Inductive search : Worker -> Worker -> Prop :=
| search_inner w w' : inner w w' -> search w w'
| search_dequeue w timeout :
    stop_requested w = false ->
    search w (emit (EvDequeueAny timeout) w).

Inductive step : Worker -> Worker -> Prop :=
| step_search w w' : search w w' -> step w w'
| step_spawn w job queue :
    full w = false ->
    step w (emit (EvSpawn job queue) (set_pool (pool w ++ [(job, queue)]) w)).

(** Paths of transitions. *)
Inductive star (R : Worker -> Worker -> Prop) : Worker -> Worker -> Prop :=
| star_refl w : star R w w
| star_cons w1 w2 w3 : R w1 w2 -> star R w2 w3 -> star R w1 w3.

Arguments star_refl {R} w.

Arguments star_cons {R} w1 w2 w3.

(** * Invariants of the primitive transitions *)

(** ** Executions in flight, read off the trace *)

Definition delta (e : Event) : Z :=
  match e with
  | EvSpawn _ _ => 1
  | EvJobDone _ => -1
  | _ => 0
  end.

(** Admissions minus completions so far. *)
Fixpoint in_flight (tr : list Event) : Z :=
  match tr with
  | [] => 0
  | e :: tr' => in_flight tr' + delta e
  end.

(** At every moment of the history the executions in flight are at most
    [C]: the trace is newest first, so its suffixes are the past. *)
Fixpoint bounded (C : Z) (tr : list Event) : Prop :=
  match tr with
  | [] => True
  | e :: tr' => in_flight (e :: tr') <= C /\ bounded C tr'
  end.

(** The pool agrees with the trace and, when it has a capacity, respects
    it now and at every earlier moment. *)
Record pool_inv (cap : option Z) (w : Worker) : Prop := {
  inv_size : pool_size w = cap;
  inv_count : pool_len w = in_flight (trace w);
  inv_cap : forall C, cap = Some C ->
            pool_len w <= C /\ bounded C (trace w)
}.

(** ** What no transition changes *)

Record frame (w w' : Worker) : Prop := {
  fr_size : pool_size w' = pool_size w;
  fr_horse : is_horse w' = is_horse w;
  fr_ttl : default_worker_ttl w' = default_worker_ttl w;
  fr_locks : acquires_locks w' = acquires_locks w;
  fr_gw : gevent_worker w' = gevent_worker w;
  fr_stop : stop_requested w = true -> stop_requested w' = true;
  fr_exiting : exiting w = true -> exiting w' = true;
  fr_watchers : incl (watchers w) (watchers w')
}.

(** ** How the trace grows *)

Definition grows (P : Event -> bool) (w w' : Worker) : Prop :=
  exists d, trace w' = d ++ trace w /\ forallb P d = true.

(** What the other greenlets and the quiet calls of the loop may emit. *)
Definition inner_event (e : Event) : bool :=
  match e with
  | EvSpawn _ _ | EvDequeueAny _ | EvRegisterDeath => false
  | _ => true
  end.

Definition not_register_death (e : Event) : bool :=
  match e with
  | EvRegisterDeath => false
  | _ => true
  end.

(** [startup] also resets [did_perform_work] and may install a scheduler. *)
Inductive boot : Worker -> Worker -> Prop :=
| boot_inner w w' : inner w w' -> boot w w'
| boot_did w b : boot w (set_did_perform_work b w)
| boot_scheduler w b : boot w (set_scheduler b w).

Definition is_job_done (e : Event) : bool :=
  match e with
  | EvJobDone _ => true
  | _ => false
  end.

Definition is_ret (r : reply) : bool :=
  match r with
  | Ret _ => true
  | Exc _ => false
  end.

(** Ticks during which nothing happens in the other greenlets. *)
Definition idle (t : tick) : Prop := asyncs t = [] /\ is_ret (reply_of t) = true.

(** * Heartbeats around the dequeue attempts *)

(** A heartbeat is more recent than any call of [dequeue_any]. *)
Fixpoint fresh (tr : list Event) : bool :=
  match tr with
  | [] => false
  | EvHeartbeat _ :: _ => true
  | EvDequeueAny _ :: _ => false
  | _ :: tr' => fresh tr'
  end.

(** Every call of [dequeue_any] in the history was made with timeout [t],
    and a heartbeat separates it from the call before it. *)
Fixpoint attempts_ok (t : option Z) (tr : list Event) : Prop :=
  match tr with
  | [] => True
  | EvDequeueAny t' :: tr' => t' = t /\ fresh tr' = true /\ attempts_ok t tr'
  | _ :: tr' => attempts_ok t tr'
  end.

Definition not_dequeue (e : Event) : bool :=
  match e with
  | EvDequeueAny _ => false
  | _ => true
  end.

(** * The dequeue timeout *)

(** The timeout rule as the specification words it: null in continuous
    mode, bounded in batch mode. *)
Definition spec_dequeue_timeout (burst : bool) (ttl : Z) : option Z :=
  if burst then Some (Z.max 1 (ttl - 60)) else None.

(** * The completion callback *)

Definition count (p : Event -> bool) (tr : list Event) : nat :=
  List.length (filter p tr).

Definition is_enqueue (e : Event) : bool :=
  match e with
  | EvEnqueueDependents _ _ => true
  | _ => false
  end.

Definition is_spawn (e : Event) : bool :=
  match e with
  | EvSpawn _ _ => true
  | _ => false
  end.

Definition finished (st : JobStatus) : bool :=
  match st with
  | FINISHED => true
  | _ => false
  end.

(** What [job_done] emits, newest first. *)
Definition job_done_events (job : Job) (queue : Queue) (n : Z) : list Event :=
  (if finished (job_status job) then [EvEnqueueDependents queue job] else [])
  ++ [EvHsetCurrPoolLen n; EvHeartbeat 0; EvJobDone job].

Definition finished_jobs (p : list (Job * Queue)) : nat :=
  List.length (filter (fun jq => finished (job_status (fst jq))) p).

(** What the cold handler emits: the kill and the callbacks of the
    cancelled executions. *)
Definition cancel_event (e : Event) : bool :=
  match e with
  | EvLog WARNING m => String.eqb m "Cold shut down."
  | EvPoolKill | EvJobDone _ | EvHeartbeat _ | EvHsetCurrPoolLen _
  | EvEnqueueDependents _ _ | EvKillWorker => true
  | _ => false
  end.

(** The loop is told of the exit: the process goes down in continuous
    mode, [SystemExit] is raised in the loop in burst mode. *)
Definition exit_pending (w : Worker) : Prop :=
  (gevent_worker w = true -> exiting w = true) /\
  (gevent_worker w = false -> interrupt w = Some SystemExit).

(** ** A cold shutdown in burst mode *)

Definition job_a : Job := mkJob "a" "send_report()" QUEUED.

Definition queue_default : Queue := mkQueue "default".

Definition quiet_tick (r : option (Job * Queue)) : tick := mkTick [] (Ret r).

(** One job is running; the queue is empty; while the loop is parked in the
    hub the operator interrupts twice. *)
Definition burst_interrupted_twice : script :=
  [ quiet_tick None;                          (* check_for_suspension *)
    quiet_tick (Some (job_a, queue_default)); (* dequeue_any: a job *)
    quiet_tick None;                          (* check_for_suspension *)
    quiet_tick None;                          (* dequeue_any: empty *)
    mkTick [Signal SIGINT; Signal SIGINT] (Ret None)  (* get_hub().switch() *)
  ].

Definition default_worker : Worker :=
  mkWorker (Some 20) [] false false false false false 420 false false
    [] false None false [].

Definition burst_cold_run : outcome (option bool) * Worker * script :=
  work true "INFO" DEFAULT_LOGGING_DATE_FORMAT DEFAULT_LOGGING_FORMAT None
    false default_worker burst_interrupted_twice.

(** * Warm shutdown and admission *)

Definition is_dequeue (e : Event) : bool :=
  match e with
  | EvDequeueAny _ => true
  | _ => false
  end.

(** The log line that the warm handler writes as it sets the flag. *)
Definition is_warm (e : Event) : bool :=
  match e with
  | EvLog WARNING m => String.eqb m WARM_MSG
  | _ => false
  end.

(** The events selected by [p] since the warm shutdown was requested; [None]
    when it was not. *)
Fixpoint since_warm (p : Event -> bool) (tr : list Event) : option nat :=
  match tr with
  | [] => None
  | e :: tr' =>
      if is_warm e then Some O
      else if p e then option_map S (since_warm p tr')
      else since_warm p tr'
  end.

(** Once the flag is set the history shows the request, no call of
    [dequeue_any] after it and at most [n] admissions after it. *)
Definition after_warm (n : nat) (w : Worker) : Prop :=
  if stop_requested w
  then since_warm is_dequeue (trace w) = Some O /\
       exists m, since_warm is_spawn (trace w) = Some m /\ (m <= n)%nat
  else since_warm is_dequeue (trace w) = None /\
       since_warm is_spawn (trace w) = None.

(** Events that are neither the request, an admission nor a dequeue. *)
Definition plain (e : Event) : bool :=
  negb (is_warm e || is_spawn e || is_dequeue e).

(** * What each part of the loop may emit *)

(** Events of the other greenlets: completions and signal handlers. *)
Definition bg_event (e : Event) : bool :=
  match e with
  | EvJobDone _ | EvHeartbeat _ | EvHsetCurrPoolLen _
  | EvEnqueueDependents _ _ | EvKillWorker | EvPoolKill | EvPoolJoin
  | EvStopScheduler | EvSignal _ _ | EvLog WARNING _ => true
  | _ => false
  end.

(** Events of [dequeue_job_and_maintain_ttl], its own and those of the
    greenlets that run while it is parked. *)
Definition dq_event (e : Event) : bool :=
  bg_event e ||
  match e with
  | EvSleep | EvDequeueAny _ | EvSetState _ | EvLog INFO _ => true
  | _ => false
  end.

(** * The retry of burst mode *)

Definition is_switch (e : Event) : bool :=
  match e with
  | EvHubSwitch => true
  | _ => false
  end.

(** * Heartbeats *)

Definition is_heartbeat (e : Event) : bool :=
  match e with
  | EvHeartbeat _ => true
  | _ => false
  end.

(** Every call of [dequeue_any] in the history has a heartbeat between it
    and the call before it. *)
Fixpoint heartbeat_before_each_dequeue (tr : list Event) : Prop :=
  match tr with
  | [] => True
  | EvDequeueAny _ :: tr' => fresh tr' = true /\ heartbeat_before_each_dequeue tr'
  | _ :: tr' => heartbeat_before_each_dequeue tr'
  end.

(** Polls of the full pool, of a tenth of a second each, since the last
    heartbeat. *)
Fixpoint sleeps_since_heartbeat (tr : list Event) : nat :=
  match tr with
  | [] => O
  | EvHeartbeat _ :: _ => O
  | EvSleep :: tr' => S (sleeps_since_heartbeat tr')
  | _ :: tr' => sleeps_since_heartbeat tr'
  end.

(** ** A worker whose pool stays full *)

(** TTL 61 seconds, capacity 1, continuous mode: the dequeue timeout is one
    second.  One job is admitted and keeps running while the loop polls the
    full pool twelve times. *)
Definition small_worker : Worker :=
  mkWorker (Some 1) [] false false false false false 61 false false
    [] false None false [].

Definition pool_stays_full : script :=
  [ quiet_tick None;                          (* check_for_suspension *)
    quiet_tick (Some (job_a, queue_default)); (* dequeue_any: a job *)
    quiet_tick None                           (* check_for_suspension *)
  ] ++ repeat (quiet_tick None) 12.           (* gevent.sleep(0.1), 12 times *)

Definition full_pool_run : outcome (option bool) * Worker * script :=
  work false "INFO" DEFAULT_LOGGING_DATE_FORMAT DEFAULT_LOGGING_FORMAT None
    false small_worker pool_stays_full.

(** * The exits of the work loop *)

(** [did_perform_work] is raised by completion callbacks and by nothing
    else. *)
Definition did_rel (w w' : Worker) : Prop :=
  exists d, trace w' = d ++ trace w /\
            did_perform_work w' = did_perform_work w || existsb is_job_done d.

Definition not_done (e : Event) : bool := negb (is_job_done e).

(** ** A burst run on an empty queue *)

(** Nothing is pending for the loop: no exit, no exception, no stop, a free
    slot, and no work done yet. *)
Record calm (w : Worker) : Prop := {
  calm_exiting : exiting w = false;
  calm_interrupt : interrupt w = None;
  calm_stop : stop_requested w = false;
  calm_full : full w = false;
  calm_did : did_perform_work w = false
}.

Definition option_Z_eqb (a b : option Z) : bool :=
  match a, b with
  | Some x, Some y => x =? y
  | None, None => true
  | _, _ => false
  end.

Definition is_dequeue_with (t : option Z) (e : Event) : bool :=
  match e with
  | EvDequeueAny t' => option_Z_eqb t' t
  | _ => false
  end.

(** A worker with its handlers installed and one job running. *)
Definition busy_worker : Worker :=
  set_pool [(job_a, queue_default)] (_install_signal_handlers default_worker).

(** The same worker after a first termination signal. *)
Definition warm_worker : Worker := deliver busy_worker (Signal SIGINT).

Definition empty_queue : script :=
  [quiet_tick None; quiet_tick None; mkTick [] (Exc LoopExit); quiet_tick None].

Definition first_attempt :=
  dequeue_job_and_maintain_ttl None default_worker (tl empty_queue).

Definition with_retry :=
  dequeue_with_retry true None default_worker (tl empty_queue).

Definition lone_attempt :=
  dequeue_job_and_maintain_ttl None default_worker [quiet_tick None].

(** * The command line entry point: main *)

(** What [main] does to the outside. *)
Inductive cli_event :=
| CliPrint (msg : string)            (* print(msg) *)
| CliRqMain (argv : list string).    (* rq_main(), reading this sys.argv *)

Inductive cli_result :=
| CliExit (code : Z)                 (* sys.exit(code) *)
| CliReturn.                         (* rq_main() was entered *)

Definition WORKER_CLASS_MSG :=
  "You cannot specify worker class when using this script,use the official rqworker instead".

(** [x in sys.argv]. *)
Definition argv_has (x : string) (argv : list string) : bool :=
  existsb (String.eqb x) argv.

(** [main], on [sys.argv]: the result, the [sys.argv] it leaves and what it
    did. *)
Definition main (argv : list string)
    : cli_result * list string * list cli_event :=
  if argv_has "-w" argv || argv_has "--worker-class" argv
  then (CliExit 1, argv, [CliPrint WORKER_CLASS_MSG])
  else
    let argv' := argv ++ ["-w"; "rq_gevent_worker.GeventWorker"] in
    (CliReturn, argv', [CliRqMain argv']).

(** * The primitive transitions, with what enables them

    A finer reading of the transitions of the loop and of the greenlets that
    run while it is parked: each one carries the condition under which the
    code makes it. *)

(** Events that are emitted without a condition on the worker. *)
Definition loop_free (e : Event) : bool :=
  match e with
  | EvLog INFO _ | EvPoolJoin | EvPoolKill | EvSetState WS_IDLE
  | EvCheckForSuspension _ | EvRunMaintenanceTasks | EvHubSwitch => true
  | EvLog WARNING m => negb (String.eqb m WARM_MSG)
  | EvHeartbeat t => t =? 0
  | _ => false
  end.

(** The body of [request_stop] up to the change of the flag, after the
    scheduler has been dealt with. *)
Definition arm_and_announce (w : Worker) : Worker :=
  set_stop_requested true
    (emit (EvLog WARNING WARM_MSG2)
       (emit (EvLog WARNING WARM_MSG)
          (hub_signal SIGTERM request_force_stop_h
             (hub_signal SIGINT request_force_stop_h w)))).

Inductive prim : Worker -> Worker -> Prop :=
| prim_event w e :
    loop_free e = true -> prim w (emit e w)
| prim_hset w :
    prim w (emit (EvHsetCurrPoolLen (pool_len w)) w)
| prim_stop_scheduler w :
    scheduler w = true -> stop_requested w = false ->
    prim w (emit EvStopScheduler w)
| prim_kill_worker w :
    gevent_worker w = true -> pool w = [] ->
    prim w (emit EvKillWorker w)
| prim_sleep w :
    full w = true -> prim w (emit EvSleep w)
| prim_busy w :
    full w = true -> prim w (emit (EvSetState WS_BUSY) w)
| prim_dequeue w timeout :
    full w = false -> stop_requested w = false ->
    prim w (emit (EvDequeueAny timeout) w)
| prim_spawn w job queue :
    full w = false ->
    prim w (emit (EvSpawn job queue) (set_pool (pool w ++ [(job, queue)]) w))
| prim_exit w i st job queue :
    nth_error (pool w) i = Some (job, queue) ->
    prim w (job_done (with_status st job) queue
              (set_pool (remove_nth i (pool w)) w))
| prim_warm w :
    stop_requested w = false -> prim w (arm_and_announce w)
| prim_ctl w w' :
    same_core w w' -> prim w w'.

(** ** What the history shows at each event *)

(** [ok tr' e] holds of every event [e] of the history, [tr'] being the
    history before it. *)
Fixpoint always (ok : list Event -> Event -> Prop) (tr : list Event) : Prop :=
  match tr with
  | [] => True
  | e :: tr' => ok tr' e /\ always ok tr'
  end.

(** [n] executions in flight leave a slot free in a pool of capacity
    [cap]. *)
Definition has_room (cap : option Z) (n : Z) : Prop :=
  match cap with
  | Some C => 0 <= n < C
  | None => 0 <= n
  end.

(** [n] executions in flight fill a pool of capacity [cap]. *)
Definition at_capacity (cap : option Z) (n : Z) : Prop :=
  match cap with
  | Some C => n = C
  | None => False
  end.

(** [n] executions in flight fit a pool of capacity [cap]. *)
Definition within (cap : option Z) (n : Z) : Prop :=
  match cap with
  | Some C => n <= C
  | None => True
  end.

(** The discipline of the loop, event by event: a job is dequeued or
    admitted only with a free slot, the loop polls and reports BUSY only with
    a full pool, the load reported is the number of executions in flight, the
    loop greenlet is killed only once the pool has drained, and dependents
    are enqueued only for a job that reads FINISHED. *)
Definition disciplined (cap : option Z) (tr' : list Event) (e : Event) : Prop :=
  match e with
  | EvDequeueAny _ | EvSpawn _ _ => has_room cap (in_flight tr')
  | EvSleep | EvSetState WS_BUSY => at_capacity cap (in_flight tr')
  | EvHsetCurrPoolLen n => n = in_flight tr' /\ 0 <= n /\ within cap n
  | EvKillWorker => in_flight tr' = 0
  | EvEnqueueDependents _ job => job_status job = FINISHED
  | _ => True
  end.

(** Events on which [disciplined] asks nothing and that leave the count of
    executions in flight alone. *)
Definition inert (e : Event) : bool :=
  match e with
  | EvDequeueAny _ | EvSpawn _ _ | EvSleep | EvSetState WS_BUSY
  | EvHsetCurrPoolLen _ | EvKillWorker | EvEnqueueDependents _ _
  | EvJobDone _ => false
  | _ => true
  end.

Record orderly (cap : option Z) (w : Worker) : Prop := {
  ord_inv : pool_inv cap w;
  ord_history : always (disciplined cap) (trace w)
}.

(** ** The shape of a run *)

(** What [if with_scheduler: ...] emits, newest first. *)
Definition scheduler_events (burst : bool) (ll df lf : string) (locks : bool)
    : list Event :=
  (if locks
   then if burst then [EvReleaseLocks; EvEnqueueScheduledJobs]
        else [EvSchedulerStart]
   else [])
  ++ [EvAcquireLocks; EvSchedulerCreate ll df lf].

(** What [_work] emits before its outer [try], newest first. *)
Definition startup_events (burst : bool) (ll df lf : string)
    (ws locks : bool) (size : option Z) : list Event :=
  (if ws then scheduler_events burst ll df lf locks else [])
  ++ [EvSetState WS_STARTED;
      EvLog INFO
        "RQ GEVENT worker (Greenlet pool size={0}) {1!r} started, version {2}";
      EvHsetPoolSize size;
      EvRegisterBirth;
      EvSignal SIGTERM request_stop_h;
      EvSignal SIGINT request_stop_h;
      EvSetupLoghandlers ll].

(** What the [finally] clause emits, newest first. *)
Definition cleanup_events (horse sched : bool) : list Event :=
  if horse then []
  else EvRegisterDeath :: (if sched then [EvStopScheduler] else []).

(** What the loop and the greenlets that run beside it may emit: nothing of
    the startup sequence and no deregistration. *)
Definition loop_event (e : Event) : bool :=
  match e with
  | EvSetupLoghandlers _ | EvSignal _ request_stop_h | EvRegisterBirth
  | EvRegisterDeath | EvHsetPoolSize _ | EvSetState WS_STARTED
  | EvSchedulerCreate _ _ _ | EvAcquireLocks | EvEnqueueScheduledJobs
  | EvReleaseLocks | EvSchedulerStart => false
  | _ => true
  end.

(** The logging level that reaches [_work]: [work] forwards it in burst mode
    only. *)
Definition effective_level (burst : bool) (ll : string) : string :=
  if burst then ll else "INFO".

(** The worker on which [_work] runs. *)
Definition entry (burst : bool) (w : Worker) : Worker :=
  if burst then w else set_gevent_worker true w.

Definition is_kill_worker (e : Event) : bool :=
  match e with
  | EvKillWorker => true
  | _ => false
  end.

Definition is_cold_registration (e : Event) : bool :=
  match e with
  | EvSignal _ request_force_stop_h => true
  | _ => false
  end.

Definition is_register_birth (e : Event) : bool :=
  match e with
  | EvRegisterBirth => true
  | _ => false
  end.

Definition is_register_death (e : Event) : bool :=
  match e with
  | EvRegisterDeath => true
  | _ => false
  end.

Definition is_publish_size (e : Event) : bool :=
  match e with
  | EvHsetPoolSize _ => true
  | _ => false
  end.

(** Calls on the scheduler. *)
Definition is_scheduler_call (e : Event) : bool :=
  match e with
  | EvSchedulerCreate _ _ _ | EvAcquireLocks | EvEnqueueScheduledJobs
  | EvReleaseLocks | EvSchedulerStart | EvStopScheduler => true
  | _ => false
  end.

Definition is_enqueue_scheduled (e : Event) : bool :=
  match e with
  | EvEnqueueScheduledJobs => true
  | _ => false
  end.

Definition is_release_locks (e : Event) : bool :=
  match e with
  | EvReleaseLocks => true
  | _ => false
  end.

Definition is_scheduler_start (e : Event) : bool :=
  match e with
  | EvSchedulerStart => true
  | _ => false
  end.

(** What a transition of the loop leaves alone. *)
Record steady (w w' : Worker) : Prop := {
  st_sched : scheduler w' = scheduler w;
  st_gw : gevent_worker w' = gevent_worker w;
  st_horse : is_horse w' = is_horse w;
  st_locks : acquires_locks w' = acquires_locks w;
  st_size : pool_size w' = pool_size w;
  st_ttl : default_worker_ttl w' = default_worker_ttl w
}.

(** ** Further runs *)

(** A worker that acquires the scheduler locks. *)
Definition scheduling_worker : Worker :=
  mkWorker (Some 20) [] false false false false false 420 false true
    [] false None false [].

(** The queue is empty; a termination signal arrives while the loop waits
    in [dequeue_any]. *)
Definition warm_idle : script :=
  [ quiet_tick None;                          (* check_for_suspension *)
    mkTick [Signal SIGTERM] (Ret None)        (* dequeue_any *)
  ].

Definition continuous_warm_run : outcome (option bool) * Worker * script :=
  work false "DEBUG" "%F" "%(message)s" None true scheduling_worker warm_idle.

(** A pool without a slot. *)
Definition no_slot_worker : Worker :=
  mkWorker (Some 0) [] false false false false false 420 false false
    [] false None false [].

Definition no_slot_script : script :=
  [ quiet_tick None;                          (* check_for_suspension *)
    quiet_tick None;                          (* gevent.sleep(0.1) *)
    quiet_tick None;                          (* gevent.sleep(0.1) *)
    mkTick [Signal SIGINT] (Ret None)         (* gevent.sleep(0.1) *)
  ].

Definition no_slot_run : outcome (option bool) * Worker * script :=
  work true "INFO" DEFAULT_LOGGING_DATE_FORMAT DEFAULT_LOGGING_FORMAT None
    false no_slot_worker no_slot_script.

(** A burst run with a scheduler on an empty queue. *)
Definition burst_scheduled_run : outcome (option bool) * Worker * script :=
  work true "DEBUG" "%F" "%(message)s" None true scheduling_worker
    (repeat (quiet_tick None) 4).




(** When [e] is a call of [dequeue_any] or an admission, the history [tr']
    before it shows the registration of the worker and no deregistration. *)
Definition registered (size : option Z) (tr' : list Event) (e : Event)
    : Prop :=
  is_dequeue e = true \/ is_spawn e = true ->
  In EvRegisterBirth tr' /\ In (EvHsetPoolSize size) tr' /\
  In (EvSetState WS_STARTED) tr' /\ ~ In EvRegisterDeath tr'.

(** ** Runs of a late admission and of a pool without a slot *)

Definition job_b : Job := mkJob "b" "send_invoice()" QUEUED.

(** The warm shutdown is requested while the loop waits in [dequeue_any],
    and the call returns a job. *)
Definition warm_during_dequeue : script :=
  [ quiet_tick None;                                    (* check_for_suspension *)
    mkTick [Signal SIGINT]
      (Ret (Some (job_a, queue_default)));              (* dequeue_any *)
    quiet_tick None                                     (* check_for_suspension *)
  ].

Definition late_admission_run : outcome (option bool) * Worker * script :=
  work true "INFO" DEFAULT_LOGGING_DATE_FORMAT DEFAULT_LOGGING_FORMAT None
    false default_worker warm_during_dequeue.

Definition is_sleep (e : Event) : bool :=
  match e with
  | EvSleep => true
  | _ => false
  end.

(** A burst run on an empty queue with a pool that has no slot: nothing
    happens in the other greenlets for two hundred blocking calls. *)
Definition no_slot_idle_run : outcome (option bool) * Worker * script :=
  work true "INFO" DEFAULT_LOGGING_DATE_FORMAT DEFAULT_LOGGING_FORMAT None
    false no_slot_worker (repeat (quiet_tick None) 200).

(** * Proofs *)

Lemma star_one {R : Worker -> Worker -> Prop} w w' : R w w' -> star R w w'.
Proof. intro H. eapply star_cons; [exact H | apply star_refl]. Qed.

Lemma star_trans {R : Worker -> Worker -> Prop} w1 w2 w3 :
  star R w1 w2 -> star R w2 w3 -> star R w1 w3.
Proof.
  induction 1 as [|a b c Hab Hbc IH]; intro H3; [exact H3|].
  eapply star_cons; [exact Hab | exact (IH H3)].
Qed.

Lemma star_snoc {R : Worker -> Worker -> Prop} w1 w2 w3 :
  star R w1 w2 -> R w2 w3 -> star R w1 w3.
Proof. intros H H'. eapply star_trans; [exact H | apply star_one, H']. Qed.

(** A state predicate kept by every transition is kept along a path. *)
Lemma star_invariant (R : Worker -> Worker -> Prop) (I : Worker -> Prop) :
  (forall a b, R a b -> I a -> I b) ->
  forall a b, star R a b -> I a -> I b.
Proof. intros HI a b H. induction H; eauto. Qed.

(** A preorder that contains the transitions contains the paths. *)
Lemma star_preorder (R Q : Worker -> Worker -> Prop) :
  (forall a, Q a a) ->
  (forall a b c, Q a b -> Q b c -> Q a c) ->
  (forall a b, R a b -> Q a b) ->
  forall a b, star R a b -> Q a b.
Proof. intros Hr Ht Hs a b H. induction H; eauto. Qed.

Lemma star_incl (R R' : Worker -> Worker -> Prop) :
  (forall a b, R a b -> R' a b) -> forall a b, star R a b -> star R' a b.
Proof.
  intros HR a b H. induction H; [apply star_refl|].
  eapply star_cons; eauto.
Qed.

Lemma inner_search a b : star inner a b -> star search a b.
Proof. apply star_incl. intros; now apply search_inner. Qed.

Lemma search_steps a b : star search a b -> star step a b.
Proof. apply star_incl. intros; now apply step_search. Qed.

Lemma inner_steps a b : star inner a b -> star step a b.
Proof. intro H. now apply search_steps, inner_search. Qed.

Lemma same_core_refl w : same_core w w.
Proof. constructor; auto using incl_refl. Qed.

(** Peel the last primitive change off the target state. *)
Ltac peel :=
  match goal with
  | |- star inner _ (emit _ ?x) =>
      apply (star_snoc _ x); [| apply inner_noise; reflexivity]
  | |- star inner _ (set_watchers _ ?x) =>
      apply (star_snoc _ x);
        [| apply inner_ctl; constructor; cbn [watchers set_watchers exiting set_exiting];
           auto using incl_refl, incl_appl]
  | |- star inner _ (set_join_waiting _ ?x) =>
      apply (star_snoc _ x);
        [| apply inner_ctl; constructor; cbn [watchers set_watchers exiting set_exiting];
           auto using incl_refl, incl_appl]
  | |- star inner _ (set_interrupt _ ?x) =>
      apply (star_snoc _ x);
        [| apply inner_ctl; constructor; cbn [watchers set_watchers exiting set_exiting];
           auto using incl_refl, incl_appl]
  | |- star inner _ (set_exiting _ ?x) =>
      apply (star_snoc _ x);
        [| apply inner_ctl; constructor; cbn [watchers set_watchers exiting set_exiting];
           auto using incl_refl, incl_appl]
  | |- star inner _ (set_maintenance _ ?x) =>
      apply (star_snoc _ x);
        [| apply inner_ctl; constructor; cbn [watchers set_watchers exiting set_exiting];
           auto using incl_refl, incl_appl]
  end.

Ltac peels := repeat peel; try apply star_refl.

(** ** The methods are paths of primitive transitions *)

Lemma heartbeat_inner t w : star inner w (heartbeat t w).
Proof. unfold heartbeat. peels. Qed.

Lemma throw_inner e w : star inner w (throw e w).
Proof. unfold throw. destruct (interrupt w); peels. Qed.

Lemma request_stop_resume_inner w : star inner w (request_stop_resume w).
Proof.
  unfold request_stop_resume. destruct (gevent_worker w); [|apply star_refl].
  eapply star_trans; [|apply throw_inner]. peels.
Qed.

Lemma greenlet_exit_inner i st w : star inner w (greenlet_exit i st w).
Proof.
  unfold greenlet_exit.
  destruct (nth_error (pool w) i) as [[job queue]|] eqn:E; [|apply star_refl].
  eapply star_cons; [eapply inner_exit with (st := st); exact E|].
  set (w1 := job_done _ _ _).
  destruct (join_waiting w1); [|apply star_refl].
  destruct (pool w1); [|apply star_refl].
  eapply star_trans; [|apply request_stop_resume_inner]. peels.
Qed.

Lemma kill_all_inner n : forall w, star inner w (kill_all n w).
Proof.
  induction n as [|n IH]; intro w; simpl; [apply star_refl|].
  eapply star_trans; [apply greenlet_exit_inner | apply IH].
Qed.

Lemma hub_signal_inner s h w : star inner w (hub_signal s h w).
Proof. unfold hub_signal. peels. Qed.

Lemma request_stop_inner w : star inner w (request_stop w).
Proof.
  unfold request_stop. destruct (stop_requested w) eqn:E; [apply star_refl|].
  set (w1 := if scheduler w then emit EvStopScheduler w else w).
  assert (H1 : star inner w w1)
    by (subst w1; destruct (scheduler w); peels).
  assert (E1 : stop_requested w1 = false)
    by (subst w1; destruct (scheduler w); exact E).
  set (w2 := hub_signal SIGTERM _ (hub_signal SIGINT _ w1)).
  assert (H2 : star inner w w2).
  { eapply star_trans; [exact H1|]. subst w2.
    eapply star_trans; apply hub_signal_inner. }
  assert (H3 : star inner w
                 (emit EvPoolJoin (set_stop_requested true
                    (emit (EvLog WARNING WARM_MSG2)
                       (emit (EvLog WARNING WARM_MSG) w2))))).
  { peel. eapply star_snoc; [exact H2|]. apply inner_warm. exact E1. }
  match goal with |- star _ _ (match pool ?x with _ => _ end) =>
    destruct (pool x) end.
  - eapply star_trans; [exact H3 | apply request_stop_resume_inner].
  - peel. exact H3.
Qed.

Lemma request_force_stop_inner w : star inner w (snd (request_force_stop w)).
Proof.
  unfold request_force_stop; simpl.
  eapply star_trans; [|apply kill_all_inner]. peels.
Qed.

Lemma run_handler_inner h w : star inner w (run_handler h w).
Proof.
  destruct h; simpl; [apply request_stop_inner|].
  pose proof (request_force_stop_inner w) as H.
  unfold request_force_stop in *; simpl in *.
  unfold handle_system_error.
  match goal with |- star _ _ (if ?c then _ else _) => destruct c end;
    peel; exact H.
Qed.

Lemma fold_left_star {A : Type} (R : Worker -> Worker -> Prop)
    (f : Worker -> A -> Worker) (l : list A) :
  (forall w a, star R w (f w a)) ->
  forall w, star R w (fold_left f l w).
Proof.
  intro Hf. induction l as [|a l IH]; intro w; simpl; [apply star_refl|].
  eapply star_trans; [apply Hf | apply IH].
Qed.

Lemma deliver_signal_inner s w : star inner w (deliver_signal s w).
Proof.
  unfold deliver_signal. apply fold_left_star.
  intros w' [s' h]; unfold fire; simpl.
  destruct (signum_eqb s s'); [apply run_handler_inner | apply star_refl].
Qed.

Lemma deliver_inner w a : star inner w (deliver w a).
Proof.
  destruct a; simpl.
  - apply greenlet_exit_inner.
  - apply deliver_signal_inner.
  - peels.
Qed.

Lemma resume_inner w t : star inner w (snd (resume w t)).
Proof.
  unfold resume.
  set (w1 := fold_left deliver (asyncs t) w).
  assert (H : star inner w w1) by (apply fold_left_star, deliver_inner).
  destruct (exiting w1); simpl; [exact H|].
  destruct (interrupt w1); simpl; [|exact H].
  peel. exact H.
Qed.

Lemma resume_path w t o w1 : resume w t = (o, w1) -> star inner w w1.
Proof. intro H. pose proof (resume_inner w t) as P. now rewrite H in P. Qed.

Lemma emit_noise_path e w : noise e = true -> star inner w (emit e w).
Proof. intro H. now apply star_one, inner_noise. Qed.

Lemma wait_while_full_path s : forall w o w' s',
  wait_while_full w s = (o, w', s') -> star inner w w'.
Proof.
  induction s as [|t s IH]; intros w o w' s' H; simpl in H.
  - destruct (full w); inversion H; subst; peels.
  - destruct (full w); [|inversion H; subst; apply star_refl].
    destruct (resume (emit EvSleep w) t) as [[r|h] w1] eqn:E.
    + apply resume_path in E.
      assert (P : star inner w w1)
        by (eapply star_trans; [|exact E]; peels).
      destruct (stop_requested w1).
      * inversion H; subst. exact P.
      * eapply star_trans; [exact P | eapply IH; exact H].
    + apply resume_path in E. inversion H; subst.
      eapply star_trans; [|exact E]. peels.
Qed.

Lemma pool_spawn_path job queue s : forall w o w' s',
  pool_spawn job queue w s = (o, w', s') -> star step w w'.
Proof.
  induction s as [|t s IH]; intros w o w' s' H; simpl in H.
  - destruct (full w) eqn:F; inversion H; subst.
    + apply star_refl.
    + apply star_one, step_spawn, F.
  - destruct (full w) eqn:F.
    + destruct (resume w t) as [[r|h] w1] eqn:E; apply resume_path in E.
      * eapply star_trans; [apply inner_steps, E | eapply IH; exact H].
      * inversion H; subst. apply inner_steps, E.
    + inversion H; subst. apply star_one, step_spawn, F.
Qed.

Lemma check_for_suspension_path burst w s o w' s' :
  check_for_suspension burst w s = (o, w', s') -> star inner w w'.
Proof.
  unfold check_for_suspension. destruct s as [|t s]; intro H.
  - inversion H; subst. peels.
  - destruct (resume _ t) as [[r|h] w1] eqn:E; apply resume_path in E;
      inversion H; subst; (eapply star_trans; [|exact E]); peels.
Qed.

Lemma hub_switch_path w s o w' s' :
  hub_switch w s = (o, w', s') -> star inner w w'.
Proof.
  unfold hub_switch. destruct s as [|t s]; intro H.
  - inversion H; subst. peels.
  - destruct (resume _ t) as [[r|h] w1] eqn:E; apply resume_path in E.
    + inversion H; subst. eapply star_trans; [|exact E]. peels.
    + assert (w' = w1) as ->
        by (destruct h as [[]| | |]; inversion H; reflexivity).
      eapply star_trans; [|exact E]. peels.
Qed.

(** The wait for a slot returns only while no stop is requested. *)
Lemma wait_while_full_ok s : forall w u w' s',
  wait_while_full w s = (Ok u, w', s') ->
  stop_requested w = false -> stop_requested w' = false.
Proof.
  induction s as [|t s IH]; intros w u w' s' H F; simpl in H.
  - destruct (full w); inversion H; subst; exact F.
  - destruct (full w); [|inversion H; subst; exact F].
    destruct (resume (emit EvSleep w) t) as [[r|h] w1] eqn:E; [|discriminate].
    destruct (stop_requested w1) eqn:F1; [discriminate|].
    eapply IH; eauto.
Qed.

Lemma dequeue_loop_path timeout fuel : forall w s o w' s',
  dequeue_loop fuel timeout w s = (o, w', s') -> star search w w'.
Proof.
  induction fuel as [|fuel IH]; intros w s o w' s' H; simpl in H.
  - inversion H; subst. apply star_refl.
  - destruct (stop_requested w) eqn:F; [inversion H; subst; apply star_refl|].
    set (w0 := heartbeat 0 w) in H.
    set (wa := if full w0 then _ else w0) in H.
    assert (Fa : stop_requested wa = false)
      by (subst wa; destruct (full w0); exact F).
    assert (Pa : star search w wa).
    { apply inner_search. subst wa.
      eapply star_trans; [apply heartbeat_inner|]. fold w0.
      destruct (full w0); unfold set_state; peels. }
    destruct (wait_while_full wa s) as [[[u|h] w1] s1] eqn:W;
      pose proof W as W';
      apply wait_while_full_path in W; apply inner_search in W.
    + pose proof (wait_while_full_ok _ _ _ _ _ W' Fa) as F1.
      assert (P1 : star search w w1) by (eapply star_trans; eauto).
      destruct s1 as [|t s2].
      * inversion H; subst.
        eapply star_snoc; [exact P1 | now apply search_dequeue].
      * assert (P2 : star search w (emit (EvDequeueAny timeout) w1))
          by (eapply star_snoc; [exact P1 | now apply search_dequeue]).
        destruct (resume _ t) as [[r|h] w2] eqn:E; apply resume_path in E;
          apply inner_search in E.
        -- inversion H; subst.
           eapply star_trans; [exact P2|]. eapply star_trans; [exact E|].
           apply inner_search. destruct r; unfold set_state; peels.
        -- assert (P3 : star search w w2) by (eapply star_trans; eauto).
           destruct h as [[]| | |];
             try (inversion H; subst; exact P3).
           eapply star_trans; [exact P3 | eapply IH; exact H].
    + inversion H; subst. eapply star_trans; eauto.
Qed.

Lemma dequeue_job_and_maintain_ttl_path timeout w s o w' s' :
  dequeue_job_and_maintain_ttl timeout w s = (o, w', s') -> star search w w'.
Proof.
  unfold dequeue_job_and_maintain_ttl. intro H.
  destruct (stop_requested w); [inversion H; subst; apply star_refl|].
  destruct (dequeue_loop _ timeout w s) as [[[r|h] w1] s1] eqn:E;
    apply dequeue_loop_path in E; inversion H; subst; [|exact E].
  eapply star_trans; [exact E | apply inner_search, heartbeat_inner].
Qed.

Lemma dequeue_with_retry_path burst timeout w s o w' s' :
  dequeue_with_retry burst timeout w s = (o, w', s') -> star search w w'.
Proof.
  unfold dequeue_with_retry. intro H.
  destruct (dequeue_job_and_maintain_ttl timeout w s) as [[[r|h] w1] s1] eqn:E;
    apply dequeue_job_and_maintain_ttl_path in E.
  - destruct r as [p|]; [inversion H; subst; exact E|].
    destruct burst; [|inversion H; subst; exact E].
    destruct (hub_switch _ s1) as [[[u|h] w3] s3] eqn:S;
      apply hub_switch_path in S; apply inner_search in S.
    + apply dequeue_job_and_maintain_ttl_path in H.
      eapply star_trans; [exact E|].
      eapply star_trans; [|exact H].
      eapply star_trans; [|exact S]. apply inner_search. peels.
    + inversion H; subst. eapply star_trans; [exact E|].
      eapply star_trans; [|exact S]. apply inner_search. peels.
  - inversion H; subst. exact E.
Qed.

Lemma iteration_path burst w s o w' s' :
  iteration burst w s = (o, w', s') -> star search w w'.
Proof.
  unfold iteration. intro H.
  destruct (check_for_suspension burst w s) as [[[u|h] w1] s1] eqn:E;
    apply check_for_suspension_path in E; apply inner_search in E;
    [|inversion H; subst; exact E].
  set (w2 := if should_run_maintenance_tasks w1 then _ else w1) in H.
  assert (P2 : star search w w2).
  { eapply star_trans; [exact E|]. apply inner_search. subst w2.
    destruct (should_run_maintenance_tasks w1);
      unfold run_maintenance_tasks; peels. }
  destruct (stop_requested w2).
  - inversion H; subst. eapply star_trans; [exact P2|].
    apply inner_search. peels.
  - apply dequeue_with_retry_path in H. eapply star_trans; eauto.
Qed.

Lemma guarded_iteration_path burst w s o w' s' :
  guarded_iteration burst w s = (o, w', s') -> star search w w'.
Proof.
  unfold guarded_iteration. intro H.
  destruct (iteration burst w s) as [[[r|h] w1] s1] eqn:E;
    apply iteration_path in E.
  - inversion H; subst. exact E.
  - destruct h as [[]| | |]; inversion H; subst; exact E.
Qed.

Lemma work_loop_path burst fuel : forall w s o w' s',
  work_loop fuel burst w s = (o, w', s') -> star step w w'.
Proof.
  induction fuel as [|fuel IH]; intros w s o w' s' H; simpl in H.
  - inversion H; subst. apply star_refl.
  - destruct (guarded_iteration burst w s) as [[[r|h] w1] s1] eqn:E;
      apply guarded_iteration_path, search_steps in E.
    + destruct r as [[job queue]|]; [|inversion H; subst; exact E].
      unfold execute_job in H.
      destruct (pool_spawn job queue w1 s1) as [[[u|h] w2] s2] eqn:S;
        apply pool_spawn_path in S.
      * eapply star_trans; [exact E|]. eapply star_trans; [exact S|].
        eapply IH; exact H.
      * inversion H; subst. eapply star_trans; eauto.
    + inversion H; subst. exact E.
Qed.

Lemma in_flight_app_gen d t : in_flight (d ++ t) = in_flight d + in_flight t.
Proof. induction d as [|e d IH]; simpl; [reflexivity | lia]. Qed.

Lemma remove_nth_length {A : Type} (l : list A) : forall i x,
  nth_error l i = Some x ->
  List.length l = S (List.length (remove_nth i l)).
Proof.
  induction l as [|a l IH]; intros [|i] x H; simpl in *; try discriminate.
  - reflexivity.
  - f_equal. exact (IH i x H).
Qed.

Lemma noise_delta e : noise e = true -> delta e = 0.
Proof. destruct e; simpl; intro H; try reflexivity; discriminate. Qed.

(** The invariant only reads the pool, its size and the trace. *)
Lemma pool_inv_change cap w w' d :
  pool_size w' = pool_size w ->
  trace w' = d ++ trace w ->
  pool_len w' = pool_len w + in_flight d ->
  (forall C, cap = Some C -> pool_len w <= C ->
             bounded C (trace w) -> pool_len w = in_flight (trace w) ->
             pool_len w' <= C /\ bounded C (d ++ trace w)) ->
  pool_inv cap w -> pool_inv cap w'.
Proof.
  intros E1 E2 E3 Hc [H1 H2 H3]. constructor.
  - congruence.
  - rewrite E2, in_flight_app_gen. lia.
  - intros C HC. destruct (H3 C HC) as [L B]. rewrite E2. auto.
Qed.

Lemma pool_inv_emit cap e w :
  delta e = 0 -> pool_inv cap w -> pool_inv cap (emit e w).
Proof.
  intros D I. apply (pool_inv_change cap w (emit e w) [e]); auto.
  - unfold pool_len; simpl. lia.
  - intros C _ L B K. unfold pool_len in *. simpl. repeat split; auto; lia.
Qed.

Lemma pool_inv_ext cap w w' :
  pool_size w' = pool_size w -> pool w' = pool w -> trace w' = trace w ->
  pool_inv cap w -> pool_inv cap w'.
Proof.
  intros E1 E2 E3 I. apply (pool_inv_change cap w w' []); auto.
  - unfold pool_len. rewrite E2. simpl. lia.
  - intros C _ L B K. unfold pool_len in *. rewrite E2. auto.
Qed.

Lemma pool_inv_inner cap a b : inner a b -> pool_inv cap a -> pool_inv cap b.
Proof.
  intros H I. destruct H as [w e N|w w' S|w i st job queue E|w F].
  - apply pool_inv_emit; [now apply noise_delta | exact I].
  - destruct S. eapply pool_inv_ext; eauto.
  - pose proof (remove_nth_length _ _ _ E) as L.
    assert (J : pool_inv cap (heartbeat 0 (set_did_perform_work true
                 (emit (EvJobDone (with_status st job))
                    (set_pool (remove_nth i (pool w)) w))))).
    { unfold heartbeat. do 2 (apply pool_inv_emit; [reflexivity|]).
      apply (pool_inv_change cap w _ [EvJobDone (with_status st job)]);
        auto; unfold pool_len in *; simpl.
      - lia.
      - intros C _ Hl B K. repeat split; auto; lia. }
    unfold job_done.
    destruct (job_status (with_status st job));
      try exact J; apply pool_inv_emit; [reflexivity | exact J].
  - apply (pool_inv_emit cap (EvLog WARNING WARM_MSG)) in I; [|reflexivity].
    apply (pool_inv_emit cap (EvLog WARNING WARM_MSG2)) in I; [|reflexivity].
    eapply pool_inv_ext; [| | |exact I]; reflexivity.
Qed.

Lemma not_full_room C w :
  pool_size w = Some C -> full w = false -> pool_len w + 1 <= C.
Proof.
  unfold full, free_count. intros -> H.
  apply Z.leb_gt in H. lia.
Qed.

Lemma pool_inv_step cap a b : step a b -> pool_inv cap a -> pool_inv cap b.
Proof.
  intros H I. destruct H as [w w' [w1 w2 H|w1 timeout F]|w job queue F].
  - eapply pool_inv_inner; eauto.
  - apply pool_inv_emit; [reflexivity | exact I].
  - apply (pool_inv_change cap w _ [EvSpawn job queue]); auto;
      unfold pool_len; simpl; rewrite ?length_app; simpl.
    + lia.
    + intros C -> L B K.
      pose proof (not_full_room C w (inv_size _ _ I) F) as R.
      unfold pool_len in *. repeat split; auto; lia.
Qed.

Lemma pool_inv_path cap a b :
  star step a b -> pool_inv cap a -> pool_inv cap b.
Proof. apply star_invariant. intros; eapply pool_inv_step; eauto. Qed.

Lemma frame_refl w : frame w w.
Proof. constructor; auto using incl_refl. Qed.

Lemma frame_trans a b c : frame a b -> frame b c -> frame a c.
Proof.
  intros [] []. constructor; try congruence; auto.
  eapply incl_tran; eauto.
Qed.

Lemma frame_step a b : step a b -> frame a b.
Proof.
  intros [w0 w0' [w1 w2 H|w1 timeout F]|w job queue F];
    try (constructor; auto using incl_refl; fail).
  destruct H as [w e N|w w' S|w i st job queue E|w F];
    try (constructor; auto using incl_refl; fail).
  - destruct S. constructor; try congruence; auto.
  - unfold job_done.
    destruct (job_status (with_status st job));
      constructor; auto using incl_refl.
Qed.

Lemma frame_path a b : star step a b -> frame a b.
Proof.
  apply star_preorder;
    [apply frame_refl | apply frame_trans | apply frame_step].
Qed.

Lemma grows_refl P w : grows P w w.
Proof. exists []. split; reflexivity. Qed.

Lemma grows_trans P a b c : grows P a b -> grows P b c -> grows P a c.
Proof.
  intros (d1 & E1 & F1) (d2 & E2 & F2). exists (d2 ++ d1). split.
  - rewrite E2, E1. now rewrite app_assoc.
  - rewrite forallb_app. now rewrite F1, F2.
Qed.

Lemma grows_weaken (P Q : Event -> bool) a b :
  (forall e, P e = true -> Q e = true) -> grows P a b -> grows Q a b.
Proof.
  intros HPQ (d & E & F). exists d. split; [exact E|].
  rewrite forallb_forall in *. auto.
Qed.

Lemma noise_inner_event e : noise e = true -> inner_event e = true.
Proof. destruct e; simpl; intro H; try reflexivity; discriminate. Qed.

Lemma grows_inner a b : inner a b -> grows inner_event a b.
Proof.
  intros [w e N|w w' S|w i st job queue E|w F].
  - exists [e]. split; [reflexivity|]. simpl.
    now rewrite (noise_inner_event e N).
  - exists []. split; [|reflexivity].
    apply S.
  - unfold job_done, heartbeat.
    destruct (job_status (with_status st job)); simpl;
      match goal with
      | |- grows _ _ (emit ?e4 (emit ?e3 (emit ?e2 (set_did_perform_work _ (emit ?e1 _))))) =>
          exists [e4; e3; e2; e1]; split; reflexivity
      | |- grows _ _ (emit ?e3 (emit ?e2 (set_did_perform_work _ (emit ?e1 _)))) =>
          exists [e3; e2; e1]; split; reflexivity
      end.
  - exists [EvLog WARNING WARM_MSG2; EvLog WARNING WARM_MSG].
    split; reflexivity.
Qed.

Lemma grows_inner_path a b : star inner a b -> grows inner_event a b.
Proof.
  apply star_preorder;
    [apply grows_refl | apply grows_trans | apply grows_inner].
Qed.

Lemma grows_step a b : step a b -> grows not_register_death a b.
Proof.
  intros [w w' [w1 w2 H|w1 timeout F]|w job queue F].
  - eapply grows_weaken; [|apply grows_inner, H].
    intros []; simpl; auto.
  - exists [EvDequeueAny timeout]. split; reflexivity.
  - exists [EvSpawn job queue]. split; reflexivity.
Qed.

Lemma grows_step_path a b : star step a b -> grows not_register_death a b.
Proof.
  apply star_preorder;
    [apply grows_refl | apply grows_trans | apply grows_step].
Qed.

(** * The pool never holds more than its capacity *)

Ltac inv_emits :=
  repeat match goal with
  | |- pool_inv _ (emit _ _) => apply pool_inv_emit; [reflexivity|]
  end; try assumption.

Lemma inner_boot a b : star inner a b -> star boot a b.
Proof. apply star_incl. intros; now apply boot_inner. Qed.

Lemma register_birth_inner w : star inner w (register_birth w).
Proof. unfold register_birth. peels. Qed.

Lemma _install_signal_handlers_inner w :
  star inner w (_install_signal_handlers w).
Proof.
  unfold _install_signal_handlers.
  eapply star_trans; apply hub_signal_inner.
Qed.

Lemma boot_emit e w : noise e = true -> boot w (emit e w).
Proof. intro H. now apply boot_inner, inner_noise. Qed.

Lemma start_scheduler_boot burst ll df lf w :
  star boot w (start_scheduler burst ll df lf w).
Proof.
  unfold start_scheduler.
  set (w1 := emit EvAcquireLocks _).
  assert (P1 : star boot w w1).
  { subst w1. eapply star_snoc; [|now apply boot_emit].
    eapply star_snoc; [|apply boot_scheduler].
    now apply star_one, boot_emit. }
  clearbody w1. destruct (acquires_locks w1); [destruct burst|]; auto.
  - eapply star_snoc; [|now apply boot_emit].
    eapply star_snoc; [exact P1 | now apply boot_emit].
  - eapply star_snoc; [exact P1 | now apply boot_emit].
Qed.

Lemma startup_boot burst ll df lf ws w :
  star boot w (startup burst ll df lf ws w).
Proof.
  unfold startup.
  set (w1 := set_state _ _).
  assert (P1 : star boot w w1).
  { subst w1. unfold set_state.
    eapply star_snoc; [|now apply boot_emit].
    eapply star_snoc; [|now apply boot_emit].
    eapply star_trans; [|apply inner_boot, register_birth_inner].
    eapply star_snoc; [|apply boot_did].
    eapply star_trans; [|apply inner_boot, _install_signal_handlers_inner].
    now apply star_one, boot_emit. }
  clearbody w1. destruct ws; [|exact P1].
  eapply star_trans; [exact P1 | apply start_scheduler_boot].
Qed.

Lemma pool_inv_boot C a b : boot a b -> pool_inv C a -> pool_inv C b.
Proof.
  intros H I. destruct H as [w w' H|w b|w b].
  - eapply pool_inv_inner; eauto.
  - eapply pool_inv_ext; [| | |exact I]; reflexivity.
  - eapply pool_inv_ext; [| | |exact I]; reflexivity.
Qed.

Lemma startup_pool_inv C burst ll df lf ws w :
  pool_inv C w -> pool_inv C (startup burst ll df lf ws w).
Proof.
  apply (star_invariant boot (pool_inv C)); [|apply startup_boot].
  intros; eapply pool_inv_boot; eauto.
Qed.

Lemma cleanup_pool_inv C w : pool_inv C w -> pool_inv C (cleanup w).
Proof.
  intro I. unfold cleanup. destruct (is_horse w); [exact I|].
  destruct (scheduler w); inv_emits.
Qed.

Lemma _work_pool_inv C burst ll df lf mj ws w s o w' s' :
  _work burst ll df lf mj ws w s = (o, w', s') ->
  pool_inv C w -> pool_inv C w'.
Proof.
  unfold _work. intros H I.
  apply (startup_pool_inv C burst ll df lf ws) in I.
  destruct (work_loop _ burst _ s) as [[[u|h] w1] s1] eqn:E;
    apply work_loop_path in E; apply (pool_inv_path C _ _ E) in I.
  - inversion H; subst. now apply cleanup_pool_inv.
  - destruct h; inversion H; subst; auto. now apply cleanup_pool_inv.
Qed.

Lemma work_pool_inv C burst ll df lf mj ws w s o w' s' :
  work burst ll df lf mj ws w s = (o, w', s') ->
  pool_inv C w -> pool_inv C w'.
Proof.
  unfold work. intros H I. destruct burst.
  - destruct (_work true ll _ _ None ws w s) as [[[b|h] w1] s1] eqn:E;
      apply (_work_pool_inv C) in E; auto; inversion H; subst; exact E.
  - destruct (_work false _ _ _ None ws _ s) as [[[b|h] w1] s1] eqn:E;
      apply (_work_pool_inv C) in E;
      try (eapply pool_inv_ext; [| | |exact I]; reflexivity).
    + inversion H; subst; exact E.
    + destruct h as [[]| | |]; inversion H; subst; exact E.
Qed.

Lemma init_pool_inv kw horse ttl locks w0 :
  __init__ kw horse ttl locks = Ok w0 ->
  pool_inv (pool_size w0) w0 /\ (kw = None -> pool_size w0 = Some 20).
Proof.
  unfold __init__. intro H.
  set (size := match kw with Some v => v | None => Some DEFAULT_POOL_SIZE end)
    in H.
  assert (D : kw = None -> size = Some 20) by (intros ->; reflexivity).
  clearbody size.
  assert (P : forall w, pool_size w = size -> pool w = [] -> trace w = [] ->
                (forall c, size = Some c -> 0 <= c) -> pool_inv size w).
  { intros w E1 E2 E3 Hc. constructor; auto.
    - unfold pool_len. now rewrite E2, E3.
    - intros C HC. unfold pool_len. rewrite E2, E3. simpl.
      split; [apply Hc, HC | exact Logic.I]. }
  destruct size as [c|].
  - destruct (c <? 0) eqn:L; [discriminate|]. inversion H; subst w0.
    apply Z.ltb_ge in L. split; [|exact D].
    apply P; auto. intros c' E. inversion E; subst. exact L.
  - inversion H; subst w0. split; [|exact D]. apply P; auto. discriminate.
Qed.

Lemma in_flight_app d t : in_flight (d ++ t) = in_flight d + in_flight t.
Proof. apply in_flight_app_gen. Qed.

Lemma inner_events_release d :
  forallb inner_event d = true ->
  in_flight d <= 0 /\ (in_flight d < 0 -> existsb is_job_done d = true).
Proof.
  induction d as [|e d IH]; simpl; [split; [lia | intro; lia]|].
  intro H. apply andb_true_iff in H as [He Hd].
  destruct (IH Hd) as [L X].
  destruct e; simpl in *; try discriminate;
    (split; [lia | intro; try reflexivity; apply X; lia]).
Qed.

(** An admission that returns was made from a state with a free slot,
    reached while the caller was parked. *)
Lemma pool_spawn_ok job queue s : forall w u w' s',
  pool_spawn job queue w s = (Ok u, w', s') ->
  exists w1, star inner w w1 /\ full w1 = false /\
    w' = emit (EvSpawn job queue) (set_pool (pool w1 ++ [(job, queue)]) w1).
Proof.
  induction s as [|t s IH]; intros w u w' s' H; simpl in H.
  - destruct (full w) eqn:F; inversion H; subst.
    exists w. split; [apply star_refl | auto].
  - destruct (full w) eqn:F.
    + destruct (resume w t) as [[r|h] w1] eqn:E; [|discriminate].
      apply resume_path in E.
      destruct (IH _ _ _ _ H) as (w2 & P & F2 & Ew).
      exists w2. split; [eapply star_trans; eauto | auto].
    + inversion H; subst. exists w. split; [apply star_refl | auto].
Qed.

(** An admission that does not return has admitted nothing. *)
Lemma pool_spawn_halt job queue s : forall w h w' s',
  pool_spawn job queue w s = (Halt h, w', s') -> star inner w w'.
Proof.
  induction s as [|t s IH]; intros w h w' s' H; simpl in H;
    destruct (full w); try discriminate.
  - inversion H; subst. apply star_refl.
  - destruct (resume w t) as [[r|h'] w1] eqn:E; apply resume_path in E.
    + eapply star_trans; [exact E | eapply IH; exact H].
    + inversion H; subst. exact E.
Qed.

Lemma pool_spawn_stays_blocked job queue w :
  full w = true -> interrupt w = None -> exiting w = false ->
  forall s, Forall idle s -> pool_spawn job queue w s = (Blocked, w, []).
Proof.
  intros F I X s. induction s as [|t s IH]; intro H; simpl; rewrite F.
  - reflexivity.
  - inversion H as [|? ? [Ha Hr] Hs]; subst.
    unfold resume. rewrite Ha. simpl. rewrite X, I.
    destruct (reply_of t); [|discriminate]. exact (IH Hs).
Qed.

Lemma full_at_capacity C w :
  pool_size w = Some C -> pool_len w = C -> full w = true.
Proof.
  unfold full, free_count. intros -> L. apply Z.leb_le. lia.
Qed.

Lemma fresh_app d tr :
  forallb inner_event d = true -> fresh tr = true -> fresh (d ++ tr) = true.
Proof.
  induction d as [|e d IH]; simpl; intros H F; [exact F|].
  apply andb_true_iff in H as [He Hd].
  destruct e; simpl in *; try discriminate; auto.
Qed.

Lemma attempts_ok_app t d tr :
  forallb inner_event d = true -> attempts_ok t tr -> attempts_ok t (d ++ tr).
Proof.
  induction d as [|e d IH]; simpl; intros H F; [exact F|].
  apply andb_true_iff in H as [He Hd].
  destruct e; simpl in *; try discriminate; auto.
Qed.

Lemma fresh_inner_path a b :
  star inner a b -> fresh (trace a) = true -> fresh (trace b) = true.
Proof.
  intros P F. destruct (grows_inner_path _ _ P) as (d & -> & Hd).
  now apply fresh_app.
Qed.

Lemma attempts_inner_path t a b :
  star inner a b -> attempts_ok t (trace a) -> attempts_ok t (trace b).
Proof.
  intros P F. destruct (grows_inner_path _ _ P) as (d & -> & Hd).
  now apply attempts_ok_app.
Qed.

Lemma dequeue_loop_attempts t fuel : forall w s o w' s',
  dequeue_loop fuel t w s = (o, w', s') ->
  attempts_ok t (trace w) -> attempts_ok t (trace w').
Proof.
  induction fuel as [|fuel IH]; intros w s o w' s' H A; simpl in H.
  - inversion H; subst. exact A.
  - destruct (stop_requested w); [inversion H; subst; exact A|].
    set (w0 := heartbeat 0 w) in H.
    set (wa := if full w0 then _ else w0) in H.
    assert (Pa : star inner w0 wa)
      by (subst wa; destruct (full w0); unfold set_state; peels).
    assert (A0 : attempts_ok t (trace w0)) by exact A.
    assert (F0 : fresh (trace w0) = true) by reflexivity.
    destruct (wait_while_full wa s) as [[[u|h] w1] s1] eqn:W;
      apply wait_while_full_path in W;
      pose proof (star_trans _ _ _ Pa W) as P1;
      pose proof (attempts_inner_path t _ _ P1 A0) as A1;
      pose proof (fresh_inner_path _ _ P1 F0) as F1.
    + destruct s1 as [|tk s2].
      * inversion H; subst. simpl. auto.
      * assert (A2 : attempts_ok t (trace (emit (EvDequeueAny t) w1)))
          by (simpl; auto).
        destruct (resume _ tk) as [[r|h] w2] eqn:E; apply resume_path in E;
          pose proof (attempts_inner_path t _ _ E A2) as A3.
        -- inversion H; subst. destruct r; exact A3.
        -- destruct h as [[]| | |]; try (inversion H; subst; exact A3).
           eapply IH; eauto.
    + inversion H; subst. exact A1.
Qed.

Lemma dequeue_job_attempts t w s o w' s' :
  dequeue_job_and_maintain_ttl t w s = (o, w', s') ->
  attempts_ok t (trace w) -> attempts_ok t (trace w').
Proof.
  unfold dequeue_job_and_maintain_ttl. intros H A.
  destruct (stop_requested w); [inversion H; subst; exact A|].
  destruct (dequeue_loop _ t w s) as [[[r|h] w1] s1] eqn:E;
    apply dequeue_loop_attempts in E; auto; inversion H; subst; exact E.
Qed.

Lemma dequeue_with_retry_attempts burst t w s o w' s' :
  dequeue_with_retry burst t w s = (o, w', s') ->
  attempts_ok t (trace w) -> attempts_ok t (trace w').
Proof.
  unfold dequeue_with_retry. intros H A.
  destruct (dequeue_job_and_maintain_ttl t w s) as [[[r|h] w1] s1] eqn:E;
    apply dequeue_job_attempts in E; auto.
  - destruct r as [p|]; [inversion H; subst; exact E|].
    destruct burst; [|inversion H; subst; exact E].
    destruct (hub_switch _ s1) as [[[u|h] w3] s3] eqn:S;
      apply hub_switch_path in S;
      apply (attempts_inner_path t) in S; try exact E.
    + eapply dequeue_job_attempts; eauto.
    + inversion H; subst. exact S.
  - inversion H; subst. exact E.
Qed.

Lemma iteration_attempts burst w s o w' s' :
  iteration burst w s = (o, w', s') ->
  attempts_ok (dequeue_timeout burst (default_worker_ttl w)) (trace w) ->
  attempts_ok (dequeue_timeout burst (default_worker_ttl w)) (trace w').
Proof.
  unfold iteration. intros H A.
  set (t := dequeue_timeout burst (default_worker_ttl w)) in *.
  destruct (check_for_suspension burst w s) as [[[u|h] w1] s1] eqn:E;
    apply check_for_suspension_path in E;
    [|inversion H; subst; now apply (attempts_inner_path t _ _ E)].
  set (w2 := if should_run_maintenance_tasks w1 then _ else w1) in H.
  assert (P2 : star inner w w2).
  { eapply star_trans; [exact E|]. subst w2.
    destruct (should_run_maintenance_tasks w1);
      unfold run_maintenance_tasks; peels. }
  pose proof (attempts_inner_path t _ _ P2 A) as A2.
  destruct (stop_requested w2).
  - inversion H; subst. exact A2.
  - rewrite (fr_ttl _ _ (frame_path _ _ (inner_steps _ _ P2))) in H.
    eapply dequeue_with_retry_attempts; eauto.
Qed.

Lemma work_loop_attempts burst fuel : forall w s o w' s',
  work_loop fuel burst w s = (o, w', s') ->
  attempts_ok (dequeue_timeout burst (default_worker_ttl w)) (trace w) ->
  attempts_ok (dequeue_timeout burst (default_worker_ttl w)) (trace w').
Proof.
  induction fuel as [|fuel IH]; intros w s o w' s' H A; simpl in H.
  - inversion H; subst. exact A.
  - unfold guarded_iteration in H.
    destruct (iteration burst w s) as [[[r|h] w1] s1] eqn:E;
      pose proof (iteration_attempts _ _ _ _ _ _ E A) as A1;
      pose proof (fr_ttl _ _ (frame_path _ _ (search_steps _ _
                     (iteration_path _ _ _ _ _ _ E))))
        as T1.
    + destruct r as [[job queue]|]; [|inversion H; subst; exact A1].
      unfold execute_job in H.
      destruct (pool_spawn job queue w1 s1) as [[[u|h] w2] s2] eqn:S.
      * pose proof (frame_path _ _ (pool_spawn_path _ _ _ _ _ _ _ S)) as F2.
        destruct (pool_spawn_ok _ _ _ _ _ _ _ S) as (w3 & P3 & _ & Ew).
        rewrite <- T1. rewrite <- (fr_ttl _ _ F2).
        eapply IH; [exact H|]. rewrite (fr_ttl _ _ F2), T1.
        subst w2. simpl. eapply attempts_inner_path; eauto.
      * inversion H; subst.
        pose proof (grows_inner_path _ _ (pool_spawn_halt _ _ _ _ _ _ _ S)) as P.
        destruct P as (d & -> & Hd). now apply attempts_ok_app.
    + destruct h as [[]| | |]; inversion H; subst; exact A1.
Qed.

Lemma attempts_ok_quiet t d tr :
  forallb not_dequeue d = true -> attempts_ok t tr -> attempts_ok t (d ++ tr).
Proof.
  induction d as [|e d IH]; simpl; intros H F; [exact F|].
  apply andb_true_iff in H as [He Hd].
  destruct e; simpl in *; try discriminate; auto.
Qed.

Lemma attempts_ok_in t tr t' :
  attempts_ok t tr -> In (EvDequeueAny t') tr -> t' = t.
Proof.
  induction tr as [|e tr IH]; simpl; intros A I; [contradiction|].
  destruct I as [E|I].
  - subst e. now destruct A.
  - apply IH; [|exact I]. destruct e; try exact A. now destruct A.
Qed.

Lemma init_fields kw horse ttl locks w0 :
  __init__ kw horse ttl locks = Ok w0 ->
  trace w0 = [] /\ pool w0 = [] /\ default_worker_ttl w0 = ttl /\
  is_horse w0 = horse /\ stop_requested w0 = false /\
  interrupt w0 = None /\ exiting w0 = false /\ gevent_worker w0 = false /\
  watchers w0 = [] /\ scheduler w0 = false /\ join_waiting w0 = false.
Proof.
  unfold __init__. intro H.
  destruct (match kw with Some v => v | None => Some DEFAULT_POOL_SIZE end)
    as [c|]; [destruct (c <? 0); [discriminate|]|];
    inversion H; subst; simpl; repeat split.
Qed.

Lemma grows_emit (P : Event -> bool) e w x :
  P e = true -> grows P w x -> grows P w (emit e x).
Proof.
  intros He (d & E & F). exists (e :: d). simpl. rewrite E, He, F. auto.
Qed.

Lemma grows_same (P : Event -> bool) w x x' :
  trace x' = trace x -> grows P w x -> grows P w x'.
Proof. intros T (d & E & F). exists d. rewrite T. auto. Qed.

Ltac grow :=
  repeat match goal with
  | |- grows _ _ (emit _ _) => apply grows_emit; [reflexivity|]
  | |- grows _ _ (set_scheduler _ ?x) => apply (grows_same _ _ x); [reflexivity|]
  | |- grows _ _ (set_did_perform_work _ ?x) =>
      apply (grows_same _ _ x); [reflexivity|]
  | |- grows _ _ (set_watchers _ ?x) => apply (grows_same _ _ x); [reflexivity|]
  | |- grows _ _ (set_gevent_worker _ ?x) =>
      apply (grows_same _ _ x); [reflexivity|]
  end; try apply grows_refl.

Lemma grows_boot a b : boot a b -> grows inner_event a b.
Proof.
  intros [w w' H|w b'|w b']; [now apply grows_inner| |];
    exists []; split; reflexivity.
Qed.

(** [startup] and [cleanup] only add to the trace, and no dequeue. *)
Lemma startup_grows burst ll df lf ws w :
  grows not_dequeue w (startup burst ll df lf ws w).
Proof.
  apply (grows_weaken inner_event); [intros []; simpl; auto|].
  apply (star_preorder boot (grows inner_event));
    [apply grows_refl | apply grows_trans | apply grows_boot
    | apply startup_boot].
Qed.

Lemma cleanup_grows w : grows not_dequeue w (cleanup w).
Proof.
  unfold cleanup. destruct (is_horse w); [apply grows_refl|].
  destruct (scheduler w).
  - exists [EvRegisterDeath; EvStopScheduler]. split; reflexivity.
  - exists [EvRegisterDeath]. split; reflexivity.
Qed.

Lemma startup_ttl burst ll df lf ws w :
  default_worker_ttl (startup burst ll df lf ws w) = default_worker_ttl w.
Proof.
  unfold startup, start_scheduler. destruct ws; [|reflexivity].
  match goal with |- context [if ?c then _ else _] => destruct c end;
    [destruct burst|]; reflexivity.
Qed.

Lemma attempts_grows t w w' :
  grows not_dequeue w w' -> attempts_ok t (trace w) ->
  attempts_ok t (trace w').
Proof. intros (d & -> & Hd). now apply attempts_ok_quiet. Qed.

Lemma _work_attempts burst ll df lf mj ws w s o w' s' :
  _work burst ll df lf mj ws w s = (o, w', s') ->
  attempts_ok (dequeue_timeout burst (default_worker_ttl w)) (trace w) ->
  attempts_ok (dequeue_timeout burst (default_worker_ttl w)) (trace w').
Proof.
  unfold _work. intros H A.
  apply (attempts_grows _ _ _ (startup_grows burst ll df lf ws w)) in A.
  rewrite <- (startup_ttl burst ll df lf ws w) in *.
  destruct (work_loop _ burst _ s) as [[[u|h] w1] s1] eqn:E;
    apply work_loop_attempts in E; auto.
  - inversion H; subst. eapply attempts_grows; [apply cleanup_grows | exact E].
  - destruct h; inversion H; subst; auto.
    eapply attempts_grows; [apply cleanup_grows | exact E].
Qed.

Lemma work_attempts burst ll df lf mj ws w s o w' s' :
  work burst ll df lf mj ws w s = (o, w', s') ->
  attempts_ok (dequeue_timeout burst (default_worker_ttl w)) (trace w) ->
  attempts_ok (dequeue_timeout burst (default_worker_ttl w)) (trace w').
Proof.
  unfold work. intros H A. destruct burst.
  - destruct (_work true ll _ _ None ws w s) as [[[b|h] w1] s1] eqn:E;
      apply _work_attempts in E; auto; inversion H; subst; exact E.
  - destruct (_work false _ _ _ None ws _ s) as [[[b|h] w1] s1] eqn:E;
      apply _work_attempts in E; auto.
    + inversion H; subst; exact E.
    + destruct h as [[]| | |]; inversion H; subst; exact E.
Qed.

(** C4, as stated, fails: with the default TTL of 420 seconds the loop
    passes a bounded timeout in continuous mode and a null one in batch
    mode, the reverse of the stated rule. *)
Lemma timeout_modes_reversed :
  dequeue_timeout false 420 = Some 360 /\
  dequeue_timeout true 420 = None /\
  dequeue_timeout false 420 <> spec_dequeue_timeout false 420 /\
  dequeue_timeout true 420 <> spec_dequeue_timeout true 420.
Proof. repeat split; discriminate. Qed.

Lemma work_dequeue_timeouts kw horse ttl locks w0 burst ll df lf mj ws s o w' s' t :
  __init__ kw horse ttl locks = Ok w0 ->
  work burst ll df lf mj ws w0 s = (o, w', s') ->
  In (EvDequeueAny t) (trace w') ->
  t = dequeue_timeout burst ttl.
Proof.
  intros Hi H I.
  destruct (init_fields _ _ _ _ _ Hi) as (Et & _ & Ettl & _).
  assert (A : attempts_ok (dequeue_timeout burst (default_worker_ttl w0))
                (trace w0)) by (rewrite Et; exact Logic.I).
  apply (work_attempts _ _ _ _ _ _ _ _ _ _ _ H) in A.
  now rewrite (attempts_ok_in _ _ _ A I), Ettl.
Qed.

(** C4, amended. The dispatch loop computes the dequeue timeout as null in
    batch (burst) mode, where [dequeue_any] does not block and an empty
    result drives termination, and as max(1, TTL - 60) in continuous mode;
    every call of [dequeue_any] made by a run of [work] carries the timeout
    of its mode. *)
Theorem timeout_by_mode :
  (forall ttl, dequeue_timeout true ttl = None) /\
  (forall ttl, dequeue_timeout false ttl = Some (Z.max 1 (ttl - 60))) /\
  (forall kw horse ttl locks w0 burst ll df lf mj ws s o w' s' t,
      __init__ kw horse ttl locks = Ok w0 ->
      work burst ll df lf mj ws w0 s = (o, w', s') ->
      In (EvDequeueAny t) (trace w') ->
      t = if burst then None else Some (Z.max 1 (ttl - 60))).
Proof.
  split; [reflexivity|]. split; [reflexivity|].
  intros kw horse ttl locks w0 burst ll df lf mj ws s o w' s' t Hi H I.
  rewrite (work_dequeue_timeouts _ _ _ _ _ _ _ _ _ _ _ _ _ _ _ _ Hi H I).
  now destruct burst.
Qed.

(** C5. Whenever the dispatch loop computes a bounded (non-null) dequeue
    timeout, it equals max(1, default_worker_ttl - 60): exactly 1 for a TTL
    of 60 and at least 1 for every TTL; and every bounded timeout that a run
    of [work] passes to [dequeue_any] is that value. *)
Theorem bounded_timeout_floor :
  (forall burst ttl t,
      dequeue_timeout burst ttl = Some t ->
      t = Z.max 1 (ttl - 60) /\ 1 <= t /\ (ttl = 60 -> t = 1)) /\
  (forall kw horse ttl locks w0 burst ll df lf mj ws s o w' s' t,
      __init__ kw horse ttl locks = Ok w0 ->
      work burst ll df lf mj ws w0 s = (o, w', s') ->
      In (EvDequeueAny (Some t)) (trace w') ->
      t = Z.max 1 (ttl - 60) /\ 1 <= t).
Proof.
  split.
  - intros [] ttl t H; [discriminate|]. inversion H; subst.
    repeat split; lia.
  - intros kw horse ttl locks w0 burst ll df lf mj ws s o w' s' t Hi H I.
    pose proof (work_dequeue_timeouts _ _ _ _ _ _ _ _ _ _ _ _ _ _ _ _ Hi H I)
      as T.
    destruct burst; [discriminate|]. inversion T. lia.
Qed.

(** * The max_jobs argument *)

(** C10. The [max_jobs] argument of [work] (and of [_work]) has no effect:
    two invocations that differ only in [max_jobs] change the worker in the
    same way, make the same calls and return the same result. *)
Theorem max_jobs_is_ignored :
  forall burst ll df lf ws w s (mj1 mj2 : option Z),
    work burst ll df lf mj1 ws w s = work burst ll df lf mj2 ws w s /\
    _work burst ll df lf mj1 ws w s = _work burst ll df lf mj2 ws w s.
Proof. intros. split; reflexivity. Qed.

Lemma count_app p d t : count p (d ++ t) = (count p d + count p t)%nat.
Proof. unfold count. now rewrite filter_app, length_app. Qed.

Lemma job_done_trace job queue w :
  trace (job_done job queue w) =
  job_done_events job queue (pool_len w) ++ trace w.
Proof.
  unfold job_done, job_done_events, heartbeat.
  destruct (job_status job); reflexivity.
Qed.

Lemma job_done_fields job queue w :
  pool (job_done job queue w) = pool w /\
  join_waiting (job_done job queue w) = join_waiting w /\
  did_perform_work (job_done job queue w) = true.
Proof. unfold job_done. destruct (job_status job); repeat split. Qed.

Lemma request_stop_resume_trace w :
  exists d, trace (request_stop_resume w) = d ++ trace w /\
            (d = [] \/ d = [EvKillWorker]) /\
            pool (request_stop_resume w) = pool w.
Proof.
  unfold request_stop_resume, throw. destruct (gevent_worker w).
  - exists [EvKillWorker]. simpl. destruct (interrupt w); auto.
  - exists []. auto.
Qed.

Lemma greenlet_exit_trace i st w job queue :
  nth_error (pool w) i = Some (job, queue) ->
  exists d,
    trace (greenlet_exit i st w) =
      d ++ job_done_events (with_status st job) queue
             (Z.of_nat (List.length (remove_nth i (pool w)))) ++ trace w /\
    (d = [] \/ d = [EvKillWorker]) /\
    pool (greenlet_exit i st w) = remove_nth i (pool w).
Proof.
  intro E. unfold greenlet_exit. rewrite E.
  set (w1 := job_done _ _ _).
  assert (T1 : trace w1 =
               job_done_events (with_status st job) queue
                 (Z.of_nat (List.length (remove_nth i (pool w)))) ++ trace w)
    by (subst w1; now rewrite job_done_trace).
  assert (P1 : pool w1 = remove_nth i (pool w))
    by (subst w1; now rewrite (proj1 (job_done_fields _ _ _))).
  clearbody w1.
  destruct (join_waiting w1); [|exists []; auto].
  destruct (pool w1) eqn:Ep; [|exists []; rewrite Ep; auto].
  destruct (request_stop_resume_trace (set_join_waiting false w1))
    as (d & Ed & Hd & Hp).
  exists d. rewrite Ed, Hp. simpl. rewrite T1, Ep, <- P1. auto.
Qed.

Lemma count_kill_worker p d :
  p EvKillWorker = false -> d = [] \/ d = [EvKillWorker] -> count p d = O.
Proof. intros H [->| ->]; unfold count; simpl; [|rewrite H]; reflexivity. Qed.

Lemma count_job_done_events job queue n :
  count is_job_done (job_done_events job queue n) = 1%nat /\
  count is_enqueue (job_done_events job queue n) =
    (if finished (job_status job) then 1 else 0)%nat /\
  count (fun e => match e with EvHeartbeat _ => true | _ => false end)
    (job_done_events job queue n) = 1%nat.
Proof.
  unfold job_done_events. destruct (finished (job_status job));
    repeat split.
Qed.

Lemma kill_all_counts : forall p w,
  pool w = p ->
  let w' := kill_all (List.length p) w in
  pool w' = [] /\
  count is_job_done (trace w') =
    (count is_job_done (trace w) + List.length p)%nat /\
  count is_enqueue (trace w') =
    (count is_enqueue (trace w) + finished_jobs p)%nat.
Proof.
  induction p as [|[job queue] p IH]; intros w Ep; simpl.
  - unfold finished_jobs; simpl. rewrite Ep. repeat split; lia.
  - assert (E0 : nth_error (pool w) 0 = Some (job, queue))
      by (rewrite Ep; reflexivity).
    destruct (greenlet_exit_trace 0 None w job queue E0) as (d & Ed & Hd & Hp).
    rewrite Ep in Hp. unfold remove_nth in Hp. simpl in Hp.
    destruct (IH (greenlet_exit 0 None w) Hp) as (I1 & I2 & I3).
    split; [exact I1|].
    destruct (count_job_done_events (with_status None job) queue
                (Z.of_nat (List.length (remove_nth 0 (pool w)))))
      as (C1 & C2 & _).
    rewrite I2, I3, Ed, !count_app, C1, C2.
    rewrite !(count_kill_worker _ d) by (auto; reflexivity).
    unfold finished_jobs. simpl.
    destruct (finished (job_status job)); simpl; split; lia.
Qed.

Lemma in_flight_counts tr :
  in_flight tr =
  Z.of_nat (count is_spawn tr) - Z.of_nat (count is_job_done tr).
Proof.
  induction tr as [|e tr IH]; [reflexivity|].
  unfold count in *.
  destruct e; cbn [filter is_spawn is_job_done in_flight delta List.length];
    rewrite ?Nat2Z.inj_succ, IH; lia.
Qed.

(** C7. An admitted execution leaves the pool through exactly one run of
    its completion callback, whether it finished, failed or was cancelled,
    and the callback calls the owning queue's [enqueue_dependents] once when
    the job's status reads FINISHED and not at all otherwise.  Along a run of
    [work] the admissions equal the callbacks run plus the executions still
    in the pool. *)
Theorem completion_callback_runs_once :
  (forall w i st job queue,
      nth_error (pool w) i = Some (job, queue) ->
      let job' := with_status (Some st) job in
      let w' := deliver w (Finish i st) in
      pool w' = remove_nth i (pool w) /\
      count is_job_done (trace w') = S (count is_job_done (trace w)) /\
      In (EvJobDone job') (trace w') /\
      count is_enqueue (trace w') =
        (count is_enqueue (trace w) + if finished st then 1 else 0)%nat /\
      (st = FINISHED -> In (EvEnqueueDependents queue job') (trace w'))) /\
  (forall w,
      let w' := snd (request_force_stop w) in
      pool w' = [] /\
      count is_job_done (trace w') =
        (count is_job_done (trace w) + List.length (pool w))%nat /\
      count is_enqueue (trace w') =
        (count is_enqueue (trace w) + finished_jobs (pool w))%nat) /\
  (forall kw horse ttl locks w0 burst ll df lf mj ws s o w' s',
      __init__ kw horse ttl locks = Ok w0 ->
      work burst ll df lf mj ws w0 s = (o, w', s') ->
      count is_spawn (trace w') =
        (count is_job_done (trace w') + List.length (pool w'))%nat).
Proof.
  split; [|split].
  - intros w i st job queue E job' w'. subst w'. simpl.
    destruct (greenlet_exit_trace i (Some st) w job queue E)
      as (d & Ed & Hd & Hp).
    destruct (count_job_done_events job' queue
                (Z.of_nat (List.length (remove_nth i (pool w)))))
      as (C1 & C2 & _).
    fold job' in Ed. rewrite Ed, !count_app, C1, C2.
    rewrite !(count_kill_worker _ d) by (auto; reflexivity).
    split; [exact Hp|]. split; [simpl; lia|]. split.
    { apply in_or_app. right. apply in_or_app. left.
      unfold job_done_events. apply in_or_app. right. simpl. auto. }
    split; [simpl; apply Nat.add_comm|].
    intros ->. apply in_or_app. right. apply in_or_app. left.
    unfold job_done_events. simpl. auto.
  - intros w w'. subst w'. unfold request_force_stop. simpl.
    apply (kill_all_counts (pool w)
             (emit EvPoolKill (emit (EvLog WARNING "Cold shut down.") w))).
    reflexivity.
  - intros kw horse ttl locks w0 burst ll df lf mj ws s o w' s' Hi H.
    destruct (init_pool_inv _ _ _ _ _ Hi) as [I0 _].
    pose proof (inv_count _ _ (work_pool_inv _ _ _ _ _ _ _ _ _ _ _ _ H I0))
      as K.
    rewrite in_flight_counts in K. unfold pool_len in K. lia.
Qed.

(** * Cold shutdown *)

Lemma frame_boot a b : boot a b -> frame a b.
Proof.
  intros [w w' H|w b'|w b']; [apply frame_step, step_search, search_inner, H| |];
    constructor; auto using incl_refl.
Qed.

Lemma startup_frame burst ll df lf ws w :
  frame w (startup burst ll df lf ws w).
Proof.
  apply (star_preorder boot frame);
    [apply frame_refl | apply frame_trans | apply frame_boot
    | apply startup_boot].
Qed.

Lemma cleanup_frame w : frame w (cleanup w).
Proof.
  unfold cleanup. destruct (is_horse w); [apply frame_refl|].
  destruct (scheduler w); constructor; auto using incl_refl.
Qed.

Lemma grows_cat (P : Event -> bool) w w' d :
  trace w' = d ++ trace w -> forallb P d = true -> grows P w w'.
Proof. intros E F. exists d. auto. Qed.

Lemma greenlet_exit_cancel i st w :
  grows cancel_event w (greenlet_exit i st w).
Proof.
  destruct (nth_error (pool w) i) as [[job queue]|] eqn:E.
  - destruct (greenlet_exit_trace i st w job queue E) as (d & Ed & Hd & _).
    rewrite app_assoc in Ed. eapply grows_cat; [exact Ed|].
    rewrite forallb_app. unfold job_done_events.
    destruct Hd as [-> | ->];
      destruct (finished (job_status (with_status st job))); reflexivity.
  - unfold greenlet_exit. rewrite E. apply grows_refl.
Qed.

Lemma kill_all_cancel n : forall w, grows cancel_event w (kill_all n w).
Proof.
  induction n as [|n IH]; intro w; simpl; [apply grows_refl|].
  eapply grows_trans; [apply greenlet_exit_cancel | apply IH].
Qed.

Lemma cold_handler_effect w :
  let w' := run_handler request_force_stop_h w in
  pool w' = [] /\
  grows cancel_event w w' /\
  count is_job_done (trace w') =
    (count is_job_done (trace w) + List.length (pool w))%nat /\
  exit_pending w' /\
  (stop_requested w = true -> stop_requested w' = true).
Proof.
  cbn [run_handler request_force_stop].
  set (w1 := emit EvPoolKill (emit (EvLog WARNING "Cold shut down.") w)).
  set (w2 := kill_all (List.length (pool w1)) w1).
  assert (G1 : grows cancel_event w w1)
    by (exists [EvPoolKill; EvLog WARNING "Cold shut down."];
        split; reflexivity).
  assert (G2 : grows cancel_event w w2)
    by (eapply grows_trans; [exact G1 | apply kill_all_cancel]).
  destruct (kill_all_counts (pool w1) w1 eq_refl) as (K1 & K2 & _).
  fold w2 in K1, K2.
  pose proof (frame_path _ _ (inner_steps _ _ (kill_all_inner
                (List.length (pool w1)) w1))) as F. fold w2 in F.
  assert (C1 : count is_job_done (trace w1) = count is_job_done (trace w))
    by reflexivity.
  assert (P1 : pool w1 = pool w) by reflexivity.
  assert (S1 : stop_requested w1 = stop_requested w) by reflexivity.
  rewrite C1, P1 in K2. clearbody w2. clearbody w1.
  unfold handle_system_error. unfold exit_pending.
  destruct (gevent_worker w2) eqn:G; cbn;
    rewrite ?G; repeat split; auto; try discriminate;
    intro Hs; apply (fr_stop _ _ F); congruence.
Qed.

Lemma cold_handler_again w :
  stop_requested w = true -> pool w = [] -> exit_pending w ->
  forall h,
    let w' := run_handler h w in
    pool w' = [] /\ grows cancel_event w w' /\
    count is_job_done (trace w') = count is_job_done (trace w) /\
    exit_pending w' /\ stop_requested w' = true.
Proof.
  intros Hs Hp Hx [|].
  - cbn [run_handler]. unfold request_stop. rewrite Hs.
    repeat split; auto; try apply Hx. apply grows_refl.
  - destruct (cold_handler_effect w) as (A & B & C & D & E).
    rewrite Hp in C. simpl in C. rewrite Nat.add_0_r in C.
    cbv zeta. split; [exact A|]. split; [exact B|]. split; [exact C|].
    split; [exact D | exact (E Hs)].
Qed.

Lemma fire_eq s w s' h :
  fire s w (s', h) = if signum_eqb s s' then run_handler h w else w.
Proof. reflexivity. Qed.

Lemma fire_after_kill s l : forall w,
  stop_requested w = true -> pool w = [] -> exit_pending w ->
  let w' := fold_left (fire s) l w in
  pool w' = [] /\ grows cancel_event w w' /\
  count is_job_done (trace w') = count is_job_done (trace w) /\
  exit_pending w'.
Proof.
  induction l as [|[s' h] l IH]; intros w Hs Hp Hx; cbn [fold_left].
  - cbv zeta. split; [exact Hp|]. split; [apply grows_refl|]. auto.
  - rewrite fire_eq. destruct (signum_eqb s s'); [|apply IH; auto].
    destruct (cold_handler_again w Hs Hp Hx h) as (A & B & C & D & E).
    destruct (IH _ E A D) as (A' & B' & C' & D').
    cbv zeta. split; [exact A'|]. split; [eapply grows_trans; eauto|].
    split; [congruence | exact D'].
Qed.

Lemma signum_eqb_refl s : signum_eqb s s = true.
Proof. now destruct s. Qed.

Lemma fire_cold s l : forall w,
  stop_requested w = true -> In (s, request_force_stop_h) l ->
  let w' := fold_left (fire s) l w in
  pool w' = [] /\ grows cancel_event w w' /\
  count is_job_done (trace w') =
    (count is_job_done (trace w) + List.length (pool w))%nat /\
  exit_pending w'.
Proof.
  assert (K : forall l w, stop_requested w = true ->
    let w' := fold_left (fire s) l (run_handler request_force_stop_h w) in
    pool w' = [] /\ grows cancel_event w w' /\
    count is_job_done (trace w') =
      (count is_job_done (trace w) + List.length (pool w))%nat /\
    exit_pending w').
  { intros l0 w Hs.
    destruct (cold_handler_effect w) as (A & B & C & D & E').
    destruct (fire_after_kill s l0 _ (E' Hs) A D) as (A' & B' & C' & D').
    cbv zeta. split; [exact A'|]. split; [eapply grows_trans; eauto|].
    split; [congruence | exact D']. }
  induction l as [|[s' h] l IH]; intros w Hs Hin; [contradiction|].
  cbn [fold_left]. rewrite fire_eq.
  destruct Hin as [E|Hin].
  - inversion E; subst s' h. rewrite signum_eqb_refl. apply K, Hs.
  - destruct (signum_eqb s s'); [|apply IH; auto].
    destruct h; [|apply K, Hs].
    cbn [run_handler]. unfold request_stop. rewrite Hs. apply IH; auto.
Qed.

Lemma cancel_event_excludes d :
  forallb cancel_event d = true ->
  ~ In EvPoolJoin d /\ ~ In EvRegisterDeath d.
Proof.
  rewrite forallb_forall. intro H.
  split; intro I; apply H in I; discriminate.
Qed.

Lemma hub_signal_fields s h w :
  watchers (hub_signal s h w) = watchers w ++ [(s, h)] /\
  stop_requested (hub_signal s h w) = stop_requested w.
Proof. split; reflexivity. Qed.

Lemma request_stop_resume_fields w :
  watchers (request_stop_resume w) = watchers w /\
  stop_requested (request_stop_resume w) = stop_requested w.
Proof.
  unfold request_stop_resume, throw. destruct (gevent_worker w); [|auto].
  cbn [interrupt emit]. destruct (interrupt w); auto.
Qed.

(** The warm handler arms the cold one. *)
Lemma request_stop_arms w s :
  stop_requested w = false ->
  stop_requested (request_stop w) = true /\
  In (s, request_force_stop_h) (watchers (request_stop w)).
Proof.
  intro E. unfold request_stop. rewrite E.
  generalize (if scheduler w then emit EvStopScheduler w else w). intro w1.
  set (w2 := hub_signal SIGTERM request_force_stop_h
               (hub_signal SIGINT request_force_stop_h w1)).
  assert (W2 : In (s, request_force_stop_h) (watchers w2)).
  { subst w2.
    rewrite (proj1 (hub_signal_fields _ _ _)),
            (proj1 (hub_signal_fields _ _ _)), <- app_assoc.
    apply in_or_app. right. destruct s; simpl; auto. }
  clearbody w2.
  set (w3 := emit EvPoolJoin _).
  assert (S3 : stop_requested w3 = true) by reflexivity.
  assert (W3 : watchers w3 = watchers w2) by reflexivity.
  assert (P3 : pool w3 = pool w2) by reflexivity.
  clearbody w3. rewrite <- W3 in W2.
  destruct (pool w3).
  - destruct (request_stop_resume_fields w3) as [-> ->]. auto.
  - auto.
Qed.

(** An exit of [_work] by return or exception has gone through the
    [finally] clause. *)
Lemma _work_exit_cleanup burst ll df lf mj ws w s o w' s' :
  _work burst ll df lf mj ws w s = (o, w', s') ->
  (exists b, o = Ok b) \/ (exists e, o = Raise e) ->
  exists w1, w' = cleanup w1 /\ is_horse w1 = is_horse w /\
             (forall b, o = Ok b -> b = did_perform_work w1).
Proof.
  unfold _work. intros H Ho.
  pose proof (startup_frame burst ll df lf ws w) as F0.
  destruct (work_loop _ burst _ s) as [[[u|h] w1] s1] eqn:E;
    pose proof (frame_path _ _ (work_loop_path _ _ _ _ _ _ _ E)) as F1.
  - inversion H; subst. exists w1. split; [reflexivity|]. split.
    + rewrite (fr_horse _ _ F1). apply F0.
    + intros b Hb. inversion Hb. unfold cleanup.
      destruct (is_horse w1); [reflexivity|].
      destruct (scheduler w1); reflexivity.
  - destruct h; inversion H; subst;
      try (destruct Ho as [[b Hb]|[e' He]]; discriminate).
    exists w1. split; [reflexivity|]. split.
    + rewrite (fr_horse _ _ F1). apply F0.
    + intros b Hb. discriminate.
Qed.

Lemma cleanup_deregisters w :
  is_horse w = false ->
  trace (cleanup w) =
    EvRegisterDeath ::
      (if scheduler w then [EvStopScheduler] else []) ++ trace w /\
  scheduler (cleanup w) = scheduler w.
Proof.
  intro H. unfold cleanup. rewrite H.
  destruct (scheduler w) eqn:Es; split; try reflexivity; exact Es.
Qed.

(** A run that ends because the process went down has not deregistered. *)
Lemma _work_process_exit burst ll df lf mj ws w s w' s' :
  _work burst ll df lf mj ws w s = (ProcessExit, w', s') ->
  grows not_register_death w w'.
Proof.
  unfold _work. intro H.
  assert (G0 : grows not_register_death w (startup burst ll df lf ws w)).
  { apply (grows_weaken inner_event); [intros []; simpl; auto|].
    apply (star_preorder boot (grows inner_event));
      [apply grows_refl | apply grows_trans | apply grows_boot
      | apply startup_boot]. }
  destruct (work_loop _ burst _ s) as [[[u|h] w1] s1] eqn:E;
    pose proof (grows_step_path _ _ (work_loop_path _ _ _ _ _ _ _ E)) as G1.
  - discriminate.
  - destruct h; inversion H; subst. eapply grows_trans; eauto.
Qed.

Lemma deliver_all_frame l : forall w, frame w (fold_left deliver l w).
Proof.
  intro w. apply frame_path, inner_steps, fold_left_star, deliver_inner.
Qed.

(** In continuous mode a cold signal in a tick takes the process down
    before the loop is resumed. *)
Lemma resume_cold_continuous w t s :
  gevent_worker w = true -> stop_requested w = true ->
  In (s, request_force_stop_h) (watchers w) ->
  In (Signal s) (asyncs t) ->
  fst (resume w t) = ProcessExit.
Proof.
  intros G Hs Hw Hin.
  destruct (in_split _ _ Hin) as (l1 & l2 & E).
  unfold resume. rewrite E, fold_left_app. cbn [fold_left deliver].
  set (w1 := fold_left deliver l1 w).
  pose proof (deliver_all_frame l1 w) as F1. fold w1 in F1.
  assert (X : exiting (deliver_signal s w1) = true).
  { unfold deliver_signal.
    destruct (fire_cold s (watchers w1) w1 (fr_stop _ _ F1 Hs)
                (fr_watchers _ _ F1 _ Hw)) as (_ & _ & _ & [Hx _]).
    apply Hx.
    pose proof (frame_path _ _ (inner_steps _ _ (deliver_signal_inner s w1)))
      as F2.
    unfold deliver_signal in F2. rewrite (fr_gw _ _ F2), (fr_gw _ _ F1).
    exact G. }
  pose proof (deliver_all_frame l2 (deliver_signal s w1)) as F3.
  now rewrite (fr_exiting _ _ F3 X).
Qed.

Lemma grows_not_in (P : Event -> bool) e w w' :
  P e = false -> grows P w w' ->
  exists d, trace w' = d ++ trace w /\ ~ In e d.
Proof.
  intros He (d & E & F). exists d. split; [exact E|].
  rewrite forallb_forall in F. intro I. apply F in I. congruence.
Qed.

(** C3, amended. A termination signal received after a warm shutdown has
    been requested cancels every in-flight execution (each one's callback
    runs) and raises SystemExit in its handler, without joining the pool and
    without a call of register_death by the handler.  In continuous mode the
    process then goes down with the loop parked, and the run has not
    deregistered; an exit that is raised in the loop itself, as in burst
    mode, unwinds through the cleanup of [_work], which deregisters. *)
Theorem cold_shutdown_kills_pool_and_exits :
  (forall w s,
      stop_requested w = false ->
      stop_requested (request_stop w) = true /\
      In (s, request_force_stop_h) (watchers (request_stop w))) /\
  (forall w s,
      stop_requested w = true ->
      In (s, request_force_stop_h) (watchers w) ->
      let w' := deliver w (Signal s) in
      pool w' = [] /\
      count is_job_done (trace w') =
        (count is_job_done (trace w) + List.length (pool w))%nat /\
      (exists d, trace w' = d ++ trace w /\
                 ~ In EvPoolJoin d /\ ~ In EvRegisterDeath d) /\
      exit_pending w') /\
  (forall w, fst (request_force_stop w) = Raise SystemExit) /\
  (forall w t s,
      gevent_worker w = true -> stop_requested w = true ->
      In (s, request_force_stop_h) (watchers w) ->
      In (Signal s) (asyncs t) ->
      fst (resume w t) = ProcessExit) /\
  (forall burst ll df lf mj ws w s w' s',
      _work burst ll df lf mj ws w s = (ProcessExit, w', s') ->
      exists d, trace w' = d ++ trace w /\ ~ In EvRegisterDeath d) /\
  (forall burst ll df lf mj ws w s e w' s',
      _work burst ll df lf mj ws w s = (Raise e, w', s') ->
      is_horse w = false ->
      exists tr, trace w' = EvRegisterDeath :: tr).
Proof.
  split; [intros; now apply request_stop_arms|].
  split.
  { intros w s Hs Hw w'. subst w'. cbn [deliver]. unfold deliver_signal.
    destruct (fire_cold s (watchers w) w Hs Hw) as (A & (d & Ed & Fd) & C & D).
    split; [exact A|]. split; [exact C|]. split; [|exact D].
    exists d. split; [exact Ed|]. now apply cancel_event_excludes. }
  split; [reflexivity|].
  split; [intros; eapply resume_cold_continuous; eauto|].
  split.
  { intros burst ll df lf mj ws w s w' s' H.
    apply (grows_not_in not_register_death); [reflexivity|].
    eapply _work_process_exit; eauto. }
  intros burst ll df lf mj ws w s e w' s' H Hh.
  destruct (_work_exit_cleanup _ _ _ _ _ _ _ _ _ _ _ H) as (w1 & -> & Eh & _);
    [right; eauto|].
  rewrite <- Eh in Hh.
  destruct (cleanup_deregisters w1 Hh) as [T _]. rewrite T. eauto.
Qed.

(** C3, as stated, fails: in burst mode the second signal kills the pool and
    raises SystemExit, and the exit then runs register_death on its way out
    of [_work]. *)
Lemma cold_shutdown_in_burst_mode_deregisters :
  __init__ None false 420 false = Ok default_worker /\
  fst (fst burst_cold_run) = Raise SystemExit /\
  firstn 6 (trace (snd (fst burst_cold_run))) =
    [ EvRegisterDeath;
      EvHsetCurrPoolLen 0; EvHeartbeat 0; EvJobDone job_a;
      EvPoolKill; EvLog WARNING "Cold shut down." ].
Proof.
  split; [reflexivity|]. split; vm_compute; reflexivity.
Qed.

Lemma after_warm_mono n n' w :
  (n <= n')%nat -> after_warm n w -> after_warm n' w.
Proof.
  unfold after_warm. intro L. destruct (stop_requested w); [|auto].
  intros (D & m & E & Lm). split; [exact D|]. exists m. split; [exact E | lia].
Qed.

Lemma after_warm_unset n n' w :
  stop_requested w = false -> after_warm n w -> after_warm n' w.
Proof. unfold after_warm. now intros ->. Qed.

Lemma since_warm_plain p e tr :
  is_warm e = false -> p e = false ->
  since_warm p (e :: tr) = since_warm p tr.
Proof. simpl. now intros -> ->. Qed.

Lemma noise_plain e : noise e = true -> plain e = true.
Proof.
  destruct e; simpl; intro H; try reflexivity; try discriminate.
  destruct l; [reflexivity|]. unfold plain. simpl.
  apply negb_true_iff in H. now rewrite H.
Qed.

Lemma plain_parts e :
  plain e = true ->
  is_warm e = false /\ is_spawn e = false /\ is_dequeue e = false.
Proof.
  unfold plain. intro H. apply negb_true_iff in H.
  apply orb_false_iff in H as [H H3]. apply orb_false_iff in H as [H1 H2].
  auto.
Qed.

Lemma after_warm_emit n e w :
  plain e = true -> after_warm n w -> after_warm n (emit e w).
Proof.
  intro P. destruct (plain_parts e P) as (W & S & D).
  unfold after_warm. cbn [stop_requested trace emit].
  now rewrite !since_warm_plain by assumption.
Qed.

Lemma after_warm_same n w w' :
  stop_requested w' = stop_requested w -> trace w' = trace w ->
  after_warm n w -> after_warm n w'.
Proof. unfold after_warm. now intros -> ->. Qed.

Lemma after_warm_inner n a b : inner a b -> after_warm n a -> after_warm n b.
Proof.
  intros H A. destruct H as [w e N|w w' S|w i st job queue E|w F].
  - apply after_warm_emit; [now apply noise_plain | exact A].
  - destruct S. eapply after_warm_same; eauto.
  - unfold job_done, heartbeat.
    assert (A0 : after_warm n (set_pool (remove_nth i (pool w)) w))
      by (eapply after_warm_same; [| |exact A]; reflexivity).
    assert (J : after_warm n
                  (emit (EvHsetCurrPoolLen
                           (pool_len (emit (EvHeartbeat 0)
                              (set_did_perform_work true
                                 (emit (EvJobDone (with_status st job))
                                    (set_pool (remove_nth i (pool w)) w))))))
                     (emit (EvHeartbeat 0)
                        (set_did_perform_work true
                           (emit (EvJobDone (with_status st job))
                              (set_pool (remove_nth i (pool w)) w)))))).
    { do 2 (apply after_warm_emit; [reflexivity|]).
      eapply after_warm_same; [reflexivity | reflexivity |].
      apply after_warm_emit; [reflexivity | exact A0]. }
    destruct (job_status (with_status st job)); exact J.
  - unfold after_warm. cbn [stop_requested set_stop_requested trace emit].
    split; [reflexivity|]. exists O. split; [reflexivity | lia].
Qed.

Lemma after_warm_search n a b :
  search a b -> after_warm n a -> after_warm n b.
Proof.
  intros [w w' H|w timeout F] A; [eapply after_warm_inner; eauto|].
  unfold after_warm in *. cbn [stop_requested trace emit].
  rewrite F in *. destruct A as [D S]. simpl. now rewrite D, S.
Qed.

Lemma after_warm_search_path n a b :
  star search a b -> after_warm n a -> after_warm n b.
Proof. apply star_invariant. intros; eapply after_warm_search; eauto. Qed.

Lemma after_warm_spawn n w job queue :
  after_warm n w ->
  after_warm (S n)
    (emit (EvSpawn job queue) (set_pool (pool w ++ [(job, queue)]) w)).
Proof.
  unfold after_warm. cbn [stop_requested trace emit set_pool].
  destruct (stop_requested w); simpl.
  - intros (D & m & E & L). split; [exact D|].
    exists (S m). rewrite E. split; [reflexivity | lia].
  - intros [D S']. now rewrite D, S'.
Qed.

Lemma pool_spawn_after_warm n job queue w s o w' s' :
  pool_spawn job queue w s = (o, w', s') ->
  after_warm n w -> after_warm (S n) w'.
Proof.
  intros H A. destruct o as [u|h].
  - destruct (pool_spawn_ok _ _ _ _ _ _ _ H) as (w1 & P & _ & ->).
    apply after_warm_spawn.
    eapply after_warm_search_path; [apply inner_search, P | exact A].
  - apply (after_warm_mono n); [lia|].
    eapply after_warm_search_path;
      [apply inner_search, (pool_spawn_halt _ _ _ _ _ _ _ H) | exact A].
Qed.

(** With the flag set an iteration hands no job to [execute_job]. *)
Lemma iteration_stopped burst w s o w' s' :
  stop_requested w = true ->
  iteration burst w s = (o, w', s') ->
  (o = Ok None \/ exists h, o = Halt h /\ h <> Unrolled) /\
  (s <> [] -> o <> Blocked).
Proof.
  unfold iteration, check_for_suspension. intros F H.
  destruct s as [|t s].
  - inversion H; subst. split; [|congruence].
    right. eexists. split; [reflexivity | discriminate].
  - destruct (resume _ t) as [[r|h] w1] eqn:E.
    + pose proof (frame_path _ _ (inner_steps _ _ (resume_path _ _ _ _ E)))
        as F1.
      assert (S1 : stop_requested w1 = true) by (apply (fr_stop _ _ F1), F).
      assert (S2 : stop_requested
                     (if should_run_maintenance_tasks w1
                      then run_maintenance_tasks w1 else w1) = true)
        by (destruct (should_run_maintenance_tasks w1); exact S1).
      rewrite S2 in H. inversion H; subst. split; [auto | discriminate].
    + inversion H; subst. unfold resume in E.
      destruct (exiting _); [inversion E; subst|].
      * split; [|discriminate].
        right. eexists. split; [reflexivity | discriminate].
      * destruct (interrupt _); [inversion E; subst|].
        -- split; [|discriminate].
           right. eexists. split; [reflexivity | discriminate].
        -- destruct (reply_of t); inversion E; subst.
           split; [|discriminate].
           right. eexists. split; [reflexivity | discriminate].
Qed.

Lemma guarded_iteration_stopped burst w s o w' s' :
  stop_requested w = true ->
  guarded_iteration burst w s = (o, w', s') ->
  (o = Ok None \/ exists h, o = Halt h /\ h <> Unrolled) /\
  (s <> [] -> o <> Blocked).
Proof.
  unfold guarded_iteration. intros F H.
  destruct (iteration burst w s) as [[o1 w1] s1] eqn:E.
  destruct (iteration_stopped _ _ _ _ _ _ F E) as [[->|(h & -> & Hh)] B].
  - inversion H; subst. split; [auto | discriminate].
  - destruct h as [[]| | |]; inversion H; subst;
      (split; [|first [exact B | discriminate]]);
      first [ left; reflexivity
            | right; eexists; split;
              [reflexivity | first [discriminate | exact Hh]] ].
Qed.

Lemma work_loop_after_warm burst fuel : forall w s o w' s',
  work_loop fuel burst w s = (o, w', s') ->
  after_warm 1 w -> after_warm 1 w'.
Proof.
  induction fuel as [|fuel IH]; intros w s o w' s' H A; simpl in H.
  - inversion H; subst. exact A.
  - destruct (guarded_iteration burst w s) as [[o1 w1] s1] eqn:E.
    pose proof (guarded_iteration_path _ _ _ _ _ _ E) as P.
    destruct (stop_requested w) eqn:F.
    + destruct (guarded_iteration_stopped _ _ _ _ _ _ F E)
        as [[->|(h & -> & _)] _]; inversion H; subst;
        eapply after_warm_search_path; eauto.
    + apply (after_warm_unset 1 0 _ F) in A.
      apply (after_warm_search_path _ _ _ P) in A.
      destruct o1 as [[[job queue]|]|h].
      * unfold execute_job in H.
        destruct (pool_spawn job queue w1 s1) as [[o2 w2] s2] eqn:S.
        apply (pool_spawn_after_warm _ _ _ _ _ _ _ _ S) in A.
        destruct o2; [eapply IH; eauto | inversion H; subst; exact A].
      * inversion H; subst. eapply after_warm_mono; [|exact A]. lia.
      * inversion H; subst. eapply after_warm_mono; [|exact A]. lia.
Qed.

Lemma after_warm_boot n a b : boot a b -> after_warm n a -> after_warm n b.
Proof.
  intros [w w' H|w b'|w b'] A; [eapply after_warm_inner; eauto| |];
    (eapply after_warm_same; [| |exact A]; reflexivity).
Qed.

Lemma cleanup_after_warm n w : after_warm n w -> after_warm n (cleanup w).
Proof.
  intro A. unfold cleanup. destruct (is_horse w); [exact A|].
  destruct (scheduler w); repeat (apply after_warm_emit; [reflexivity|]);
    exact A.
Qed.

Lemma _work_after_warm burst ll df lf mj ws w s o w' s' :
  _work burst ll df lf mj ws w s = (o, w', s') ->
  after_warm 1 w -> after_warm 1 w'.
Proof.
  unfold _work. intros H A.
  assert (A0 : after_warm 1 (startup burst ll df lf ws w)).
  { revert A. apply (star_invariant boot (after_warm 1));
      [intros; eapply after_warm_boot; eauto | apply startup_boot]. }
  destruct (work_loop _ burst _ s) as [[[u|h] w1] s1] eqn:E;
    apply work_loop_after_warm in E; auto.
  - inversion H; subst. now apply cleanup_after_warm.
  - destruct h; inversion H; subst; auto. now apply cleanup_after_warm.
Qed.

Lemma work_after_warm burst ll df lf mj ws w s o w' s' :
  work burst ll df lf mj ws w s = (o, w', s') ->
  after_warm 1 w -> after_warm 1 w'.
Proof.
  unfold work. intros H A. destruct burst.
  - destruct (_work true ll _ _ None ws w s) as [[[b|h] w1] s1] eqn:E;
      apply _work_after_warm in E; auto; inversion H; subst; exact E.
  - destruct (_work false _ _ _ None ws _ s) as [[[b|h] w1] s1] eqn:E;
      apply _work_after_warm in E;
      try (eapply after_warm_same; [| |exact A]; reflexivity).
    + inversion H; subst; exact E.
    + destruct h as [[]| | |]; inversion H; subst; exact E.
Qed.

Lemma count_cons p e tr :
  count p (e :: tr) = ((if p e then 1 else 0) + count p tr)%nat.
Proof. unfold count. simpl. now destruct (p e). Qed.

Lemma count_none p d :
  (forall e, In e d -> p e = false) -> count p d = O.
Proof.
  induction d as [|e d IH]; intro H; [reflexivity|].
  rewrite count_cons, (H e (or_introl eq_refl)), IH; [reflexivity|].
  intros e' I. apply H. now right.
Qed.

Lemma grows_inner_counts a b :
  grows inner_event a b ->
  count is_spawn (trace b) = count is_spawn (trace a) /\
  count is_dequeue (trace b) = count is_dequeue (trace a).
Proof.
  intros (d & -> & F). rewrite forallb_forall in F.
  rewrite !count_app.
  rewrite (count_none is_spawn d), (count_none is_dequeue d); auto;
    intros e I; apply F in I; destruct e; simpl in *; congruence.
Qed.

(** With the flag set the search part of the loop admits and dequeues
    nothing, and the flag stays set. *)
Lemma stopped_search a b :
  star search a b -> stop_requested a = true ->
  stop_requested b = true /\
  count is_spawn (trace b) = count is_spawn (trace a) /\
  count is_dequeue (trace b) = count is_dequeue (trace a).
Proof.
  intros P F.
  apply (star_invariant search
           (fun x => stop_requested x = true /\
                     count is_spawn (trace x) = count is_spawn (trace a) /\
                     count is_dequeue (trace x) = count is_dequeue (trace a)))
    with (a := a); auto.
  intros x y [x0 y0 H|x0 timeout Fx] (Sx & C1 & C2); [|congruence].
  destruct (grows_inner_counts _ _ (grows_inner _ _ H)) as [D1 D2].
  split; [|split; congruence].
  apply (fr_stop _ _ (frame_step _ _ (step_search _ _ (search_inner _ _ H)))).
  exact Sx.
Qed.

(** C2. Once the dispatch loop finds the stop flag set it admits no job and
    leaves the loop: from a state with the flag set, [work_loop] makes no
    admission and no call of [dequeue_any] and ends as soon as the call it is
    parked in comes back, and [dequeue_job_and_maintain_ttl] raises
    StopRequested without dequeuing.  In a whole run of [work] at most one
    job is admitted after the warm shutdown is requested: one that a dequeue
    call returned before the loop next tested the flag. *)
Theorem no_admission_after_stop_observed :
  (forall burst fuel w s o w' s',
      stop_requested w = true ->
      work_loop (S fuel) burst w s = (o, w', s') ->
      count is_spawn (trace w') = count is_spawn (trace w) /\
      count is_dequeue (trace w') = count is_dequeue (trace w) /\
      (o = Ok tt \/ exists h, o = Halt h /\ h <> Unrolled) /\
      (s <> [] -> o <> Blocked)) /\
  (forall timeout w s,
      stop_requested w = true ->
      dequeue_job_and_maintain_ttl timeout w s = (Raise StopRequested, w, s)) /\
  (forall kw horse ttl locks w0 burst ll df lf mj ws s o w' s',
      __init__ kw horse ttl locks = Ok w0 ->
      work burst ll df lf mj ws w0 s = (o, w', s') ->
      stop_requested w' = true ->
      exists m, since_warm is_spawn (trace w') = Some m /\ (m <= 1)%nat).
Proof.
  split; [|split].
  - intros burst fuel w s o w' s' F H. simpl in H.
    destruct (guarded_iteration burst w s) as [[o1 w1] s1] eqn:E.
    destruct (stopped_search _ _ (guarded_iteration_path _ _ _ _ _ _ E) F)
      as (_ & C1 & C2).
    destruct (guarded_iteration_stopped _ _ _ _ _ _ F E)
      as [[->|(h & -> & Hh)] B]; inversion H; subst.
    + split; [exact C1|]. split; [exact C2|]. split; [now left|].
      discriminate.
    + split; [exact C1|]. split; [exact C2|]. split; [right; eauto|].
      intros Hs Hb. apply (B Hs). inversion Hb. reflexivity.
  - intros timeout w s F. unfold dequeue_job_and_maintain_ttl. now rewrite F.
  - intros kw horse ttl locks w0 burst ll df lf mj ws s o w' s' Hi H F.
    destruct (init_fields _ _ _ _ _ Hi) as (Et & _ & _ & _ & Es & _).
    assert (A : after_warm 1 w0)
      by (unfold after_warm; rewrite Es, Et; split; reflexivity).
    apply (work_after_warm _ _ _ _ _ _ _ _ _ _ _ H) in A.
    unfold after_warm in A. rewrite F in A. exact (proj2 A).
Qed.

Ltac grow_more :=
  repeat match goal with
  | |- grows _ _ (emit _ _) => apply grows_emit; [reflexivity|]
  | |- grows _ _ (set_stop_requested _ ?x) =>
      apply (grows_same _ _ x); [reflexivity|]
  | |- grows _ _ (set_join_waiting _ ?x) =>
      apply (grows_same _ _ x); [reflexivity|]
  | |- grows _ _ (set_interrupt _ ?x) =>
      apply (grows_same _ _ x); [reflexivity|]
  | |- grows _ _ (set_exiting _ ?x) =>
      apply (grows_same _ _ x); [reflexivity|]
  | |- grows _ _ (set_watchers _ ?x) =>
      apply (grows_same _ _ x); [reflexivity|]
  | |- grows _ _ (set_maintenance _ ?x) =>
      apply (grows_same _ _ x); [reflexivity|]
  end; try apply grows_refl.

Lemma cancel_is_bg e : cancel_event e = true -> bg_event e = true.
Proof. destruct e; simpl; try discriminate; auto. now destruct l. Qed.

Lemma bg_is_dq e : bg_event e = true -> dq_event e = true.
Proof. unfold dq_event. now intros ->. Qed.

Lemma request_stop_resume_bg w : grows bg_event w (request_stop_resume w).
Proof.
  unfold request_stop_resume, throw.
  destruct (gevent_worker w); [|apply grows_refl].
  cbn [interrupt emit]. destruct (interrupt w); grow_more.
Qed.

Lemma hub_signal_bg s h w : grows bg_event w (hub_signal s h w).
Proof. unfold hub_signal. grow_more. Qed.

Lemma request_stop_bg w : grows bg_event w (request_stop w).
Proof.
  unfold request_stop. destruct (stop_requested w); [apply grows_refl|].
  set (w1 := if scheduler w then emit EvStopScheduler w else w).
  assert (G1 : grows bg_event w w1)
    by (subst w1; destruct (scheduler w); grow_more).
  clearbody w1.
  set (w2 := hub_signal SIGTERM request_force_stop_h
               (hub_signal SIGINT request_force_stop_h w1)).
  assert (G2 : grows bg_event w w2).
  { subst w2. eapply grows_trans; [exact G1|].
    eapply grows_trans; apply hub_signal_bg. }
  clearbody w2.
  set (w3 := emit EvPoolJoin _).
  assert (G3 : grows bg_event w w3).
  { subst w3. eapply grows_trans; [exact G2|]. grow_more. }
  clearbody w3.
  destruct (pool w3).
  - eapply grows_trans; [exact G3 | apply request_stop_resume_bg].
  - eapply grows_trans; [exact G3|]. grow_more.
Qed.

Lemma run_handler_bg h w : grows bg_event w (run_handler h w).
Proof.
  destruct h; [apply request_stop_bg|].
  apply (grows_weaken cancel_event); [apply cancel_is_bg|].
  apply cold_handler_effect.
Qed.

Lemma fold_left_grows {A : Type} (P : Event -> bool)
    (f : Worker -> A -> Worker) (l : list A) :
  (forall w a, grows P w (f w a)) ->
  forall w, grows P w (fold_left f l w).
Proof.
  intro Hf. induction l as [|a l IH]; intro w; simpl; [apply grows_refl|].
  eapply grows_trans; [apply Hf | apply IH].
Qed.

Lemma deliver_bg w a : grows bg_event w (deliver w a).
Proof.
  destruct a; cbn [deliver].
  - apply (grows_weaken cancel_event); [apply cancel_is_bg|].
    apply greenlet_exit_cancel.
  - unfold deliver_signal. apply fold_left_grows.
    intros w' [s' h]. rewrite fire_eq.
    destruct (signum_eqb s s'); [apply run_handler_bg | apply grows_refl].
  - grow_more.
Qed.

Lemma resume_bg w t o w1 : resume w t = (o, w1) -> grows bg_event w w1.
Proof.
  unfold resume. intro H.
  pose proof (fold_left_grows bg_event deliver (asyncs t) deliver_bg w) as G.
  destruct (exiting _); [inversion H; subst; exact G|].
  destruct (interrupt _); inversion H; subst; [|exact G].
  eapply grows_trans; [exact G|]. grow_more.
Qed.

Lemma resume_emit_dq e w t o w1 :
  dq_event e = true -> resume (emit e w) t = (o, w1) -> grows dq_event w w1.
Proof.
  intros He H. apply resume_bg in H.
  eapply grows_trans;
    [|eapply grows_weaken; [apply bg_is_dq | exact H]].
  apply grows_emit; [exact He | apply grows_refl].
Qed.

Lemma wait_while_full_dq s : forall w o w' s',
  wait_while_full w s = (o, w', s') -> grows dq_event w w'.
Proof.
  induction s as [|t s IH]; intros w o w' s' H; simpl in H.
  - destruct (full w); inversion H; subst; grow_more.
  - destruct (full w); [|inversion H; subst; apply grows_refl].
    destruct (resume (emit EvSleep w) t) as [[r|h] w1] eqn:E;
      apply resume_emit_dq in E; try reflexivity.
    + destruct (stop_requested w1); [inversion H; subst; exact E|].
      eapply grows_trans; [exact E | eapply IH; exact H].
    + inversion H; subst. exact E.
Qed.

Lemma heartbeat_bg t w : grows bg_event w (heartbeat t w).
Proof. unfold heartbeat. grow_more. Qed.

Lemma dequeue_loop_dq timeout fuel : forall w s o w' s',
  dequeue_loop fuel timeout w s = (o, w', s') -> grows dq_event w w'.
Proof.
  induction fuel as [|fuel IH]; intros w s o w' s' H; simpl in H.
  - inversion H; subst. apply grows_refl.
  - destruct (stop_requested w); [inversion H; subst; apply grows_refl|].
    set (w0 := heartbeat 0 w) in H.
    set (wa := if full w0 then _ else w0) in H.
    assert (Ga : grows dq_event w wa).
    { eapply grows_trans;
        [eapply grows_weaken; [apply bg_is_dq | apply (heartbeat_bg 0 w)]|].
      fold w0. subst wa. destruct (full w0); unfold set_state; grow_more. }
    clearbody wa.
    destruct (wait_while_full wa s) as [[[u|h] w1] s1] eqn:W;
      apply wait_while_full_dq in W;
      pose proof (grows_trans _ _ _ _ Ga W) as G1.
    + destruct s1 as [|t s2].
      * inversion H; subst. grow_more. exact G1.
      * destruct (resume _ t) as [[r|h] w2] eqn:E;
          apply resume_emit_dq in E; try reflexivity;
          pose proof (grows_trans _ _ _ _ G1 E) as G2.
        -- inversion H; subst. destruct r; unfold set_state; grow_more;
             exact G2.
        -- destruct h as [[]| | |]; try (inversion H; subst; exact G2).
           eapply grows_trans; [exact G2 | eapply IH; exact H].
    + inversion H; subst. exact G1.
Qed.

Lemma dequeue_job_dq timeout w s o w' s' :
  dequeue_job_and_maintain_ttl timeout w s = (o, w', s') ->
  grows dq_event w w'.
Proof.
  unfold dequeue_job_and_maintain_ttl. intro H.
  destruct (stop_requested w); [inversion H; subst; apply grows_refl|].
  destruct (dequeue_loop _ timeout w s) as [[[r|h] w1] s1] eqn:E;
    apply dequeue_loop_dq in E; inversion H; subst; [|exact E].
  eapply grows_trans; [exact E|].
  eapply grows_weaken; [apply bg_is_dq | apply heartbeat_bg].
Qed.

Lemma grows_count (P p : Event -> bool) a b :
  (forall e, P e = true -> p e = false) ->
  grows P a b -> count p (trace b) = count p (trace a).
Proof.
  intros HP (d & -> & F). rewrite forallb_forall in F.
  rewrite count_app, (count_none p d); auto.
Qed.

Lemma dq_not_switch e : dq_event e = true -> is_switch e = false.
Proof. destruct e; simpl; auto; discriminate. Qed.

Lemma bg_not_switch e : bg_event e = true -> is_switch e = false.
Proof. destruct e; simpl; auto; discriminate. Qed.

Lemma hub_switch_once w s o w' s' :
  hub_switch w s = (o, w', s') ->
  count is_switch (trace w') = S (count is_switch (trace w)).
Proof.
  unfold hub_switch. destruct s as [|t s]; intro H.
  - inversion H; subst. reflexivity.
  - destruct (resume _ t) as [[r|h] w1] eqn:E; apply resume_bg in E;
      apply (grows_count bg_event is_switch _ _ bg_not_switch) in E.
    + inversion H; subst. rewrite E. reflexivity.
    + assert (w' = w1) as ->
        by (destruct h as [[]| | |]; inversion H; reflexivity).
      rewrite E. reflexivity.
Qed.

(** C6. In burst mode, when a dequeue attempt returns empty the loop yields
    to the hub exactly once and then makes exactly one more attempt, whose
    result is the result of the iteration: a job is handed on, and an empty
    result ends the loop without a further retry.  When the first attempt is
    not empty, or in continuous mode, there is no yield and no retry. *)
Theorem burst_retries_exactly_once :
  (forall timeout w s w1 s1 o w' s',
      dequeue_job_and_maintain_ttl timeout w s = (Ok None, w1, s1) ->
      dequeue_with_retry true timeout w s = (o, w', s') ->
      count is_switch (trace w') = S (count is_switch (trace w)) /\
      exists o2 w2 s2,
        hub_switch (emit (EvLog INFO "RQ worker {0!r} done, quitting") w1) s1
          = (o2, w2, s2) /\
        match o2 with
        | Ok _ => dequeue_job_and_maintain_ttl timeout w2 s2 = (o, w', s')
        | Halt h => (o, w', s') = (Halt h, w2, s2)
        end) /\
  (forall burst timeout w s r w1 s1,
      dequeue_job_and_maintain_ttl timeout w s = (r, w1, s1) ->
      burst = false \/ r <> Ok None ->
      dequeue_with_retry burst timeout w s = (r, w1, s1) /\
      count is_switch (trace w1) = count is_switch (trace w)) /\
  (forall fuel w s w' s',
      guarded_iteration true w s = (Ok None, w', s') ->
      work_loop (S fuel) true w s = (Ok tt, w', s')).
Proof.
  split; [|split].
  - intros timeout w s w1 s1 o w' s' H1 H.
    pose proof (grows_count dq_event is_switch _ _ dq_not_switch
                  (dequeue_job_dq _ _ _ _ _ _ H1)) as C1.
    unfold dequeue_with_retry in H. rewrite H1 in H.
    destruct (hub_switch _ s1) as [[o2 w2] s2] eqn:S.
    pose proof (hub_switch_once _ _ _ _ _ S) as C2.
    cbn [trace emit] in C2. rewrite count_cons in C2. simpl in C2.
    destruct o2 as [u|h].
    + pose proof (grows_count dq_event is_switch _ _ dq_not_switch
                    (dequeue_job_dq _ _ _ _ _ _ H)) as C3.
      split; [congruence|]. exists (Ok u), w2, s2. auto.
    + inversion H; subst. split; [congruence|].
      exists (Halt h), w', s'. auto.
  - intros burst timeout w s r w1 s1 H1 Hc.
    pose proof (grows_count dq_event is_switch _ _ dq_not_switch
                  (dequeue_job_dq _ _ _ _ _ _ H1)) as C1.
    split; [|exact C1].
    unfold dequeue_with_retry. rewrite H1.
    destruct r as [[p|]|h]; try reflexivity.
    destruct Hc as [->|Hc]; [reflexivity | congruence].
  - intros fuel w s w' s' H. simpl. now rewrite H.
Qed.

Lemma attempts_ok_heartbeats t tr :
  attempts_ok t tr -> heartbeat_before_each_dequeue tr.
Proof.
  induction tr as [|e tr IH]; simpl; [auto|].
  destruct e; auto. intros (_ & F & A). auto.
Qed.

(** C8, as stated, fails in its bound: with a dequeue timeout of one second
    the loop has polled the full pool for twelve tenths of a second since
    its last heartbeat, and is still polling. *)
Lemma heartbeat_gap_exceeds_dequeue_timeout :
  __init__ (Some (Some 1)) false 61 false = Ok small_worker /\
  dequeue_timeout false 61 = Some 1 /\
  fst (fst full_pool_run) = Blocked /\
  sleeps_since_heartbeat (trace (snd (fst full_pool_run))) = 13%nat /\
  (10 * 1 < Z.of_nat 13 - 1).
Proof.
  split; [reflexivity|]. split; [reflexivity|].
  split; [vm_compute; reflexivity|].
  split; [vm_compute; reflexivity | reflexivity].
Qed.

Lemma dequeue_job_returns_fresh timeout w s r w' s' :
  dequeue_job_and_maintain_ttl timeout w s = (Ok r, w', s') ->
  exists w1, w' = heartbeat 0 w1.
Proof.
  unfold dequeue_job_and_maintain_ttl. intro H.
  destruct (stop_requested w); [discriminate|].
  destruct (dequeue_loop _ timeout w s) as [[[r1|h] w1] s1]; inversion H.
  now exists w1.
Qed.

(** C8, amended. A heartbeat is performed before each dequeue attempt,
    after the attempt before it; again after the dequeue call returns; and
    exactly once inside each job-completion callback.  (No heartbeat is
    performed while the loop waits for a slot of a full pool, so the interval
    between heartbeats is not bounded by the dequeue timeout.) *)
Theorem heartbeats_around_dequeue_and_completion :
  (forall kw horse ttl locks w0 burst ll df lf mj ws s o w' s',
      __init__ kw horse ttl locks = Ok w0 ->
      work burst ll df lf mj ws w0 s = (o, w', s') ->
      heartbeat_before_each_dequeue (trace w')) /\
  (forall timeout w s r w' s',
      dequeue_job_and_maintain_ttl timeout w s = (Ok r, w', s') ->
      exists n tr, trace w' = EvHsetCurrPoolLen n :: EvHeartbeat 0 :: tr /\
                   fresh (trace w') = true) /\
  (forall job queue w,
      count is_heartbeat (trace (job_done job queue w)) =
      S (count is_heartbeat (trace w))).
Proof.
  split; [|split].
  - intros kw horse ttl locks w0 burst ll df lf mj ws s o w' s' Hi H.
    destruct (init_fields _ _ _ _ _ Hi) as (Et & _).
    apply (attempts_ok_heartbeats
             (dequeue_timeout burst (default_worker_ttl w0))).
    eapply work_attempts; [exact H|]. rewrite Et. exact Logic.I.
  - intros timeout w s r w' s' H.
    destruct (dequeue_job_returns_fresh _ _ _ _ _ _ H) as (w1 & ->).
    unfold heartbeat. cbn [trace emit]. eauto.
  - intros job queue w. rewrite job_done_trace, count_app.
    unfold job_done_events.
    destruct (finished (job_status job)); reflexivity.
Qed.

Lemma did_rel_refl w : did_rel w w.
Proof. exists []. simpl. now rewrite orb_false_r. Qed.

Lemma did_rel_trans a b c : did_rel a b -> did_rel b c -> did_rel a c.
Proof.
  intros (d1 & E1 & F1) (d2 & E2 & F2). exists (d2 ++ d1). split.
  - rewrite E2, E1. now rewrite app_assoc.
  - rewrite F2, F1, existsb_app, <- orb_assoc.
    f_equal. apply orb_comm.
Qed.

Lemma did_rel_emit e w : is_job_done e = false -> did_rel w (emit e w).
Proof.
  intro H. exists [e]. split; [reflexivity|]. simpl.
  now rewrite H, orb_false_r.
Qed.

Lemma did_rel_same w w' :
  trace w' = trace w -> did_perform_work w' = did_perform_work w ->
  did_rel w w'.
Proof. intros T D. exists []. simpl. now rewrite orb_false_r. Qed.

Lemma noise_not_done e : noise e = true -> is_job_done e = false.
Proof. destruct e; simpl; auto; discriminate. Qed.

Lemma did_rel_inner a b : inner a b -> did_rel a b.
Proof.
  intros [w e N|w w' S|w i st job queue E|w F].
  - apply did_rel_emit. now apply noise_not_done.
  - destruct S. now apply did_rel_same.
  - exists (job_done_events (with_status st job) queue
              (pool_len (set_pool (remove_nth i (pool w)) w))).
    split; [now rewrite job_done_trace|].
    rewrite (proj2 (proj2 (job_done_fields _ _ _))).
    unfold job_done_events.
    destruct (finished _); simpl; now rewrite !orb_true_r.
  - exists [EvLog WARNING WARM_MSG2; EvLog WARNING WARM_MSG].
    split; [reflexivity|]. simpl. now rewrite orb_false_r.
Qed.

Lemma did_rel_step a b : step a b -> did_rel a b.
Proof.
  intros [w w' [w1 w2 H|w1 timeout F]|w job queue F].
  - now apply did_rel_inner.
  - now apply did_rel_emit.
  - exists [EvSpawn job queue]. split; [reflexivity|].
    simpl. now rewrite orb_false_r.
Qed.

Lemma did_rel_path a b : star step a b -> did_rel a b.
Proof.
  apply star_preorder;
    [apply did_rel_refl | apply did_rel_trans | apply did_rel_step].
Qed.

Lemma grows_not_done w w' :
  grows not_done w w' ->
  exists d, trace w' = d ++ trace w /\ existsb is_job_done d = false.
Proof.
  intros (d & E & F). exists d. split; [exact E|].
  clear E. induction d as [|e d IH]; [reflexivity|].
  simpl in *. apply andb_true_iff in F as [Fe Fd].
  rewrite (IH Fd). unfold not_done in Fe.
  apply negb_true_iff in Fe. now rewrite Fe.
Qed.

Lemma start_scheduler_not_done burst ll df lf w :
  grows not_done w (start_scheduler burst ll df lf w) /\
  did_perform_work (start_scheduler burst ll df lf w) = did_perform_work w.
Proof.
  unfold start_scheduler.
  set (w1 := emit EvAcquireLocks _).
  assert (G1 : grows not_done w w1) by (subst w1; grow).
  assert (D1 : did_perform_work w1 = did_perform_work w) by reflexivity.
  clearbody w1.
  destruct (acquires_locks w1); [destruct burst|];
    (split; [eapply grows_trans; [exact G1|]; grow | exact D1]).
Qed.

Lemma startup_not_done burst ll df lf ws w :
  grows not_done w (startup burst ll df lf ws w) /\
  did_perform_work (startup burst ll df lf ws w) = false.
Proof.
  unfold startup.
  set (w1 := _install_signal_handlers _).
  assert (G1 : grows not_done w w1)
    by (subst w1; unfold _install_signal_handlers, hub_signal; grow).
  clearbody w1.
  set (w2 := set_state _ _).
  assert (G2 : grows not_done w w2).
  { subst w2. unfold set_state, register_birth.
    eapply grows_trans; [exact G1|]. grow. }
  assert (D2 : did_perform_work w2 = false) by reflexivity.
  clearbody w2. destruct ws; [|auto].
  destruct (start_scheduler_not_done burst ll df lf w2) as [G3 D3].
  split; [eapply grows_trans; eauto | congruence].
Qed.

Lemma cleanup_not_done w :
  grows not_done w (cleanup w) /\
  did_perform_work (cleanup w) = did_perform_work w.
Proof.
  unfold cleanup. destruct (is_horse w); [split; [apply grows_refl | auto]|].
  destruct (scheduler w); (split; [grow | reflexivity]).
Qed.

(** The value returned by [_work] tells whether a completion callback ran
    during the call. *)
Lemma _work_return_value burst ll df lf mj ws w s b w' s' :
  _work burst ll df lf mj ws w s = (Ok b, w', s') ->
  exists d, trace w' = d ++ trace w /\ b = existsb is_job_done d.
Proof.
  unfold _work. intro H.
  destruct (startup_not_done burst ll df lf ws w) as [G0 D0].
  apply grows_not_done in G0 as (d0 & E0 & F0).
  destruct (work_loop _ burst _ s) as [[[u|h] w1] s1] eqn:E;
    [|destruct h; discriminate].
  apply work_loop_path, did_rel_path in E. destruct E as (d1 & E1 & F1).
  destruct (cleanup_not_done w1) as [G2 D2].
  apply grows_not_done in G2 as (d2 & E2 & F2).
  inversion H; subst. exists (d2 ++ d1 ++ d0). split.
  - rewrite E2, E1, E0. now rewrite !app_assoc.
  - rewrite D2, F1, D0, !existsb_app, F2, F0. simpl.
    now rewrite orb_false_r.
Qed.

Lemma calm_emit e w : calm w -> calm (emit e w).
Proof. intros []. constructor; auto. Qed.

Lemma calm_heartbeat t w : calm w -> calm (heartbeat t w).
Proof. intro C. unfold heartbeat. now apply calm_emit, calm_emit. Qed.

Lemma resume_quiet w rep :
  exiting w = false -> interrupt w = None ->
  resume w (mkTick [] rep) =
  (match rep with Ret r => Ok r | Exc e => Raise e end, w).
Proof. intros X I. unfold resume. simpl. now rewrite X, I. Qed.

Lemma wait_not_full w s :
  full w = false -> wait_while_full w s = (Ok tt, w, s).
Proof. intro F. destruct s; simpl; now rewrite F. Qed.

Lemma check_for_suspension_quiet burst w r s :
  calm w ->
  check_for_suspension burst w (quiet_tick r :: s) =
  (Ok tt, emit (EvCheckForSuspension burst) w, s).
Proof.
  intros []. unfold check_for_suspension, quiet_tick.
  now rewrite resume_quiet.
Qed.

Lemma dequeue_job_quiet timeout w r s :
  calm w ->
  exists w',
    dequeue_job_and_maintain_ttl timeout w (quiet_tick r :: s) = (Ok r, w', s)
    /\ calm w'.
Proof.
  intro C. pose proof C as [X I S F D].
  unfold dequeue_job_and_maintain_ttl. rewrite S.
  cbn [List.length dequeue_loop]. rewrite S.
  change (full (heartbeat 0 w)) with (full w). rewrite F.
  rewrite wait_not_full by exact F.
  unfold quiet_tick. rewrite resume_quiet by assumption.
  eexists. split; [reflexivity|].
  apply calm_heartbeat. destruct r; repeat apply calm_emit; exact C.
Qed.

Lemma hub_switch_quiet w rep s :
  calm w ->
  rep = Exc LoopExit \/ is_ret rep = true ->
  hub_switch w (mkTick [] rep :: s) = (Ok tt, emit EvHubSwitch w, s).
Proof.
  intros [] Hr. unfold hub_switch. rewrite resume_quiet by assumption.
  destruct Hr as [->|Hr]; [reflexivity|].
  destruct rep; [reflexivity | discriminate].
Qed.

Lemma iteration_empty_burst w r1 rep rest :
  calm w ->
  rep = Exc LoopExit \/ is_ret rep = true ->
  exists w',
    iteration true w
      (quiet_tick r1 :: quiet_tick None :: mkTick [] rep :: quiet_tick None
         :: rest) = (Ok None, w', rest) /\ calm w'.
Proof.
  intros C Hr. unfold iteration.
  rewrite check_for_suspension_quiet by exact C.
  set (w1 := emit (EvCheckForSuspension true) w).
  assert (C1 : calm w1) by now apply calm_emit.
  clearbody w1.
  set (w2 := if should_run_maintenance_tasks w1 then _ else w1).
  assert (C2 : calm w2).
  { subst w2. destruct (should_run_maintenance_tasks w1); [|exact C1].
    destruct C1. constructor; auto. }
  clearbody w2. rewrite (calm_stop _ C2).
  generalize (dequeue_timeout true (default_worker_ttl w2)). intro t.
  unfold dequeue_with_retry.
  destruct (dequeue_job_quiet t w2 None
              (mkTick [] rep :: quiet_tick None :: rest) C2) as (w3 & -> & C3).
  rewrite hub_switch_quiet by (auto using calm_emit).
  destruct (dequeue_job_quiet t
              (emit EvHubSwitch
                 (emit (EvLog INFO "RQ worker {0!r} done, quitting") w3))
              None rest) as (w4 & -> & C4);
    [auto using calm_emit|].
  eauto.
Qed.

Lemma startup_calm burst ll df lf ws w :
  exiting w = false -> interrupt w = None -> stop_requested w = false ->
  full w = false ->
  calm (startup burst ll df lf ws w).
Proof.
  intros X I S F. unfold startup, start_scheduler.
  destruct ws;
    [match goal with |- context [if ?c then _ else _] => destruct c end;
     [destruct burst|]|];
    constructor; auto.
Qed.

Lemma cleanup_did w : did_perform_work (cleanup w) = did_perform_work w.
Proof. apply cleanup_not_done. Qed.

Lemma init_not_full kw horse ttl locks w0 :
  __init__ kw horse ttl locks = Ok w0 ->
  (forall C, pool_size w0 = Some C -> 1 <= C) ->
  full w0 = false.
Proof.
  intros Hi HC. destruct (init_fields _ _ _ _ _ Hi) as (_ & Ep & _).
  unfold full, free_count, pool_len. rewrite Ep.
  destruct (pool_size w0) as [c|]; [|reflexivity].
  specialize (HC c eq_refl). simpl. apply Z.leb_gt. lia.
Qed.

(** C9, amended. On every exit of the work loop, by a break or by an
    exception, a worker that is not a horse stops its scheduler, when it has
    one, and then deregisters; the value returned tells whether a completion
    callback ran during the call; and in burst mode on an empty queue a
    worker whose pool has a capacity of at least 1 returns false after two
    dequeue attempts.  (A worker built with [pool_size=0] never finds a free
    slot: its burst run on an empty queue polls for ever.) *)
Theorem work_exits_through_cleanup :
  (forall burst ll df lf mj ws w s o w' s',
      _work burst ll df lf mj ws w s = (o, w', s') ->
      is_horse w = false ->
      (exists b, o = Ok b) \/ (exists e, o = Raise e) ->
      exists tr,
        trace w' =
          EvRegisterDeath ::
            (if scheduler w' then [EvStopScheduler] else []) ++ tr) /\
  (forall burst ll df lf mj ws w s b w' s',
      _work burst ll df lf mj ws w s = (Ok b, w', s') ->
      exists d, trace w' = d ++ trace w /\ b = existsb is_job_done d) /\
  (forall kw horse ttl locks w0 C ll df lf mj ws r1 rep,
      __init__ kw horse ttl locks = Ok w0 ->
      pool_size w0 = Some C -> 1 <= C ->
      rep = Exc LoopExit \/ is_ret rep = true ->
      exists w',
        work true ll df lf mj ws w0
          [quiet_tick r1; quiet_tick None; mkTick [] rep; quiet_tick None]
        = (Ok (Some false), w', [])).
Proof.
  split; [|split].
  - intros burst ll df lf mj ws w s o w' s' H Hh Ho.
    destruct (_work_exit_cleanup _ _ _ _ _ _ _ _ _ _ _ H Ho)
      as (w1 & -> & Eh & _).
    rewrite <- Eh in Hh.
    destruct (cleanup_deregisters w1 Hh) as [T S]. rewrite T, S. eauto.
  - intros. eapply _work_return_value; eauto.
  - intros kw horse ttl locks w0 C ll df lf mj ws r1 rep Hi Hs H1 Hr.
    assert (HC : forall c, pool_size w0 = Some c -> 1 <= c)
      by (intros c Hc; rewrite Hs in Hc; inversion Hc; subst; exact H1).
    destruct (init_fields _ _ _ _ _ Hi)
      as (_ & _ & _ & _ & Es & Ei & Ex & _).
    pose proof (startup_calm true ll DEFAULT_LOGGING_DATE_FORMAT
                  DEFAULT_LOGGING_FORMAT ws w0 Ex Ei Es
                  (init_not_full _ _ _ _ _ Hi HC)) as C0.
    destruct (iteration_empty_burst _ r1 rep [] C0 Hr) as (w1 & E1 & C1).
    unfold work, _work. cbn [List.length work_loop].
    unfold guarded_iteration. rewrite E1.
    eexists. rewrite cleanup_did, (calm_did _ C1). reflexivity.
Qed.

(** * The theorems at concrete workers *)

Lemma triple_eta {A B C : Type} (x : A * B * C) :
  x = (fst (fst x), snd (fst x), snd x).
Proof. now destruct x as [[a b] c]. Qed.

Lemma dequeue_in t tr :
  existsb (is_dequeue_with t) tr = true -> In (EvDequeueAny t) tr.
Proof.
  induction tr as [|e tr IH]; simpl; [discriminate|].
  intro H. apply orb_true_iff in H as [H|H]; [left | right; auto].
  destruct e; try discriminate. simpl in H.
  destruct timeout as [x|], t as [y|]; try discriminate; [|reflexivity].
  apply Z.eqb_eq in H. now subst.
Qed.

Lemma burst_cold_run_eq :
  work true "INFO" DEFAULT_LOGGING_DATE_FORMAT DEFAULT_LOGGING_FORMAT None
    false default_worker burst_interrupted_twice =
  (fst (fst burst_cold_run), snd (fst burst_cold_run), snd burst_cold_run).
Proof. unfold burst_cold_run. apply triple_eta. Qed.

Lemma full_pool_run_eq :
  work false "INFO" DEFAULT_LOGGING_DATE_FORMAT DEFAULT_LOGGING_FORMAT None
    false small_worker pool_stays_full =
  (fst (fst full_pool_run), snd (fst full_pool_run), snd full_pool_run).
Proof. unfold full_pool_run. apply triple_eta. Qed.

Lemma pool_spawn_free job queue w s :
  full w = false ->
  pool_spawn job queue w s =
  (Ok tt, emit (EvSpawn job queue) (set_pool (pool w ++ [(job, queue)]) w), s).
Proof. intro F. destruct s; simpl; rewrite F; reflexivity. Qed.

Lemma pool_spawn_parked job queue w t s :
  full w = true ->
  pool_spawn job queue w (t :: s) =
  match resume w t with
  | (Ok _, w1) => pool_spawn job queue w1 s
  | (Halt h, w1) => (Halt h, w1, s)
  end.
Proof. intro F. simpl. rewrite F. reflexivity. Qed.

Lemma job_done_control job queue w :
  pool_size (job_done job queue w) = pool_size w /\
  interrupt (job_done job queue w) = interrupt w /\
  exiting (job_done job queue w) = exiting w.
Proof. unfold job_done. destruct (job_status job); repeat split. Qed.

(** A completion while nobody waits in [join] frees the slot and leaves the
    loop alone. *)
Lemma greenlet_exit_frees i st w j q :
  nth_error (pool w) i = Some (j, q) -> join_waiting w = false ->
  pool (greenlet_exit i st w) = remove_nth i (pool w) /\
  pool_size (greenlet_exit i st w) = pool_size w /\
  interrupt (greenlet_exit i st w) = interrupt w /\
  exiting (greenlet_exit i st w) = exiting w /\
  exists d, trace (greenlet_exit i st w) = d ++ trace w.
Proof.
  intros E J. unfold greenlet_exit. rewrite E.
  set (x := set_pool (remove_nth i (pool w)) w).
  destruct (job_done_fields (with_status st j) q x) as (F1 & F2 & _).
  destruct (job_done_control (with_status st j) q x) as (F3 & F4 & F5).
  pose proof (job_done_trace (with_status st j) q x) as F6.
  replace (join_waiting (job_done (with_status st j) q x)) with false
    by (rewrite F2; symmetry; exact J).
  rewrite F1, F3, F4, F5. repeat split. eexists. exact F6.
Qed.

(** A blocked admission goes through as soon as an execution ends. *)
Lemma pool_spawn_admits_when_freed job queue C w :
  pool_size w = Some C -> pool_len w = C -> 1 <= C ->
  interrupt w = None -> exiting w = false -> join_waiting w = false ->
  forall pre i st j q r s,
    Forall idle pre -> nth_error (pool w) i = Some (j, q) ->
    exists w',
      pool_spawn job queue w (pre ++ mkTick [Finish i st] (Ret r) :: s) =
        (Ok tt, w', s) /\
      In (job, queue) (pool w') /\ pool_len w' = C /\
      exists d, trace w' = EvSpawn job queue :: d ++ trace w.
Proof.
  intros S L HC I X J pre i st j q r s Hp E.
  assert (F : full w = true) by (eapply full_at_capacity; eauto).
  induction pre as [|t pre IH].
  - change ([] ++ mkTick [Finish i st] (Ret r) :: s)
      with (mkTick [Finish i st] (Ret r) :: s).
    rewrite (pool_spawn_parked _ _ _ _ _ F).
    destruct (greenlet_exit_frees i (Some st) w j q E J)
      as (P1 & P2 & P3 & P4 & d & P5).
    unfold resume.
    change (fold_left deliver (asyncs (mkTick [Finish i st] (Ret r))) w)
      with (greenlet_exit i (Some st) w).
    rewrite P4, X, P3, I.
    change (reply_of (mkTick [Finish i st] (Ret r))) with (Ret r).
    set (w1 := greenlet_exit i (Some st) w) in *. clearbody w1.
    pose proof (remove_nth_length _ _ _ E) as Ln.
    assert (L1 : Z.of_nat (List.length (pool w1)) = C - 1)
      by (rewrite P1; unfold pool_len in L; lia).
    assert (F1 : full w1 = false).
    { unfold full, free_count, pool_len. rewrite P2, S.
      apply Z.leb_gt. lia. }
    rewrite (pool_spawn_free _ _ _ _ F1). eexists. split; [reflexivity|].
    split; [|split].
    + cbn [pool emit set_pool]. apply in_or_app. right. now left.
    + unfold pool_len. cbn [pool emit set_pool].
      rewrite length_app. simpl. lia.
    + exists d. cbn [trace emit set_pool]. now rewrite P5.
  - inversion Hp as [|? ? [Ha Hr] Hs]; subst.
    change ((t :: pre) ++ mkTick [Finish i st] (Ret r) :: s)
      with (t :: (pre ++ mkTick [Finish i st] (Ret r) :: s)).
    rewrite (pool_spawn_parked _ _ _ _ _ F).
    unfold resume. rewrite Ha. simpl. rewrite X, I.
    destruct (reply_of t); [|discriminate]. exact (IH Hs).
Qed.

(** C1. For every pool capacity C >= 1 fixed at construction (20 when no
    [pool_size] is given), the number of executions in flight is at most C
    at every moment of a run of [work]; and an attempt to admit a job while
    C executions are in flight stays parked, without raising, for as long as
    no slot frees; admits the job as soon as an execution ends, when no
    shutdown is under way; returns only after a completion has freed a slot;
    and in no case leaves more than C executions in the pool. *)
Theorem pool_never_exceeds_capacity :
  forall kw horse ttl locks w0 C,
    __init__ kw horse ttl locks = Ok w0 ->
    pool_size w0 = Some C ->
    1 <= C ->
    (kw = None -> C = 20) /\
    (forall burst ll df lf mj ws s o w' s',
        work burst ll df lf mj ws w0 s = (o, w', s') ->
        bounded C (trace w') /\ pool_len w' <= C /\
        pool_len w' = in_flight (trace w')) /\
    (forall w job queue,
        pool_inv (Some C) w -> pool_len w = C ->
        (interrupt w = None -> exiting w = false ->
         forall s, Forall idle s ->
           execute_job job queue w s = (Blocked, w, [])) /\
        (interrupt w = None -> exiting w = false -> join_waiting w = false ->
         forall pre i st j q r s,
           Forall idle pre -> nth_error (pool w) i = Some (j, q) ->
           exists w',
             execute_job job queue w
               (pre ++ mkTick [Finish i st] (Ret r) :: s) = (Ok tt, w', s) /\
             In (job, queue) (pool w') /\ pool_len w' = C /\
             exists d, trace w' = EvSpawn job queue :: d ++ trace w) /\
        (forall s o w' s',
           execute_job job queue w s = (o, w', s') ->
           bounded C (trace w') /\ pool_len w' <= C /\
           (o = Ok tt ->
            exists d, trace w' = EvSpawn job queue :: d ++ trace w /\
                      existsb is_job_done d = true))).
Proof.
  intros kw horse ttl locks w0 C Hinit Hsize HC.
  destruct (init_pool_inv _ _ _ _ _ Hinit) as [I0 Hdef].
  rewrite Hsize in I0, Hdef.
  split; [intro K; specialize (Hdef K); congruence|]. split.
  - intros burst ll df lf mj ws s o w' s' H.
    destruct (work_pool_inv _ _ _ _ _ _ _ _ _ _ _ _ H I0) as [_ H2 H3].
    destruct (H3 C eq_refl). auto.
  - intros w job queue I L. split; [|split].
    + intros Hi Hx s Hs. unfold execute_job.
      apply pool_spawn_stays_blocked; auto.
      eapply full_at_capacity; [apply I | exact L].
    + intros Hi Hx Hj pre i st j q r s Hp E. unfold execute_job.
      eapply pool_spawn_admits_when_freed; eauto. apply I.
    + intros s o w' s' H. unfold execute_job in H.
      pose proof (pool_inv_path _ _ _ (pool_spawn_path _ _ _ _ _ _ _ H) I)
        as [_ J2 J3].
      destruct (J3 C eq_refl) as [J4 J5].
      split; [exact J5|]. split; [exact J4|].
      intros ->. destruct (pool_spawn_ok _ _ _ _ _ _ _ H) as (w1 & P & F & ->).
      pose proof (pool_inv_path _ _ _ (inner_steps _ _ P) I) as I1.
      destruct (grows_inner_path _ _ P) as (d & Ed & Fd).
      exists d. simpl. rewrite Ed. split; [reflexivity|].
      apply (inner_events_release d Fd).
      pose proof (not_full_room C w1 (inv_size _ _ I1) F) as R.
      pose proof (inv_count _ _ I1) as K1. pose proof (inv_count _ _ I) as K.
      rewrite Ed, in_flight_app in K1. lia.
Qed.

Lemma pool_never_exceeds_capacity_witness :
  1 <= 1 /\
  bounded 1 (trace (snd (fst full_pool_run))) /\
  pool_len (snd (fst full_pool_run)) = 1 /\
  execute_job job_b queue_default (snd (fst full_pool_run))
    [quiet_tick None; quiet_tick None] =
    (Blocked, snd (fst full_pool_run), []) /\
  exists w',
    execute_job job_b queue_default (snd (fst full_pool_run))
      [quiet_tick None; mkTick [Finish 0 FINISHED] (Ret None)] =
      (Ok tt, w', []) /\
    In (job_b, queue_default) (pool w') /\ pool_len w' = 1.
Proof.
  assert (L : pool_len (snd (fst full_pool_run)) = 1)
    by (vm_compute; reflexivity).
  assert (Hi : interrupt (snd (fst full_pool_run)) = None)
    by (vm_compute; reflexivity).
  assert (Hx : exiting (snd (fst full_pool_run)) = false)
    by (vm_compute; reflexivity).
  assert (Hj : join_waiting (snd (fst full_pool_run)) = false)
    by (vm_compute; reflexivity).
  assert (E : nth_error (pool (snd (fst full_pool_run))) 0 =
              Some (job_a, queue_default))
    by (vm_compute; reflexivity).
  assert (Q : idle (quiet_tick None)) by (split; reflexivity).
  pose proof (work_pool_inv (Some 1) _ _ _ _ _ _ _ _ _ _ _ full_pool_run_eq
                (proj1 (init_pool_inv (Some (Some 1)) false 61 false
                          small_worker eq_refl))) as I.
  destruct (pool_never_exceeds_capacity (Some (Some 1)) false 61 false
              small_worker 1 eq_refl eq_refl ltac:(lia)) as (_ & H2 & H3).
  destruct (H2 false "INFO" DEFAULT_LOGGING_DATE_FORMAT DEFAULT_LOGGING_FORMAT
              None false pool_stays_full
              (fst (fst full_pool_run)) (snd (fst full_pool_run))
              (snd full_pool_run) full_pool_run_eq) as (B & _ & _).
  destruct (H3 (snd (fst full_pool_run)) job_b queue_default I L)
    as (Hb & Hl & _).
  destruct (Hl Hi Hx Hj [quiet_tick None] 0%nat FINISHED job_a queue_default
              None [] (Forall_cons _ Q (Forall_nil _)) E)
    as (w' & R1 & R2 & R3 & _).
  split; [lia|]. split; [exact B|]. split; [exact L|]. split.
  - exact (Hb Hi Hx [quiet_tick None; quiet_tick None]
             (Forall_cons _ Q (Forall_cons _ Q (Forall_nil _)))).
  - exists w'. auto.
Defined.

Lemma late_admission_run_eq :
  work true "INFO" DEFAULT_LOGGING_DATE_FORMAT DEFAULT_LOGGING_FORMAT None
    false default_worker warm_during_dequeue =
  (fst (fst late_admission_run), snd (fst late_admission_run),
   snd late_admission_run).
Proof. unfold late_admission_run. apply triple_eta. Qed.

Lemma no_admission_after_stop_observed_witness :
  stop_requested (snd (fst late_admission_run)) = true /\
  since_warm is_spawn (trace (snd (fst late_admission_run))) = Some 1%nat /\
  exists m, since_warm is_spawn (trace (snd (fst late_admission_run))) =
            Some m /\ (m <= 1)%nat.
Proof.
  assert (F : stop_requested (snd (fst late_admission_run)) = true)
    by (vm_compute; reflexivity).
  split; [exact F|]. split; [vm_compute; reflexivity|].
  destruct no_admission_after_stop_observed as (_ & _ & H).
  exact (H None false 420 false default_worker true "INFO"
           DEFAULT_LOGGING_DATE_FORMAT DEFAULT_LOGGING_FORMAT None
           false warm_during_dequeue
           (fst (fst late_admission_run)) (snd (fst late_admission_run))
           (snd late_admission_run) eq_refl late_admission_run_eq F).
Defined.

Lemma cold_shutdown_kills_pool_and_exits_witness :
  stop_requested warm_worker = true /\
  In (SIGTERM, request_force_stop_h) (watchers warm_worker) /\
  pool warm_worker = [(job_a, queue_default)] /\
  pool (deliver warm_worker (Signal SIGTERM)) = [] /\
  exit_pending (deliver warm_worker (Signal SIGTERM)).
Proof.
  assert (F : stop_requested warm_worker = true) by (vm_compute; reflexivity).
  assert (W : In (SIGTERM, request_force_stop_h) (watchers warm_worker)).
  { apply (nth_error_In _ 3%nat). vm_compute. reflexivity. }
  split; [exact F|]. split; [exact W|]. split; [vm_compute; reflexivity|].
  destruct cold_shutdown_kills_pool_and_exits as (_ & H & _).
  destruct (H warm_worker SIGTERM F W) as (P & _ & _ & X).
  split; assumption.
Defined.

Lemma timeout_by_mode_witness :
  In (EvDequeueAny (Some 1)) (trace (snd (fst full_pool_run))) /\
  Some 1 = (if false then None else Some (Z.max 1 (61 - 60))).
Proof.
  assert (I : In (EvDequeueAny (Some 1)) (trace (snd (fst full_pool_run))))
    by (apply dequeue_in; vm_compute; reflexivity).
  split; [exact I|].
  destruct timeout_by_mode as (_ & _ & H).
  exact (H (Some (Some 1)) false 61 false small_worker false "INFO"
           DEFAULT_LOGGING_DATE_FORMAT DEFAULT_LOGGING_FORMAT None false
           pool_stays_full
           (fst (fst full_pool_run)) (snd (fst full_pool_run))
           (snd full_pool_run) (Some 1) eq_refl full_pool_run_eq I).
Defined.

Lemma bounded_timeout_floor_witness :
  dequeue_timeout false 60 = Some 1 /\
  1 = Z.max 1 (60 - 60) /\ 1 <= 1 /\ (60 = 60 -> 1 = 1).
Proof.
  split; [reflexivity|].
  exact (proj1 bounded_timeout_floor false 60 1 eq_refl).
Defined.

Lemma first_attempt_eq :
  dequeue_job_and_maintain_ttl None default_worker (tl empty_queue) =
  (Ok None, snd (fst first_attempt), snd first_attempt).
Proof. vm_compute. reflexivity. Qed.

Lemma with_retry_eq :
  dequeue_with_retry true None default_worker (tl empty_queue) =
  (fst (fst with_retry), snd (fst with_retry), snd with_retry).
Proof. unfold with_retry. apply triple_eta. Qed.

Lemma burst_retries_exactly_once_witness :
  count is_switch (trace (snd (fst with_retry))) =
  S (count is_switch (trace default_worker)).
Proof.
  exact (proj1 (proj1 burst_retries_exactly_once None default_worker
                  (tl empty_queue) (snd (fst first_attempt))
                  (snd first_attempt) (fst (fst with_retry))
                  (snd (fst with_retry)) (snd with_retry)
                  first_attempt_eq with_retry_eq)).
Defined.

Lemma completion_callback_runs_once_witness :
  nth_error (pool busy_worker) 0 = Some (job_a, queue_default) /\
  pool (deliver busy_worker (Finish 0 FINISHED)) =
    remove_nth 0 (pool busy_worker) /\
  count is_enqueue (trace (deliver busy_worker (Finish 0 FINISHED))) =
    (count is_enqueue (trace busy_worker) + 1)%nat.
Proof.
  split; [reflexivity|].
  destruct (proj1 completion_callback_runs_once busy_worker 0%nat FINISHED
              job_a queue_default eq_refl) as (P & _ & _ & E & _).
  split; [exact P | exact E].
Defined.

Lemma lone_attempt_eq :
  dequeue_job_and_maintain_ttl None default_worker [quiet_tick None] =
  (Ok None, snd (fst lone_attempt), snd lone_attempt).
Proof. vm_compute. reflexivity. Qed.

Lemma heartbeats_around_dequeue_and_completion_witness :
  exists n tr,
    trace (snd (fst lone_attempt)) =
      EvHsetCurrPoolLen n :: EvHeartbeat 0 :: tr /\
    fresh (trace (snd (fst lone_attempt))) = true.
Proof.
  exact (proj1 (proj2 heartbeats_around_dequeue_and_completion)
           None default_worker [quiet_tick None] None
           (snd (fst lone_attempt)) (snd lone_attempt) lone_attempt_eq).
Defined.

Lemma work_exits_through_cleanup_witness :
  exists w',
    work true "INFO" DEFAULT_LOGGING_DATE_FORMAT DEFAULT_LOGGING_FORMAT None
      false default_worker empty_queue = (Ok (Some false), w', []).
Proof.
  apply (proj2 (proj2 work_exits_through_cleanup)
           None false 420 false default_worker 20 "INFO"
           DEFAULT_LOGGING_DATE_FORMAT DEFAULT_LOGGING_FORMAT None false
           None (Exc LoopExit) eq_refl eq_refl).
  - lia.
  - left. reflexivity.
Defined.

(** With [pool_size=0], which the constructor accepts, no slot ever frees:
    a burst run on an empty queue polls the pool and does not return.  After
    two hundred blocking calls it has slept two hundred times, is still
    parked and has not called [dequeue_any]. *)
Lemma burst_run_without_slot_never_returns :
  __init__ (Some (Some 0)) false 420 false = Ok no_slot_worker /\
  fst (fst no_slot_idle_run) = Blocked /\
  count is_dequeue (trace (snd (fst no_slot_idle_run))) = O /\
  count is_sleep (trace (snd (fst no_slot_idle_run))) = 200%nat /\
  count is_register_death (trace (snd (fst no_slot_idle_run))) = O.
Proof. repeat split; vm_compute; reflexivity. Qed.

(** * main *)

Lemma argv_has_In x argv : argv_has x argv = true <-> In x argv.
Proof.
  unfold argv_has. rewrite existsb_exists. split.
  - intros (y & I & E). apply String.eqb_eq in E. now subst.
  - intro I. exists x. split; [exact I | apply String.eqb_refl].
Qed.

Lemma count_occ_app_string (l1 l2 : list string) x :
  count_occ string_dec (l1 ++ l2) x =
  (count_occ string_dec l1 x + count_occ string_dec l2 x)%nat.
Proof. apply count_occ_app. Qed.

(** X1. [main] refuses to run exactly when [-w] or [--worker-class] is an
    element of [sys.argv]: it then prints the message, exits with status 1,
    leaves [sys.argv] alone and never enters [rq_main]. *)
Theorem main_rejects_worker_class :
  forall argv,
    (In "-w" argv \/ In "--worker-class" argv) <->
    main argv = (CliExit 1, argv, [CliPrint WORKER_CLASS_MSG]).
Proof.
  intro argv. unfold main. split.
  - intros [H|H]; apply argv_has_In in H; rewrite H;
      [reflexivity | now rewrite orb_true_r].
  - destruct (argv_has "-w" argv || argv_has "--worker-class" argv) eqn:E;
      [|discriminate].
    intros _. apply orb_true_iff in E as [E|E]; apply argv_has_In in E; auto.
Qed.

(** X2. Otherwise [main] enters [rq_main] once, with [sys.argv] extended by
    [-w rq_gevent_worker.GeventWorker] at its end: the caller's arguments
    are kept in order in front, [-w] occurs exactly once, and nothing is
    printed. *)
Theorem main_appends_worker_class :
  forall argv,
    ~ In "-w" argv -> ~ In "--worker-class" argv ->
    exists argv',
      main argv = (CliReturn, argv', [CliRqMain argv']) /\
      argv' = argv ++ ["-w"; "rq_gevent_worker.GeventWorker"] /\
      firstn (List.length argv) argv' = argv /\
      count_occ string_dec argv' "-w" = 1%nat /\
      ~ In "--worker-class" argv'.
Proof.
  intros argv H1 H2. exists (argv ++ ["-w"; "rq_gevent_worker.GeventWorker"]).
  assert (E1 : argv_has "-w" argv = false).
  { destruct (argv_has "-w" argv) eqn:E; [|reflexivity].
    apply argv_has_In in E. contradiction. }
  assert (E2 : argv_has "--worker-class" argv = false).
  { destruct (argv_has "--worker-class" argv) eqn:E; [|reflexivity].
    apply argv_has_In in E. contradiction. }
  unfold main. rewrite E1, E2. simpl.
  split; [reflexivity|]. split; [reflexivity|]. split; [|split].
  - rewrite firstn_app, Nat.sub_diag, firstn_all. simpl. apply app_nil_r.
  - rewrite count_occ_app_string.
    rewrite (proj1 (count_occ_not_In string_dec argv "-w") H1). reflexivity.
  - intro I. apply in_app_or in I as [I|I]; [contradiction|].
    simpl in I. destruct I as [I|[I|[]]]; discriminate.
Qed.

Lemma main_rejects_worker_class_witness :
  main ["rqgeventworker"; "-w"; "x.Worker"] =
  (CliExit 1, ["rqgeventworker"; "-w"; "x.Worker"],
   [CliPrint WORKER_CLASS_MSG]).
Proof.
  apply (proj1 (main_rejects_worker_class
                  ["rqgeventworker"; "-w"; "x.Worker"])).
  left. simpl. auto.
Defined.

Lemma main_appends_worker_class_witness :
  exists argv',
    main ["rqgeventworker"; "--burst"; "--worker-class=x.Worker"] =
      (CliReturn, argv', [CliRqMain argv']) /\
    argv' = ["rqgeventworker"; "--burst"; "--worker-class=x.Worker"]
              ++ ["-w"; "rq_gevent_worker.GeventWorker"] /\
    firstn 3 argv' =
      ["rqgeventworker"; "--burst"; "--worker-class=x.Worker"] /\
    count_occ string_dec argv' "-w" = 1%nat /\
    ~ In "--worker-class" argv'.
Proof.
  apply (main_appends_worker_class
           ["rqgeventworker"; "--burst"; "--worker-class=x.Worker"]).
  - simpl. intros [H|[H|[H|[]]]]; discriminate.
  - simpl. intros [H|[H|[H|[]]]]; discriminate.
Defined.

(** * The loop as a path of enabled transitions *)

Lemma loop_free_noise e : loop_free e = true -> noise e = true.
Proof.
  destruct e; simpl; try discriminate; auto.
Qed.

Lemma prim_steps a b : prim a b -> star step a b.
Proof.
  intros [w e F|w|w S F|w G P|w F|w F|w t F S|w job queue F
         |w i st job queue E|w F|w w' S].
  - apply inner_steps, emit_noise_path, loop_free_noise, F.
  - apply inner_steps, emit_noise_path. reflexivity.
  - apply inner_steps, emit_noise_path. reflexivity.
  - apply inner_steps, emit_noise_path. reflexivity.
  - apply inner_steps, emit_noise_path. reflexivity.
  - apply inner_steps, emit_noise_path. reflexivity.
  - apply search_steps, star_one. now apply search_dequeue.
  - apply star_one. now apply step_spawn.
  - apply inner_steps, star_one. now apply inner_exit.
  - apply inner_steps. unfold arm_and_announce.
    eapply star_snoc; [|apply inner_warm; exact F].
    eapply star_trans; apply hub_signal_inner.
  - apply inner_steps, star_one. now apply inner_ctl.
Qed.

Lemma prims_steps a b : star prim a b -> star step a b.
Proof.
  induction 1 as [|x y z H _ IH]; [apply star_refl|].
  eapply star_trans; [apply prim_steps, H | exact IH].
Qed.

(** Peel the last unconditional change off the target state. *)
Lemma prim_set_watchers x l : prim x (set_watchers (watchers x ++ l) x).
Proof.
  apply prim_ctl; constructor; cbn [watchers set_watchers];
    auto using incl_appl, incl_refl.
Qed.

Lemma prim_set_join_waiting x b : prim x (set_join_waiting b x).
Proof. apply prim_ctl; constructor; auto using incl_refl. Qed.

Lemma prim_set_interrupt x i : prim x (set_interrupt i x).
Proof. apply prim_ctl; constructor; auto using incl_refl. Qed.

Lemma prim_set_exiting x : prim x (set_exiting true x).
Proof. apply prim_ctl; constructor; auto using incl_refl. Qed.

Lemma prim_set_maintenance x b : prim x (set_maintenance b x).
Proof. apply prim_ctl; constructor; auto using incl_refl. Qed.

Ltac ppeel :=
  match goal with
  | |- star prim _ (emit _ ?x) =>
      apply (star_snoc _ x); [| apply prim_event; reflexivity]
  | |- star prim _ (set_watchers _ ?x) =>
      apply (star_snoc _ x); [| apply prim_set_watchers]
  | |- star prim _ (set_join_waiting _ ?x) =>
      apply (star_snoc _ x); [| apply prim_set_join_waiting]
  | |- star prim _ (set_interrupt _ ?x) =>
      apply (star_snoc _ x); [| apply prim_set_interrupt]
  | |- star prim _ (set_exiting _ ?x) =>
      apply (star_snoc _ x); [| apply prim_set_exiting]
  | |- star prim _ (set_maintenance _ ?x) =>
      apply (star_snoc _ x); [| apply prim_set_maintenance]
  end.
Ltac ppeels := repeat ppeel; try apply star_refl.

Lemma heartbeat_prims w : star prim w (heartbeat 0 w).
Proof.
  unfold heartbeat.
  eapply star_snoc; [|apply prim_hset]. ppeels.
Qed.

Lemma throw_prims e w : star prim w (throw e w).
Proof. unfold throw. destruct (interrupt w); ppeels. Qed.

Lemma request_stop_resume_prims w :
  pool w = [] -> star prim w (request_stop_resume w).
Proof.
  intro P. unfold request_stop_resume.
  destruct (gevent_worker w) eqn:G; [|apply star_refl].
  eapply star_trans; [|apply throw_prims].
  apply star_one. now apply prim_kill_worker.
Qed.

Lemma greenlet_exit_prims i st w : star prim w (greenlet_exit i st w).
Proof.
  unfold greenlet_exit.
  destruct (nth_error (pool w) i) as [[job queue]|] eqn:E; [|apply star_refl].
  eapply star_cons; [eapply prim_exit with (st := st); exact E|].
  set (w1 := job_done _ _ _).
  destruct (join_waiting w1); [|apply star_refl].
  destruct (pool w1) eqn:P; [|apply star_refl].
  eapply star_trans; [|apply request_stop_resume_prims; exact P]. ppeels.
Qed.

Lemma kill_all_prims n : forall w, star prim w (kill_all n w).
Proof.
  induction n as [|n IH]; intro w; simpl; [apply star_refl|].
  eapply star_trans; [apply greenlet_exit_prims | apply IH].
Qed.

Lemma request_stop_prims w : star prim w (request_stop w).
Proof.
  unfold request_stop. destruct (stop_requested w) eqn:E; [apply star_refl|].
  set (w1 := if scheduler w then emit EvStopScheduler w else w).
  assert (H1 : star prim w w1).
  { subst w1. destruct (scheduler w) eqn:S; [|apply star_refl].
    apply star_one. now apply prim_stop_scheduler. }
  assert (E1 : stop_requested w1 = false)
    by (subst w1; destruct (scheduler w); exact E).
  assert (H3 : star prim w
                 (emit EvPoolJoin (set_stop_requested true
                    (emit (EvLog WARNING WARM_MSG2)
                       (emit (EvLog WARNING WARM_MSG)
                          (hub_signal SIGTERM request_force_stop_h
                             (hub_signal SIGINT request_force_stop_h w1))))))).
  { ppeel. eapply star_snoc; [exact H1|]. exact (prim_warm w1 E1). }
  match goal with |- star _ _ (match pool ?x with _ => _ end) =>
    destruct (pool x) eqn:P end.
  - eapply star_trans; [exact H3 | apply request_stop_resume_prims, P].
  - ppeel. exact H3.
Qed.

Lemma request_force_stop_prims w :
  star prim w (snd (request_force_stop w)).
Proof.
  unfold request_force_stop; cbn [snd].
  eapply star_trans; [|apply kill_all_prims]. ppeels.
Qed.

Lemma run_handler_prims h w : star prim w (run_handler h w).
Proof.
  destruct h; cbn [run_handler]; [apply request_stop_prims|].
  pose proof (request_force_stop_prims w) as H.
  unfold request_force_stop in *; cbn [snd] in *.
  unfold handle_system_error.
  match goal with |- star _ _ (if ?c then _ else _) => destruct c end;
    ppeel; exact H.
Qed.

Lemma deliver_prims w a : star prim w (deliver w a).
Proof.
  destruct a; cbn [deliver].
  - apply greenlet_exit_prims.
  - unfold deliver_signal. apply fold_left_star.
    intros w' [s' h]. rewrite fire_eq.
    destruct (signum_eqb s s'); [apply run_handler_prims | apply star_refl].
  - ppeels.
Qed.

Lemma resume_prims w t o w1 : resume w t = (o, w1) -> star prim w w1.
Proof.
  unfold resume. intro H.
  pose proof (fold_left_star prim deliver (asyncs t) deliver_prims w) as P.
  destruct (exiting _); [inversion H; subst; exact P|].
  destruct (interrupt _); inversion H; subst; [|exact P].
  ppeel. exact P.
Qed.

(** The wait for a slot returns only with a free slot. *)
Lemma wait_while_full_free s : forall w u w' s',
  wait_while_full w s = (Ok u, w', s') -> full w' = false.
Proof.
  induction s as [|t s IH]; intros w u w' s' H; simpl in H.
  - destruct (full w) eqn:F; inversion H; subst; exact F.
  - destruct (full w) eqn:F; [|inversion H; subst; exact F].
    destruct (resume (emit EvSleep w) t) as [[r|h] w1]; [|discriminate].
    destruct (stop_requested w1); [discriminate|]. eapply IH; eauto.
Qed.

Lemma wait_while_full_prims s : forall w o w' s',
  wait_while_full w s = (o, w', s') -> star prim w w'.
Proof.
  induction s as [|t s IH]; intros w o w' s' H; simpl in H.
  - destruct (full w) eqn:F; inversion H; subst; [|apply star_refl].
    apply star_one. now apply prim_sleep.
  - destruct (full w) eqn:F; [|inversion H; subst; apply star_refl].
    assert (P0 : star prim w (emit EvSleep w))
      by (apply star_one; now apply prim_sleep).
    destruct (resume (emit EvSleep w) t) as [[r|h] w1] eqn:E;
      apply resume_prims in E;
      pose proof (star_trans _ _ _ P0 E) as P1.
    + destruct (stop_requested w1); [inversion H; subst; exact P1|].
      eapply star_trans; [exact P1 | eapply IH; exact H].
    + inversion H; subst. exact P1.
Qed.

Lemma pool_spawn_prims job queue s : forall w o w' s',
  pool_spawn job queue w s = (o, w', s') -> star prim w w'.
Proof.
  induction s as [|t s IH]; intros w o w' s' H; simpl in H.
  - destruct (full w) eqn:F; inversion H; subst;
      [apply star_refl | apply star_one; now apply prim_spawn].
  - destruct (full w) eqn:F.
    + destruct (resume w t) as [[r|h] w1] eqn:E; apply resume_prims in E.
      * eapply star_trans; [exact E | eapply IH; exact H].
      * inversion H; subst. exact E.
    + inversion H; subst. apply star_one. now apply prim_spawn.
Qed.

Lemma check_for_suspension_prims burst w s o w' s' :
  check_for_suspension burst w s = (o, w', s') -> star prim w w'.
Proof.
  unfold check_for_suspension. destruct s as [|t s]; intro H.
  - inversion H; subst. ppeels.
  - destruct (resume _ t) as [[r|h] w1] eqn:E; apply resume_prims in E;
      inversion H; subst; (eapply star_trans; [|exact E]); ppeels.
Qed.

Lemma hub_switch_prims w s o w' s' :
  hub_switch w s = (o, w', s') -> star prim w w'.
Proof.
  unfold hub_switch. destruct s as [|t s]; intro H.
  - inversion H; subst. ppeels.
  - destruct (resume _ t) as [[r|h] w1] eqn:E; apply resume_prims in E.
    + inversion H; subst. eapply star_trans; [|exact E]. ppeels.
    + assert (w' = w1) as ->
        by (destruct h as [[]| | |]; inversion H; reflexivity).
      eapply star_trans; [|exact E]. ppeels.
Qed.

Lemma dequeue_loop_prims timeout fuel : forall w s o w' s',
  dequeue_loop fuel timeout w s = (o, w', s') -> star prim w w'.
Proof.
  induction fuel as [|fuel IH]; intros w s o w' s' H; simpl in H.
  - inversion H; subst. apply star_refl.
  - destruct (stop_requested w) eqn:F; [inversion H; subst; apply star_refl|].
    set (w0 := heartbeat 0 w) in H.
    assert (P0 : star prim w w0) by apply heartbeat_prims.
    assert (F0 : stop_requested w0 = false) by exact F.
    clearbody w0.
    set (wa := if full w0 then _ else w0) in H.
    assert (Fa : stop_requested wa = false)
      by (subst wa; destruct (full w0); exact F0).
    assert (Pa : star prim w wa).
    { subst wa. destruct (full w0) eqn:Fu; [|exact P0].
      ppeel. eapply star_snoc; [exact P0 | now apply prim_busy]. }
    clearbody wa.
    destruct (wait_while_full wa s) as [[[u|h] w1] s1] eqn:W;
      pose proof (wait_while_full_prims _ _ _ _ _ W) as P1;
      pose proof (star_trans _ _ _ Pa P1) as P2.
    + pose proof (wait_while_full_ok _ _ _ _ _ W Fa) as F1.
      pose proof (wait_while_full_free _ _ _ _ _ W) as R1.
      assert (P3 : star prim w (emit (EvDequeueAny timeout) w1))
        by (eapply star_snoc; [exact P2 | now apply prim_dequeue]).
      destruct s1 as [|t s2]; [inversion H; subst; exact P3|].
      destruct (resume _ t) as [[r|h] w2] eqn:E; apply resume_prims in E;
        pose proof (star_trans _ _ _ P3 E) as P4.
      * inversion H; subst. destruct r; unfold set_state; ppeels; exact P4.
      * destruct h as [[]| | |]; try (inversion H; subst; exact P4).
        eapply star_trans; [exact P4 | eapply IH; exact H].
    + inversion H; subst. exact P2.
Qed.

Lemma dequeue_job_prims timeout w s o w' s' :
  dequeue_job_and_maintain_ttl timeout w s = (o, w', s') -> star prim w w'.
Proof.
  unfold dequeue_job_and_maintain_ttl. intro H.
  destruct (stop_requested w); [inversion H; subst; apply star_refl|].
  destruct (dequeue_loop _ timeout w s) as [[[r|h] w1] s1] eqn:E;
    apply dequeue_loop_prims in E; inversion H; subst; [|exact E].
  eapply star_trans; [exact E | apply heartbeat_prims].
Qed.

Lemma dequeue_with_retry_prims burst timeout w s o w' s' :
  dequeue_with_retry burst timeout w s = (o, w', s') -> star prim w w'.
Proof.
  unfold dequeue_with_retry. intro H.
  destruct (dequeue_job_and_maintain_ttl timeout w s) as [[[r|h] w1] s1] eqn:E;
    apply dequeue_job_prims in E.
  - destruct r as [p|]; [inversion H; subst; exact E|].
    destruct burst; [|inversion H; subst; exact E].
    destruct (hub_switch _ s1) as [[[u|h] w3] s3] eqn:S;
      apply hub_switch_prims in S.
    + apply dequeue_job_prims in H.
      eapply star_trans; [exact E|].
      eapply star_trans; [|exact H].
      eapply star_trans; [|exact S]. ppeels.
    + inversion H; subst. eapply star_trans; [exact E|].
      eapply star_trans; [|exact S]. ppeels.
  - inversion H; subst. exact E.
Qed.

Lemma iteration_prims burst w s o w' s' :
  iteration burst w s = (o, w', s') -> star prim w w'.
Proof.
  unfold iteration. intro H.
  destruct (check_for_suspension burst w s) as [[[u|h] w1] s1] eqn:E;
    apply check_for_suspension_prims in E;
    [|inversion H; subst; exact E].
  set (w2 := if should_run_maintenance_tasks w1 then _ else w1) in H.
  assert (P2 : star prim w w2).
  { eapply star_trans; [exact E|]. subst w2.
    destruct (should_run_maintenance_tasks w1);
      unfold run_maintenance_tasks; ppeels. }
  clearbody w2. destruct (stop_requested w2).
  - inversion H; subst. eapply star_trans; [exact P2|]. ppeels.
  - apply dequeue_with_retry_prims in H. eapply star_trans; eauto.
Qed.

Lemma guarded_iteration_prims burst w s o w' s' :
  guarded_iteration burst w s = (o, w', s') -> star prim w w'.
Proof.
  unfold guarded_iteration. intro H.
  destruct (iteration burst w s) as [[[r|h] w1] s1] eqn:E;
    apply iteration_prims in E.
  - inversion H; subst. exact E.
  - destruct h as [[]| | |]; inversion H; subst; exact E.
Qed.

Lemma work_loop_prims burst fuel : forall w s o w' s',
  work_loop fuel burst w s = (o, w', s') -> star prim w w'.
Proof.
  induction fuel as [|fuel IH]; intros w s o w' s' H; simpl in H.
  - inversion H; subst. apply star_refl.
  - destruct (guarded_iteration burst w s) as [[[r|h] w1] s1] eqn:E;
      apply guarded_iteration_prims in E.
    + destruct r as [[job queue]|]; [|inversion H; subst; exact E].
      unfold execute_job in H.
      destruct (pool_spawn job queue w1 s1) as [[[u|h] w2] s2] eqn:S;
        apply pool_spawn_prims in S.
      * eapply star_trans; [exact E|]. eapply star_trans; [exact S|].
        eapply IH; exact H.
      * inversion H; subst. eapply star_trans; eauto.
    + inversion H; subst. exact E.
Qed.

(** * The discipline of the loop *)

Lemma always_app ok d tr :
  (forall tr' e, In e d -> ok tr' e) -> always ok tr -> always ok (d ++ tr).
Proof.
  induction d as [|e d IH]; intros H A; [exact A|].
  simpl. split; [apply H; now left|].
  apply IH; [|exact A]. intros tr' e' I. apply H. now right.
Qed.

Lemma always_split ok tr1 e tr2 :
  always ok (tr1 ++ e :: tr2) -> ok tr2 e.
Proof.
  induction tr1 as [|x tr1 IH]; simpl; intros [H A]; [exact H | auto].
Qed.

Lemma inert_disciplined cap e :
  inert e = true -> (forall tr', disciplined cap tr' e) /\ delta e = 0.
Proof.
  destruct e; simpl; intro H; try discriminate; split; auto.
  destruct st; simpl; auto. discriminate.
Qed.

Lemma orderly_same cap w w' :
  pool_size w' = pool_size w -> pool w' = pool w -> trace w' = trace w ->
  orderly cap w -> orderly cap w'.
Proof.
  intros E1 E2 E3 [I A]. constructor; [eapply pool_inv_ext; eauto|].
  now rewrite E3.
Qed.

Lemma pool_len_nonneg w : 0 <= pool_len w.
Proof. unfold pool_len. lia. Qed.

Lemma full_true_capacity cap w :
  pool_inv cap w -> full w = true -> at_capacity cap (pool_len w).
Proof.
  intros [S K L] F. unfold full, free_count in F. rewrite S in F.
  destruct cap as [C|]; [|discriminate]. simpl.
  destruct (L C eq_refl) as [Hl _]. apply Z.leb_le in F. lia.
Qed.

Lemma full_false_room cap w :
  pool_inv cap w -> full w = false -> has_room cap (pool_len w).
Proof.
  intros [S K L] F. pose proof (pool_len_nonneg w).
  destruct cap as [C|]; simpl; [|assumption].
  pose proof (not_full_room C w S F). lia.
Qed.

Lemma pool_inv_within cap w : pool_inv cap w -> within cap (pool_len w).
Proof.
  intros [S K L]. destruct cap as [C|]; simpl; [|exact Logic.I].
  now destruct (L C eq_refl).
Qed.

Lemma pool_inv_within_pred cap w :
  pool_inv cap w -> within cap (pool_len w - 1).
Proof.
  intro I. pose proof (pool_inv_within _ _ I) as H.
  destruct cap; simpl in *; [lia | exact Logic.I].
Qed.

Lemma loop_free_inert e : loop_free e = true -> inert e = true.
Proof. destruct e; simpl; try discriminate; auto. destruct st; auto. Qed.

Lemma orderly_prim cap a b : prim a b -> orderly cap a -> orderly cap b.
Proof.
  intros H O. pose proof (pool_inv_path cap _ _ (prim_steps _ _ H) (ord_inv _ _ O))
    as I'.
  constructor; [exact I'|]. destruct O as [I A]. clear I'.
  pose proof (inv_count _ _ I) as K.
  destruct H as [w e F|w|w S F|w G P|w F|w F|w t F S|w job queue F
                |w i st job queue E|w F|w w' S];
    cbn [trace emit set_pool always disciplined].
  - split; [apply inert_disciplined, loop_free_inert, F | exact A].
  - split; [|exact A]. rewrite <- K. split; [reflexivity|].
    split; [apply pool_len_nonneg | now apply pool_inv_within].
  - split; [exact Logic.I | exact A].
  - split; [|exact A]. rewrite <- K. unfold pool_len. now rewrite P.
  - split; [|exact A]. rewrite <- K. now apply full_true_capacity.
  - split; [|exact A]. rewrite <- K. now apply full_true_capacity.
  - split; [|exact A]. rewrite <- K. now apply full_false_room.
  - split; [|exact A]. rewrite <- K. now apply full_false_room.
  - rewrite job_done_trace. cbn [trace set_pool].
    pose proof (remove_nth_length _ _ _ E) as L.
    assert (Hn : pool_len (set_pool (remove_nth i (pool w)) w)
                 = in_flight (trace w) - 1).
    { rewrite <- K. unfold pool_len. cbn [pool set_pool]. lia. }
    unfold job_done_events.
    destruct (finished (job_status (with_status st job))) eqn:Fi;
      cbn [app always disciplined in_flight delta]; repeat split; auto;
      try lia; try apply pool_len_nonneg;
      try (rewrite Hn, <- K; apply (pool_inv_within_pred _ _ I)).
    destruct (job_status (with_status st job)); try discriminate; reflexivity.
  - unfold arm_and_announce, hub_signal.
    cbn [trace emit set_stop_requested set_watchers always disciplined].
    auto.
  - destruct S as [_ _ _ _ _ _ _ _ _ T _ _]. now rewrite T.
Qed.

(** * The shape of a run *)

Lemma startup_trace burst ll df lf ws w :
  trace (startup burst ll df lf ws w) =
  startup_events burst ll df lf ws (acquires_locks w) (pool_size w) ++ trace w.
Proof.
  unfold startup, start_scheduler, startup_events, scheduler_events.
  destruct ws; [|reflexivity].
  match goal with |- context [if ?c then _ else _] =>
    change c with (acquires_locks w) end.
  destruct (acquires_locks w); [destruct burst|]; reflexivity.
Qed.

Lemma startup_fields burst ll df lf ws w :
  stop_requested (startup burst ll df lf ws w) = stop_requested w /\
  gevent_worker (startup burst ll df lf ws w) = gevent_worker w /\
  scheduler (startup burst ll df lf ws w) = (ws || scheduler w)%bool /\
  is_horse (startup burst ll df lf ws w) = is_horse w /\
  acquires_locks (startup burst ll df lf ws w) = acquires_locks w /\
  pool_size (startup burst ll df lf ws w) = pool_size w /\
  pool (startup burst ll df lf ws w) = pool w.
Proof.
  unfold startup, start_scheduler.
  destruct ws; [|repeat (split; [reflexivity|]); reflexivity].
  match goal with |- context [if ?c then _ else _] =>
    change c with (acquires_locks w) end.
  destruct (acquires_locks w) eqn:L; [destruct burst|];
    repeat (split; [try reflexivity; exact L|]); reflexivity.
Qed.

Lemma cleanup_trace w :
  trace (cleanup w) = cleanup_events (is_horse w) (scheduler w) ++ trace w.
Proof.
  unfold cleanup, cleanup_events.
  destruct (is_horse w); [reflexivity|]. destruct (scheduler w); reflexivity.
Qed.

Lemma cleanup_steady w : steady w (cleanup w) /\
  stop_requested (cleanup w) = stop_requested w.
Proof.
  unfold cleanup. destruct (is_horse w); [split; [constructor|]; reflexivity|].
  destruct (scheduler w) eqn:S; (split; [constructor|]);
    try reflexivity; exact S.
Qed.

Lemma steady_refl w : steady w w.
Proof. constructor; reflexivity. Qed.

Lemma steady_trans a b c : steady a b -> steady b c -> steady a c.
Proof. intros [] []. constructor; congruence. Qed.

Lemma job_done_steady job queue w :
  steady w (job_done job queue w) /\
  stop_requested (job_done job queue w) = stop_requested w.
Proof.
  unfold job_done. destruct (job_status job); split; try constructor;
    reflexivity.
Qed.

Lemma prim_steady a b : prim a b -> steady a b.
Proof.
  intros [w e F|w|w S F|w G P|w F|w F|w t F S|w job queue F
         |w i st job queue E|w F|w w' S]; try (constructor; reflexivity).
  - eapply steady_trans; [|apply job_done_steady]. constructor; reflexivity.
  - destruct S. constructor; assumption.
Qed.

Lemma prims_steady a b : star prim a b -> steady a b.
Proof.
  apply star_preorder; [apply steady_refl | apply steady_trans
                       | apply prim_steady].
Qed.

(** Only the announcement of a warm shutdown changes the flag. *)
Lemma prim_stop a b :
  prim a b ->
  (stop_requested b = stop_requested a /\
   exists d, trace b = d ++ trace a /\ count is_warm d = O /\
             count is_cold_registration d = O) \/
  (stop_requested a = false /\ stop_requested b = true /\
   exists d, trace b = d ++ trace a /\ count is_warm d = 1%nat /\
             count is_cold_registration d = 2%nat).
Proof.
  intros [w e F|w|w S F|w G P|w F|w F|w t F S|w job queue F
         |w i st job queue E|w F|w w' S].
  - left. split; [reflexivity|]. exists [e]. split; [reflexivity|].
    unfold count. destruct e; try discriminate; try (split; reflexivity).
    destruct l; simpl in *; [split; reflexivity|].
    destruct (String.eqb msg WARM_MSG); [discriminate | split; reflexivity].
  - left. split; [reflexivity|]. eexists [_]. repeat split.
  - left. split; [reflexivity|]. eexists [_]. repeat split.
  - left. split; [reflexivity|]. eexists [_]. repeat split.
  - left. split; [reflexivity|]. eexists [_]. repeat split.
  - left. split; [reflexivity|]. eexists [_]. repeat split.
  - left. split; [reflexivity|]. eexists [_]. repeat split.
  - left. split; [reflexivity|]. eexists [_]. repeat split.
  - left. split; [exact (proj2 (job_done_steady _ _ _))|].
    exists (job_done_events (with_status st job) queue
              (pool_len (set_pool (remove_nth i (pool w)) w))).
    split; [exact (job_done_trace _ _ (set_pool (remove_nth i (pool w)) w))|]. unfold job_done_events, count.
    destruct (finished _); split; reflexivity.
  - right. split; [exact F|]. split; [reflexivity|].
    eexists [_; _; _; _]. repeat split.
  - left. destruct S. split; [assumption|]. exists []. repeat split.
    assumption.
Qed.

Lemma loop_free_loop_event e : loop_free e = true -> loop_event e = true.
Proof.
  destruct e; simpl; try discriminate; auto. destruct st; auto.
Qed.

Lemma prim_grows a b : prim a b -> grows loop_event a b.
Proof.
  intros [w e F|w|w S F|w G P|w F|w F|w t F S|w job queue F
         |w i st job queue E|w F|w w' S].
  - exists [e]. split; [reflexivity|]. simpl.
    now rewrite (loop_free_loop_event e F).
  - eexists [_]. split; reflexivity.
  - eexists [_]. split; reflexivity.
  - eexists [_]. split; reflexivity.
  - eexists [_]. split; reflexivity.
  - eexists [_]. split; reflexivity.
  - eexists [_]. split; reflexivity.
  - eexists [_]. split; reflexivity.
  - exists (job_done_events (with_status st job) queue
              (pool_len (set_pool (remove_nth i (pool w)) w))).
    split; [exact (job_done_trace _ _ (set_pool (remove_nth i (pool w)) w))|]. unfold job_done_events.
    destruct (finished _); reflexivity.
  - eexists [_; _; _; _]. split; reflexivity.
  - destruct S. exists []. split; [assumption | reflexivity].
Qed.

Lemma prims_grow a b : star prim a b -> grows loop_event a b.
Proof.
  apply star_preorder; [apply grows_refl | apply grows_trans | apply prim_grows].
Qed.

(** A call of [_work] is the startup sequence, a path of loop transitions
    and, when the call returns or raises, the [finally] clause. *)
Lemma _work_phases burst ll df lf mj ws w s o w' s' :
  _work burst ll df lf mj ws w s = (o, w', s') ->
  exists wb, star prim (startup burst ll df lf ws w) wb /\
             (w' = cleanup wb \/ w' = wb).
Proof.
  unfold _work. intro H.
  destruct (work_loop _ burst _ s) as [[[u|h] w1] s1] eqn:E;
    apply work_loop_prims in E; exists w1; (split; [exact E|]).
  - inversion H; subst. now left.
  - destruct h; inversion H; subst; auto.
Qed.

Lemma work_phases burst ll df lf mj ws w s o w' s' :
  work burst ll df lf mj ws w s = (o, w', s') ->
  exists wb,
    star prim (startup burst (effective_level burst ll)
                 DEFAULT_LOGGING_DATE_FORMAT DEFAULT_LOGGING_FORMAT ws
                 (entry burst w)) wb /\
    (w' = cleanup wb \/ w' = wb).
Proof.
  unfold work, effective_level, entry. intro H. destruct burst.
  - destruct (_work true ll _ _ None ws w s) as [[[b|h] w1] s1] eqn:E;
      apply _work_phases in E; inversion H; subst; exact E.
  - destruct (_work false _ _ _ None ws _ s) as [[[b|h] w1] s1] eqn:E;
      apply _work_phases in E.
    + inversion H; subst; exact E.
    + destruct h as [[]| | |]; inversion H; subst; exact E.
Qed.

(** A predicate kept by each phase is kept by [work]. *)
Lemma work_invariant (I : Worker -> Prop) :
  (forall w, I w -> I (set_gevent_worker true w)) ->
  (forall burst ll df lf ws w, I w -> I (startup burst ll df lf ws w)) ->
  (forall a b, prim a b -> I a -> I b) ->
  (forall w, I w -> I (cleanup w)) ->
  forall burst ll df lf mj ws w s o w' s',
    work burst ll df lf mj ws w s = (o, w', s') -> I w -> I w'.
Proof.
  intros Hg Hs Hp Hc burst ll df lf mj ws w s o w' s' H I0.
  destruct (work_phases _ _ _ _ _ _ _ _ _ _ _ H) as (wb & P & E).
  assert (I1 : I (entry burst w)) by (destruct burst; simpl; auto).
  apply (Hs burst (effective_level burst ll) DEFAULT_LOGGING_DATE_FORMAT
           DEFAULT_LOGGING_FORMAT ws) in I1.
  apply (star_invariant prim I Hp _ _ P) in I1.
  destruct E as [-> | ->]; auto.
Qed.

(** * Properties of whole runs *)

Lemma init_more kw horse ttl locks w0 :
  __init__ kw horse ttl locks = Ok w0 ->
  trace w0 = [] /\ acquires_locks w0 = locks /\ scheduler w0 = false /\
  gevent_worker w0 = false /\ is_horse w0 = horse /\
  stop_requested w0 = false /\
  (forall C, pool_size w0 = Some C -> 0 <= C).
Proof.
  unfold __init__. intro H.
  destruct (match kw with Some v => v | None => Some DEFAULT_POOL_SIZE end)
    as [c|]; [destruct (c <? 0) eqn:L; [discriminate|]|];
    inversion H; subst; simpl; repeat split; try discriminate.
  intros C HC. inversion HC; subst. apply Z.ltb_ge in L. exact L.
Qed.

Lemma startup_events_inert burst ll df lf ws locks size e :
  In e (startup_events burst ll df lf ws locks size) -> inert e = true.
Proof.
  unfold startup_events, scheduler_events.
  destruct ws, locks, burst; simpl; intuition (subst; reflexivity).
Qed.

Lemma cleanup_events_inert horse sched e :
  In e (cleanup_events horse sched) -> inert e = true.
Proof.
  unfold cleanup_events.
  destruct horse, sched; simpl; intuition (subst; reflexivity).
Qed.

Lemma work_orderly kw horse ttl locks w0 burst ll df lf mj ws s o w' s' :
  __init__ kw horse ttl locks = Ok w0 ->
  work burst ll df lf mj ws w0 s = (o, w', s') ->
  orderly (pool_size w0) w'.
Proof.
  intros Hi H.
  destruct (init_pool_inv _ _ _ _ _ Hi) as [I0 _].
  destruct (init_more _ _ _ _ _ Hi) as (T0 & _).
  apply (work_invariant (orderly (pool_size w0)))
    with (burst := burst) (ll := ll) (df := df) (lf := lf) (mj := mj)
         (ws := ws) (w := w0) (s := s) (o := o) (s' := s'); auto.
  - intros w O. eapply orderly_same; [| | |exact O]; reflexivity.
  - intros b l d f x w [I A]. constructor; [now apply startup_pool_inv|].
    rewrite startup_trace. apply always_app; [|exact A].
    intros tr' e He. apply inert_disciplined.
    eapply startup_events_inert; eauto.
  - intros a b P O. eapply orderly_prim; eauto.
  - intros w [I A]. constructor; [now apply cleanup_pool_inv|].
    rewrite cleanup_trace. apply always_app; [|exact A].
    intros tr' e He. apply inert_disciplined.
    eapply cleanup_events_inert; eauto.
  - constructor; [exact I0|]. rewrite T0. exact Logic.I.
Qed.

(** X3. [dequeue_any] is called only while the pool has a free slot: at
    every call in a run of [work] the executions in flight are fewer than the
    capacity, when the pool has one. *)
Theorem dequeue_only_with_free_slot :
  forall kw horse ttl locks w0 burst ll df lf mj ws s o w' s'
         later timeout past,
    __init__ kw horse ttl locks = Ok w0 ->
    work burst ll df lf mj ws w0 s = (o, w', s') ->
    trace w' = later ++ EvDequeueAny timeout :: past ->
    0 <= in_flight past /\
    forall C, pool_size w0 = Some C -> in_flight past < C.
Proof.
  intros kw horse ttl locks w0 burst ll df lf mj ws s o w' s'
         later timeout past Hi H T.
  destruct (work_orderly _ _ _ _ _ _ _ _ _ _ _ _ _ _ _ Hi H) as [_ A].
  rewrite T in A. apply always_split in A. cbn [disciplined] in A.
  unfold has_room in A. destruct (pool_size w0) as [c|].
  - split; [lia|]. intros C E. inversion E; subst. lia.
  - split; [exact A | discriminate].
Qed.

Lemma no_room_counts tr :
  always (disciplined (Some 0)) tr ->
  count is_dequeue tr = O /\ count is_spawn tr = O.
Proof.
  induction tr as [|e tr IH]; [split; reflexivity|].
  intros [D A]. destruct (IH A) as [C1 C2]. unfold count in *.
  destruct e; cbn [filter is_dequeue is_spawn List.length]; auto;
    cbn [disciplined has_room] in D; lia.
Qed.

(** X4. A worker whose pool has capacity 0 never calls [dequeue_any] and
    never admits a job, whatever happens during the run. *)
Theorem zero_capacity_never_dequeues :
  forall kw horse ttl locks w0 burst ll df lf mj ws s o w' s',
    __init__ kw horse ttl locks = Ok w0 ->
    pool_size w0 = Some 0 ->
    work burst ll df lf mj ws w0 s = (o, w', s') ->
    count is_dequeue (trace w') = O /\ count is_spawn (trace w') = O /\
    pool w' = [].
Proof.
  intros kw horse ttl locks w0 burst ll df lf mj ws s o w' s' Hi Z H.
  destruct (work_orderly _ _ _ _ _ _ _ _ _ _ _ _ _ _ _ Hi H) as [I A].
  rewrite Z in A, I. destruct (no_room_counts _ A) as [C1 C2].
  split; [exact C1|]. split; [exact C2|].
  destruct (inv_cap _ _ I 0 eq_refl) as [L _]. unfold pool_len in L.
  destruct (pool w'); [reflexivity|]. simpl in L. lia.
Qed.

(** X5. The loop reports BUSY and polls with [gevent.sleep(0.1)] only while
    the pool is at capacity; with an unbounded pool it never does. *)
Theorem polls_only_a_full_pool :
  forall kw horse ttl locks w0 burst ll df lf mj ws s o w' s' later e past,
    __init__ kw horse ttl locks = Ok w0 ->
    work burst ll df lf mj ws w0 s = (o, w', s') ->
    trace w' = later ++ e :: past ->
    e = EvSleep \/ e = EvSetState WS_BUSY ->
    exists C, pool_size w0 = Some C /\ in_flight past = C.
Proof.
  intros kw horse ttl locks w0 burst ll df lf mj ws s o w' s'
         later e past Hi H T He.
  destruct (work_orderly _ _ _ _ _ _ _ _ _ _ _ _ _ _ _ Hi H) as [_ A].
  rewrite T in A. apply always_split in A.
  assert (Hc : at_capacity (pool_size w0) (in_flight past))
    by (destruct He as [-> | ->]; exact A).
  unfold at_capacity in Hc. destruct (pool_size w0) as [c|]; [|contradiction].
  eauto.
Qed.

(** X6. Every [curr_pool_len] that the worker writes is the number of
    executions in flight at that moment; it is never negative and never more
    than the capacity. *)
Theorem reported_load_is_exact :
  forall kw horse ttl locks w0 burst ll df lf mj ws s o w' s' later n past,
    __init__ kw horse ttl locks = Ok w0 ->
    work burst ll df lf mj ws w0 s = (o, w', s') ->
    trace w' = later ++ EvHsetCurrPoolLen n :: past ->
    n = in_flight past /\ 0 <= n /\
    forall C, pool_size w0 = Some C -> n <= C.
Proof.
  intros kw horse ttl locks w0 burst ll df lf mj ws s o w' s'
         later n past Hi H T.
  destruct (work_orderly _ _ _ _ _ _ _ _ _ _ _ _ _ _ _ Hi H) as [_ A].
  rewrite T in A. apply always_split in A. cbn [disciplined] in A.
  destruct A as (A1 & A2 & A3). split; [exact A1|]. split; [exact A2|].
  intros C E. rewrite E in A3. exact A3.
Qed.

Lemma prim_no_kill a b :
  prim a b -> gevent_worker a = false ->
  count is_kill_worker (trace b) = count is_kill_worker (trace a).
Proof.
  intros [w e F|w|w S F|w G P|w F|w F|w t F S|w job queue F
         |w i st job queue E|w F|w w' S] Hg; try reflexivity.
  - unfold count. cbn [trace emit filter].
    destruct e; try discriminate; reflexivity.
  - congruence.
  - rewrite (job_done_trace _ _ (set_pool (remove_nth i (pool w)) w)).
    rewrite count_app. unfold job_done_events.
    destruct (finished _); reflexivity.
  - destruct S. congruence.
Qed.

Lemma burst_never_kills kw horse ttl locks w0 ll df lf mj ws s o w' s' :
  __init__ kw horse ttl locks = Ok w0 ->
  work true ll df lf mj ws w0 s = (o, w', s') ->
  count is_kill_worker (trace w') = O.
Proof.
  intros Hi H.
  destruct (init_more _ _ _ _ _ Hi) as (T0 & _ & _ & G0 & _).
  destruct (work_phases _ _ _ _ _ _ _ _ _ _ _ H) as (wb & P & E).
  cbn [entry effective_level] in P.
  set (wa := startup true ll DEFAULT_LOGGING_DATE_FORMAT
               DEFAULT_LOGGING_FORMAT ws w0) in *.
  assert (Ia : gevent_worker wa = false /\
               count is_kill_worker (trace wa) = O).
  { subst wa. destruct (startup_fields true ll DEFAULT_LOGGING_DATE_FORMAT
                          DEFAULT_LOGGING_FORMAT ws w0) as (_ & G & _).
    split; [congruence|]. rewrite startup_trace, T0, app_nil_r.
    unfold startup_events, scheduler_events.
    destruct ws, (acquires_locks w0); reflexivity. }
  clearbody wa.
  assert (Ib : gevent_worker wb = false /\
               count is_kill_worker (trace wb) = O).
  { revert Ia. apply (star_invariant prim
      (fun w => gevent_worker w = false /\
                count is_kill_worker (trace w) = O)); [|exact P].
    intros a b Hp [G C]. split.
    - rewrite (st_gw _ _ (prim_steady _ _ Hp)). exact G.
    - rewrite (prim_no_kill _ _ Hp G). exact C. }
  destruct E as [-> | ->]; [|apply Ib].
  rewrite cleanup_trace, count_app. destruct Ib as [_ ->].
  unfold cleanup_events. destruct (is_horse wb), (scheduler wb); reflexivity.
Qed.

Lemma count_split_pos p later e past :
  p e = true -> count p (later ++ e :: past) <> O.
Proof.
  intro H. rewrite count_app. unfold count at 2. simpl. rewrite H. simpl. lia.
Qed.

(** X7. The greenlet that runs the loop is killed with StopRequested only
    when no execution is in flight, and never in burst mode, where the loop
    runs in the calling greenlet. *)
Theorem loop_killed_only_after_drain :
  forall kw horse ttl locks w0 burst ll df lf mj ws s o w' s' later past,
    __init__ kw horse ttl locks = Ok w0 ->
    work burst ll df lf mj ws w0 s = (o, w', s') ->
    trace w' = later ++ EvKillWorker :: past ->
    burst = false /\ in_flight past = 0.
Proof.
  intros kw horse ttl locks w0 burst ll df lf mj ws s o w' s'
         later past Hi H T.
  split.
  - destruct burst; [|reflexivity]. exfalso.
    pose proof (burst_never_kills _ _ _ _ _ _ _ _ _ _ _ _ _ _ Hi H) as K.
    rewrite T in K. revert K. now apply count_split_pos.
  - destruct (work_orderly _ _ _ _ _ _ _ _ _ _ _ _ _ _ _ Hi H) as [_ A].
    rewrite T in A. apply always_split in A. exact A.
Qed.

Lemma startup_events_quiet burst ll df lf ws locks size :
  count is_warm (startup_events burst ll df lf ws locks size) = O /\
  count is_cold_registration (startup_events burst ll df lf ws locks size) = O.
Proof.
  unfold startup_events, scheduler_events.
  destruct ws, locks, burst; split; reflexivity.
Qed.

(** X8. In a run without a scheduler, where the warm handler makes no
    blocking call between reading the stop flag and writing it, the flag is
    set exactly when the warm shutdown has been announced, the announcement
    is made at most once, and the cold handler is registered once for each of
    the two signals, by the announcement and by nothing else. *)
Theorem warm_shutdown_announced_once :
  forall kw horse ttl locks w0 burst ll df lf mj s o w' s',
    __init__ kw horse ttl locks = Ok w0 ->
    work burst ll df lf mj false w0 s = (o, w', s') ->
    count is_warm (trace w') = (if stop_requested w' then 1 else 0)%nat /\
    count is_cold_registration (trace w') =
      (if stop_requested w' then 2 else 0)%nat.
Proof.
  intros kw horse ttl locks w0 burst ll df lf mj s o w' s' Hi H.
  destruct (init_more _ _ _ _ _ Hi) as (T0 & _ & _ & _ & _ & S0 & _).
  apply (work_invariant
           (fun w => count is_warm (trace w) =
                       (if stop_requested w then 1 else 0)%nat /\
                     count is_cold_registration (trace w) =
                       (if stop_requested w then 2 else 0)%nat))
    with (burst := burst) (ll := ll) (df := df) (lf := lf) (mj := mj)
         (ws := false) (w := w0) (s := s) (o := o) (s' := s'); auto.
  - intros b l d f x w [C1 C2].
    destruct (startup_fields b l d f x w) as (-> & _).
    rewrite startup_trace, !count_app.
    destruct (startup_events_quiet b l d f x (acquires_locks w) (pool_size w))
      as [-> ->]. auto.
  - intros a b P [C1 C2].
    destruct (prim_stop _ _ P)
      as [(-> & d & -> & D1 & D2) | (Ea & -> & d & -> & D1 & D2)];
      rewrite !count_app, D1, D2.
    + auto.
    + rewrite Ea in C1, C2. rewrite C1, C2. auto.
  - intros w [C1 C2]. rewrite (proj2 (cleanup_steady w)).
    rewrite cleanup_trace, !count_app. unfold cleanup_events.
    destruct (is_horse w), (scheduler w); auto.
  - rewrite T0, S0. split; reflexivity.
Qed.

Lemma request_stop_sets w : stop_requested (request_stop w) = true.
Proof.
  destruct (stop_requested w) eqn:E.
  - unfold request_stop. now rewrite E.
  - exact (proj1 (request_stop_arms w SIGINT E)).
Qed.

(** X9. The warm handler is idempotent: running it a second time changes
    nothing, makes no call and registers no handler. *)
Theorem request_stop_idempotent :
  forall w, request_stop (request_stop w) = request_stop w.
Proof.
  intro w. generalize (request_stop_sets w). generalize (request_stop w).
  intros x Hx. unfold request_stop. now rewrite Hx.
Qed.

(** A run of [work] writes the startup sequence, then events of the loop,
    then at most the [finally] clause. *)
Lemma work_shape burst ll df lf mj ws w s o w' s' :
  work burst ll df lf mj ws w s = (o, w', s') ->
  exists fin loop,
    trace w' =
      fin ++ loop ++
      startup_events burst (effective_level burst ll)
        DEFAULT_LOGGING_DATE_FORMAT DEFAULT_LOGGING_FORMAT ws
        (acquires_locks w) (pool_size w) ++ trace w /\
    forallb loop_event loop = true /\
    (fin = [] \/ fin = cleanup_events (is_horse w) (ws || scheduler w)).
Proof.
  intro H. destruct (work_phases _ _ _ _ _ _ _ _ _ _ _ H) as (wb & P & E).
  destruct (prims_grow _ _ P) as (loop & T & F).
  pose proof (prims_steady _ _ P) as St.
  destruct (startup_fields burst (effective_level burst ll)
              DEFAULT_LOGGING_DATE_FORMAT DEFAULT_LOGGING_FORMAT ws
              (entry burst w)) as (_ & _ & Sc & Ho & _).
  rewrite startup_trace in T.
  assert (E1 : acquires_locks (entry burst w) = acquires_locks w)
    by (destruct burst; reflexivity).
  assert (E2 : pool_size (entry burst w) = pool_size w)
    by (destruct burst; reflexivity).
  assert (E3 : trace (entry burst w) = trace w)
    by (destruct burst; reflexivity).
  assert (E4 : is_horse (entry burst w) = is_horse w)
    by (destruct burst; reflexivity).
  assert (E5 : scheduler (entry burst w) = scheduler w)
    by (destruct burst; reflexivity).
  rewrite E1, E2, E3 in T.
  destruct E as [-> | ->].
  - exists (cleanup_events (is_horse w) (ws || scheduler w)), loop.
    split; [|split; [exact F | now right]].
    rewrite cleanup_trace, T, (st_horse _ _ St), (st_sched _ _ St), Ho, Sc,
      E4, E5. reflexivity.
  - exists [], loop. split; [exact T|]. split; [exact F | now left].
Qed.

Lemma count_loop_events p loop :
  (forall e, p e = true -> loop_event e = false) ->
  forallb loop_event loop = true -> count p loop = O.
Proof.
  intros Hp F. unfold count. induction loop as [|e l IH]; [reflexivity|].
  simpl in F. apply andb_true_iff in F as [Fe Fl]. simpl.
  destruct (p e) eqn:Pe; [rewrite (Hp e Pe) in Fe; discriminate|].
  now apply IH.
Qed.

(** X10. A run of [work] registers the worker's birth exactly once and
    publishes with it, once, the capacity the pool was built with; it
    deregisters the worker at most once, and not at all when the worker is a
    horse. *)
Theorem birth_registered_once :
  forall kw horse ttl locks w0 burst ll df lf mj ws s o w' s',
    __init__ kw horse ttl locks = Ok w0 ->
    work burst ll df lf mj ws w0 s = (o, w', s') ->
    count is_register_birth (trace w') = 1%nat /\
    count is_publish_size (trace w') = 1%nat /\
    In (EvHsetPoolSize (pool_size w0)) (trace w') /\
    (count is_register_death (trace w') <= 1)%nat /\
    (horse = true -> count is_register_death (trace w') = O).
Proof.
  intros kw horse ttl locks w0 burst ll df lf mj ws s o w' s' Hi H.
  destruct (init_more _ _ _ _ _ Hi) as (T0 & _ & _ & _ & Eh & _).
  destruct (work_shape _ _ _ _ _ _ _ _ _ _ _ H) as (fin & loop & T & F & Hf).
  rewrite T0, app_nil_r in T. rewrite T, !count_app.
  rewrite (count_loop_events is_register_birth loop),
          (count_loop_events is_publish_size loop),
          (count_loop_events is_register_death loop); auto;
    try (intros []; simpl; congruence).
  assert (B : count is_register_birth fin = O /\
              count is_publish_size fin = O /\
              (count is_register_death fin <= 1)%nat /\
              (horse = true -> count is_register_death fin = O)).
  { destruct Hf as [-> | ->]; [repeat split; auto|].
    rewrite Eh. unfold cleanup_events.
    destruct horse, (ws || scheduler w0)%bool; repeat split; auto;
      discriminate. }
  destruct B as (-> & -> & B3 & B4).
  set (ev := startup_events _ _ _ _ _ _ _).
  assert (S1 : count is_register_birth ev = 1%nat /\
               count is_publish_size ev = 1%nat /\
               count is_register_death ev = O /\
               In (EvHsetPoolSize (pool_size w0)) ev).
  { subst ev. unfold startup_events, scheduler_events.
    destruct ws, (acquires_locks w0), burst; repeat split; simpl; auto 12. }
  destruct S1 as (-> & -> & -> & S4).
  repeat split; try lia.
  - apply in_or_app. right. apply in_or_app. now right.
  - intro Hh. rewrite (B4 Hh). reflexivity.
Qed.

(** X11. [work] forwards the caller's logging level to [_work] in burst
    mode only, and never the date and log formats: log handlers are set up
    first of all, with the level INFO in continuous mode, and a scheduler is
    always created with that level and the default formats. *)
Theorem logging_options_by_mode :
  forall kw horse ttl locks w0 burst ll df lf mj ws s o w' s',
    __init__ kw horse ttl locks = Ok w0 ->
    work burst ll df lf mj ws w0 s = (o, w', s') ->
    (exists d, trace w' =
               d ++ [EvSignal SIGTERM request_stop_h;
                     EvSignal SIGINT request_stop_h;
                     EvSetupLoghandlers (if burst then ll else "INFO")]) /\
    (forall l, In (EvSetupLoghandlers l) (trace w') ->
               l = if burst then ll else "INFO") /\
    (forall a b c, In (EvSchedulerCreate a b c) (trace w') ->
                   a = (if burst then ll else "INFO") /\
                   b = DEFAULT_LOGGING_DATE_FORMAT /\
                   c = DEFAULT_LOGGING_FORMAT).
Proof.
  intros kw horse ttl locks w0 burst ll df lf mj ws s o w' s' Hi H.
  destruct (init_more _ _ _ _ _ Hi) as (T0 & _).
  destruct (work_shape _ _ _ _ _ _ _ _ _ _ _ H) as (fin & loop & T & F & Hf).
  rewrite T0, app_nil_r in T. unfold effective_level in T.
  set (lv := if burst then ll else "INFO") in *.
  assert (Hin : forall e, In e (trace w') -> loop_event e = false ->
                is_register_death e = false ->
                In e (startup_events burst lv DEFAULT_LOGGING_DATE_FORMAT
                        DEFAULT_LOGGING_FORMAT ws (acquires_locks w0)
                        (pool_size w0))).
  { intros e He Hl Hd. rewrite T in He.
    apply in_app_or in He as [He|He].
    - exfalso. destruct Hf as [-> | ->]; [exact He|].
      unfold cleanup_events in He.
      destruct (is_horse w0), (ws || scheduler w0)%bool; simpl in He;
        intuition (subst; discriminate).
    - apply in_app_or in He as [He|He]; [|exact He]. exfalso.
      rewrite forallb_forall in F. rewrite (F e He) in Hl. discriminate. }
  split; [|split].
  - rewrite T. unfold startup_events.
    exists (fin ++ loop ++
            (if ws then scheduler_events burst lv DEFAULT_LOGGING_DATE_FORMAT
                          DEFAULT_LOGGING_FORMAT (acquires_locks w0) else [])
            ++ [EvSetState WS_STARTED;
                EvLog INFO
        "RQ GEVENT worker (Greenlet pool size={0}) {1!r} started, version {2}";
                EvHsetPoolSize (pool_size w0); EvRegisterBirth]).
    rewrite <- !app_assoc. reflexivity.
  - intros l Hl. specialize (Hin _ Hl eq_refl eq_refl).
    unfold startup_events, scheduler_events in Hin.
    destruct ws, (acquires_locks w0), burst; simpl in Hin;
      intuition congruence.
  - intros a b c Hl. specialize (Hin _ Hl eq_refl eq_refl).
    unfold startup_events, scheduler_events in Hin.
    destruct ws, (acquires_locks w0), burst; simpl in Hin;
      intuition congruence.
Qed.

(** X12. A call of [work] keeps the worker's configuration: the capacity
    of the pool, the horse flag, the TTL and the lock setting are unchanged,
    the scheduler is the one created or the one already there, the loop
    greenlet is recorded in continuous mode only, and a stop flag that was set
    is still set. *)
Theorem work_keeps_configuration :
  forall burst ll df lf mj ws w s o w' s',
    work burst ll df lf mj ws w s = (o, w', s') ->
    pool_size w' = pool_size w /\
    is_horse w' = is_horse w /\
    default_worker_ttl w' = default_worker_ttl w /\
    acquires_locks w' = acquires_locks w /\
    scheduler w' = (ws || scheduler w)%bool /\
    gevent_worker w' = (if burst then gevent_worker w else true) /\
    (stop_requested w = true -> stop_requested w' = true).
Proof.
  intros burst ll df lf mj ws w s o w' s' H.
  destruct (work_phases _ _ _ _ _ _ _ _ _ _ _ H) as (wb & P & E).
  pose proof (prims_steady _ _ P) as [B1 B2 B3 B4 B5 B6].
  pose proof (fr_stop _ _ (frame_path _ _ (prims_steps _ _ P))) as B7.
  pose proof (startup_ttl burst (effective_level burst ll)
                DEFAULT_LOGGING_DATE_FORMAT DEFAULT_LOGGING_FORMAT ws
                (entry burst w)) as A0.
  destruct (startup_fields burst (effective_level burst ll)
              DEFAULT_LOGGING_DATE_FORMAT DEFAULT_LOGGING_FORMAT ws
              (entry burst w)) as (A1 & A2 & A3 & A4 & A5 & A6 & _).
  destruct (cleanup_steady wb) as [[C1 C2 C3 C4 C5 C6] C7].
  assert (R : pool_size wb = pool_size w /\
              is_horse wb = is_horse w /\
              default_worker_ttl wb = default_worker_ttl w /\
              acquires_locks wb = acquires_locks w /\
              scheduler wb = (ws || scheduler w)%bool /\
              gevent_worker wb = (if burst then gevent_worker w else true) /\
              (stop_requested w = true -> stop_requested wb = true)).
  { rewrite B1, B2, B3, B4, B5, B6, A0, A2, A3, A4, A5, A6.
    repeat split; try (destruct burst; reflexivity).
    intro Hs. apply B7. rewrite A1. destruct burst; exact Hs. }
  destruct E as [-> | ->]; [|exact R].
  rewrite C1, C2, C3, C4, C5, C6, C7. exact R.
Qed.

Lemma prim_no_scheduler_call a b :
  prim a b -> scheduler a = false ->
  count is_scheduler_call (trace b) = count is_scheduler_call (trace a).
Proof.
  intros [w e F|w|w S F|w G P|w F|w F|w t F S|w job queue F
         |w i st job queue E|w F|w w' S] Hs; try reflexivity.
  - unfold count. cbn [trace emit filter].
    destruct e; try discriminate; reflexivity.
  - congruence.
  - rewrite (job_done_trace _ _ (set_pool (remove_nth i (pool w)) w)).
    rewrite count_app. unfold job_done_events.
    destruct (finished _); reflexivity.
  - destruct S. congruence.
Qed.

(** X13. Without [with_scheduler] a run never calls a scheduler.  With it,
    and with the locks acquired, a burst run enqueues the scheduled jobs once
    and releases the locks once without starting the scheduler, and a
    continuous run starts the scheduler once and does neither of the other
    two; without the locks none of the three happens. *)
Theorem scheduler_by_mode :
  forall kw horse ttl locks w0 burst ll df lf mj ws s o w' s',
    __init__ kw horse ttl locks = Ok w0 ->
    work burst ll df lf mj ws w0 s = (o, w', s') ->
    (ws = false -> count is_scheduler_call (trace w') = O) /\
    (ws = true ->
     count is_enqueue_scheduled (trace w') =
       (if locks && burst then 1 else 0)%nat /\
     count is_release_locks (trace w') =
       (if locks && burst then 1 else 0)%nat /\
     count is_scheduler_start (trace w') =
       (if locks && negb burst then 1 else 0)%nat).
Proof.
  intros kw horse ttl locks w0 burst ll df lf mj ws s o w' s' Hi H.
  destruct (init_more _ _ _ _ _ Hi) as (T0 & L0 & S0 & _).
  split.
  - intros ->.
    destruct (work_phases _ _ _ _ _ _ _ _ _ _ _ H) as (wb & P & E).
    set (wa := startup _ _ _ _ _ _) in *.
    assert (Ia : scheduler wa = false /\
                 count is_scheduler_call (trace wa) = O).
    { subst wa. split.
      - destruct (startup_fields burst (effective_level burst ll)
                    DEFAULT_LOGGING_DATE_FORMAT DEFAULT_LOGGING_FORMAT false
                    (entry burst w0)) as (_ & _ & -> & _).
        destruct burst; exact S0.
      - rewrite startup_trace.
        replace (trace (entry burst w0)) with (@nil Event)
          by (destruct burst; symmetry; exact T0).
        reflexivity. }
    clearbody wa.
    assert (Ib : scheduler wb = false /\
                 count is_scheduler_call (trace wb) = O).
    { revert Ia. apply (star_invariant prim
        (fun w => scheduler w = false /\
                  count is_scheduler_call (trace w) = O)); [|exact P].
      intros a b Hp [G C]. split.
      - rewrite (st_sched _ _ (prim_steady _ _ Hp)). exact G.
      - rewrite (prim_no_scheduler_call _ _ Hp G). exact C. }
    destruct E as [-> | ->]; [|apply Ib].
    rewrite cleanup_trace, count_app. destruct Ib as [-> ->].
    unfold cleanup_events. destruct (is_horse wb); reflexivity.
  - intros ->.
    destruct (work_shape _ _ _ _ _ _ _ _ _ _ _ H)
      as (fin & loop & T & F & Hf).
    rewrite T0, app_nil_r, L0 in T. rewrite T, !count_app.
    rewrite (count_loop_events is_enqueue_scheduled loop),
            (count_loop_events is_release_locks loop),
            (count_loop_events is_scheduler_start loop); auto;
      try (intros []; simpl; congruence).
    assert (B : count is_enqueue_scheduled fin = O /\
                count is_release_locks fin = O /\
                count is_scheduler_start fin = O).
    { destruct Hf as [-> | ->]; [repeat split|].
      unfold cleanup_events.
      destruct (is_horse w0), (true || scheduler w0)%bool; repeat split. }
    destruct B as (-> & -> & ->).
    unfold startup_events, scheduler_events.
    destruct locks, burst; repeat split.
Qed.

(** * The properties on the concrete runs *)

Lemma continuous_warm_run_eq :
  work false "DEBUG" "%F" "%(message)s" None true scheduling_worker warm_idle =
  (fst (fst continuous_warm_run), snd (fst continuous_warm_run),
   snd continuous_warm_run).
Proof. unfold continuous_warm_run. apply triple_eta. Qed.

Lemma no_slot_run_eq :
  work true "INFO" DEFAULT_LOGGING_DATE_FORMAT DEFAULT_LOGGING_FORMAT None
    false no_slot_worker no_slot_script =
  (fst (fst no_slot_run), snd (fst no_slot_run), snd no_slot_run).
Proof. unfold no_slot_run. apply triple_eta. Qed.

Lemma burst_scheduled_run_eq :
  work true "DEBUG" "%F" "%(message)s" None true scheduling_worker
    (repeat (quiet_tick None) 4) =
  (fst (fst burst_scheduled_run), snd (fst burst_scheduled_run),
   snd burst_scheduled_run).
Proof. unfold burst_scheduled_run. apply triple_eta. Qed.

Lemma dequeue_only_with_free_slot_witness :
  0 <= in_flight (skipn 24 (trace (snd (fst full_pool_run)))) /\
  in_flight (skipn 24 (trace (snd (fst full_pool_run)))) < 1.
Proof.
  assert (T : trace (snd (fst full_pool_run)) =
              firstn 23 (trace (snd (fst full_pool_run))) ++
              EvDequeueAny (Some 1) ::
              skipn 24 (trace (snd (fst full_pool_run))))
    by (vm_compute; reflexivity).
  destruct (dequeue_only_with_free_slot (Some (Some 1)) false 61 false
              small_worker false "INFO" DEFAULT_LOGGING_DATE_FORMAT
              DEFAULT_LOGGING_FORMAT None false pool_stays_full
              (fst (fst full_pool_run)) (snd (fst full_pool_run))
              (snd full_pool_run)
              (firstn 23 (trace (snd (fst full_pool_run)))) (Some 1)
              (skipn 24 (trace (snd (fst full_pool_run))))
              eq_refl full_pool_run_eq T) as [H1 H2].
  split; [exact H1 | exact (H2 1 eq_refl)].
Defined.

Lemma zero_capacity_never_dequeues_witness :
  count is_dequeue (trace (snd (fst no_slot_run))) = O /\
  count is_spawn (trace (snd (fst no_slot_run))) = O /\
  pool (snd (fst no_slot_run)) = [].
Proof.
  apply (zero_capacity_never_dequeues (Some (Some 0)) false 420 false
           no_slot_worker true "INFO" DEFAULT_LOGGING_DATE_FORMAT
           DEFAULT_LOGGING_FORMAT None false no_slot_script
           (fst (fst no_slot_run)) (snd (fst no_slot_run)) (snd no_slot_run)).
  - reflexivity.
  - reflexivity.
  - exact no_slot_run_eq.
Defined.

Lemma polls_only_a_full_pool_witness :
  exists C, pool_size small_worker = Some C /\
            in_flight (tl (trace (snd (fst full_pool_run)))) = C.
Proof.
  apply (polls_only_a_full_pool (Some (Some 1)) false 61 false
           small_worker false "INFO" DEFAULT_LOGGING_DATE_FORMAT
           DEFAULT_LOGGING_FORMAT None false pool_stays_full
           (fst (fst full_pool_run)) (snd (fst full_pool_run))
           (snd full_pool_run)
           [] EvSleep (tl (trace (snd (fst full_pool_run))))).
  - reflexivity.
  - exact full_pool_run_eq.
  - vm_compute. reflexivity.
  - left. reflexivity.
Defined.

Lemma reported_load_is_exact_witness :
  1 = in_flight (skipn 16 (trace (snd (fst full_pool_run)))) /\ 0 <= 1 /\
  1 <= 1.
Proof.
  assert (T : trace (snd (fst full_pool_run)) =
              firstn 15 (trace (snd (fst full_pool_run))) ++
              EvHsetCurrPoolLen 1 ::
              skipn 16 (trace (snd (fst full_pool_run))))
    by (vm_compute; reflexivity).
  destruct (reported_load_is_exact (Some (Some 1)) false 61 false
              small_worker false "INFO" DEFAULT_LOGGING_DATE_FORMAT
              DEFAULT_LOGGING_FORMAT None false pool_stays_full
              (fst (fst full_pool_run)) (snd (fst full_pool_run))
              (snd full_pool_run)
              (firstn 15 (trace (snd (fst full_pool_run)))) 1
              (skipn 16 (trace (snd (fst full_pool_run))))
              eq_refl full_pool_run_eq T) as (H1 & H2 & H3).
  split; [exact H1|]. split; [exact H2 | exact (H3 1 eq_refl)].
Defined.

Lemma loop_killed_only_after_drain_witness :
  false = false /\
  in_flight (skipn 3 (trace (snd (fst continuous_warm_run)))) = 0.
Proof.
  apply (loop_killed_only_after_drain None false 420 true
           scheduling_worker false "DEBUG" "%F" "%(message)s" None true
           warm_idle
           (fst (fst continuous_warm_run)) (snd (fst continuous_warm_run))
           (snd continuous_warm_run)
           (firstn 2 (trace (snd (fst continuous_warm_run))))
           (skipn 3 (trace (snd (fst continuous_warm_run))))).
  - reflexivity.
  - exact continuous_warm_run_eq.
  - vm_compute. reflexivity.
Defined.

Lemma warm_shutdown_announced_once_witness :
  count is_warm (trace (snd (fst burst_cold_run))) =
    (if stop_requested (snd (fst burst_cold_run)) then 1 else 0)%nat /\
  count is_cold_registration (trace (snd (fst burst_cold_run))) =
    (if stop_requested (snd (fst burst_cold_run)) then 2 else 0)%nat.
Proof.
  apply (warm_shutdown_announced_once None false 420 false default_worker
           true "INFO" DEFAULT_LOGGING_DATE_FORMAT DEFAULT_LOGGING_FORMAT
           None burst_interrupted_twice
           (fst (fst burst_cold_run)) (snd (fst burst_cold_run))
           (snd burst_cold_run)).
  - reflexivity.
  - exact burst_cold_run_eq.
Defined.

Lemma birth_registered_once_witness :
  count is_register_birth (trace (snd (fst burst_cold_run))) = 1%nat /\
  count is_publish_size (trace (snd (fst burst_cold_run))) = 1%nat /\
  In (EvHsetPoolSize (pool_size default_worker))
     (trace (snd (fst burst_cold_run))) /\
  (count is_register_death (trace (snd (fst burst_cold_run))) <= 1)%nat.
Proof.
  destruct (birth_registered_once None false 420 false default_worker
              true "INFO" DEFAULT_LOGGING_DATE_FORMAT DEFAULT_LOGGING_FORMAT
              None false burst_interrupted_twice
              (fst (fst burst_cold_run)) (snd (fst burst_cold_run))
              (snd burst_cold_run) eq_refl burst_cold_run_eq)
    as (H1 & H2 & H3 & H4 & _).
  repeat split; assumption.
Defined.

Lemma logging_options_by_mode_witness :
  exists d, trace (snd (fst continuous_warm_run)) =
            d ++ [EvSignal SIGTERM request_stop_h;
                  EvSignal SIGINT request_stop_h;
                  EvSetupLoghandlers "INFO"].
Proof.
  apply (logging_options_by_mode None false 420 true
           scheduling_worker false "DEBUG" "%F" "%(message)s" None true
           warm_idle
           (fst (fst continuous_warm_run)) (snd (fst continuous_warm_run))
           (snd continuous_warm_run)).
  - reflexivity.
  - exact continuous_warm_run_eq.
Defined.

Lemma work_keeps_configuration_witness :
  pool_size (snd (fst continuous_warm_run)) = pool_size scheduling_worker /\
  is_horse (snd (fst continuous_warm_run)) = is_horse scheduling_worker /\
  default_worker_ttl (snd (fst continuous_warm_run)) =
    default_worker_ttl scheduling_worker /\
  acquires_locks (snd (fst continuous_warm_run)) =
    acquires_locks scheduling_worker /\
  scheduler (snd (fst continuous_warm_run)) =
    (true || scheduler scheduling_worker)%bool /\
  gevent_worker (snd (fst continuous_warm_run)) = true.
Proof.
  destruct (work_keeps_configuration false "DEBUG" "%F" "%(message)s" None
              true scheduling_worker warm_idle
              (fst (fst continuous_warm_run)) (snd (fst continuous_warm_run))
              (snd continuous_warm_run) continuous_warm_run_eq)
    as (H1 & H2 & H3 & H4 & H5 & H6 & _).
  repeat split; assumption.
Defined.

Lemma scheduler_by_mode_witness :
  count is_enqueue_scheduled (trace (snd (fst burst_scheduled_run))) = 1%nat /\
  count is_release_locks (trace (snd (fst burst_scheduled_run))) = 1%nat /\
  count is_scheduler_start (trace (snd (fst burst_scheduled_run))) = O.
Proof.
  apply (scheduler_by_mode None false 420 true scheduling_worker
           true "DEBUG" "%F" "%(message)s" None true
           (repeat (quiet_tick None) 4)
           (fst (fst burst_scheduled_run)) (snd (fst burst_scheduled_run))
           (snd burst_scheduled_run)).
  - reflexivity.
  - exact burst_scheduled_run_eq.
  - reflexivity.
Defined.






Lemma registered_inert size e :
  is_dequeue e = false -> is_spawn e = false ->
  forall tr', registered size tr' e.
Proof. intros D S tr' [H|H]; congruence. Qed.

Lemma registered_loop size loop : forall st,
  forallb loop_event loop = true ->
  In EvRegisterBirth st -> In (EvHsetPoolSize size) st ->
  In (EvSetState WS_STARTED) st -> ~ In EvRegisterDeath st ->
  always (registered size) st -> always (registered size) (loop ++ st).
Proof.
  induction loop as [|e loop IH]; intros st F B P S D A; [exact A|].
  simpl in F. apply andb_true_iff in F as [Fe Fl]. simpl. split.
  - intros _. rewrite forallb_forall in Fl.
    repeat split; try (apply in_or_app; now right).
    intro I. apply in_app_or in I as [I|I]; [|exact (D I)].
    specialize (Fl _ I). discriminate.
  - now apply IH.
Qed.

(** X15. A job is dequeued or admitted only while the worker is registered:
    every call of [dequeue_any] and every admission of a run comes after
    [register_birth], after the pool size has been published and the state
    set to STARTED, and before any [register_death]. *)
Theorem works_only_while_registered :
  forall kw horse ttl locks w0 burst ll df lf mj ws s o w' s' later e past,
    __init__ kw horse ttl locks = Ok w0 ->
    work burst ll df lf mj ws w0 s = (o, w', s') ->
    trace w' = later ++ e :: past ->
    is_dequeue e = true \/ is_spawn e = true ->
    In EvRegisterBirth past /\ In (EvHsetPoolSize (pool_size w0)) past /\
    In (EvSetState WS_STARTED) past /\ ~ In EvRegisterDeath past.
Proof.
  intros kw horse ttl locks w0 burst ll df lf mj ws s o w' s' later e past
         Hi H T He.
  destruct (init_more _ _ _ _ _ Hi) as (T0 & _).
  destruct (work_shape _ _ _ _ _ _ _ _ _ _ _ H) as (fin & loop & Ts & F & Hf).
  rewrite T0, app_nil_r in Ts.
  set (st := startup_events _ _ _ _ _ _ _) in Ts.
  assert (Sin : In EvRegisterBirth st /\ In (EvHsetPoolSize (pool_size w0)) st
                /\ In (EvSetState WS_STARTED) st /\ ~ In EvRegisterDeath st /\
                forall x, In x st -> is_dequeue x = false /\
                                     is_spawn x = false).
  { subst st. unfold startup_events, scheduler_events.
    destruct ws, (acquires_locks w0), burst; simpl;
      repeat split; auto 12; intuition (subst; try discriminate; auto). }
  destruct Sin as (S1 & S2 & S3 & S4 & S5).
  assert (A : always (registered (pool_size w0)) (trace w')).
  { rewrite Ts. apply always_app.
    - intros tr' x Hx. apply registered_inert;
        destruct Hf as [-> | ->]; try contradiction;
        unfold cleanup_events in Hx;
        destruct (is_horse w0), (ws || scheduler w0)%bool; simpl in Hx;
        intuition (subst; reflexivity).
    - apply registered_loop; auto.
      rewrite <- (app_nil_r st). apply always_app; [|exact Logic.I].
      intros tr' x Hx. apply registered_inert; now apply S5. }
  rewrite T in A. apply always_split in A. exact (A He).
Qed.

Lemma works_only_while_registered_witness :
  In EvRegisterBirth (skipn 24 (trace (snd (fst full_pool_run)))) /\
  In (EvHsetPoolSize (pool_size small_worker))
     (skipn 24 (trace (snd (fst full_pool_run)))) /\
  In (EvSetState WS_STARTED) (skipn 24 (trace (snd (fst full_pool_run)))) /\
  ~ In EvRegisterDeath (skipn 24 (trace (snd (fst full_pool_run)))).
Proof.
  assert (T : trace (snd (fst full_pool_run)) =
              firstn 23 (trace (snd (fst full_pool_run))) ++
              EvDequeueAny (Some 1) ::
              skipn 24 (trace (snd (fst full_pool_run))))
    by (vm_compute; reflexivity).
  exact (works_only_while_registered (Some (Some 1)) false 61 false
           small_worker false "INFO" DEFAULT_LOGGING_DATE_FORMAT
           DEFAULT_LOGGING_FORMAT None false pool_stays_full
           (fst (fst full_pool_run)) (snd (fst full_pool_run))
           (snd full_pool_run)
           (firstn 23 (trace (snd (fst full_pool_run))))
           (EvDequeueAny (Some 1))
           (skipn 24 (trace (snd (fst full_pool_run))))
           eq_refl full_pool_run_eq T (or_introl eq_refl)).
Defined.
